(** * Inline image generation extension: scanner, existence policy,
      retry loop and reconciliation gate

    A shallow embedding of [src/index.js] and of its near-duplicate copy
    [src/unnamed/part_000], with the properties of the specification
    stated and settled against it.

    JavaScript strings are sequences of UTF-16 code units, and every
    offset the scanner computes ([indexOf], [lastIndexOf], [substring],
    the 500-unit look-back) counts code units.  A text is therefore a
    list of code units, each an [N]. *)

From Stdlib Require Import NArith ZArith Ascii String.
From stdpp Require Import base decidable option numbers list sorting gmap pretty.

Open Scope nat_scope.

#[local] Set Warnings "-register-all".

Abbreviation char := N (only parsing).
Abbreviation text := (list N) (only parsing).

(** ** String literals *)

Fixpoint str (s : string) : text :=
  match s with
  | EmptyString => []
  | String a s' => N_of_ascii a :: str s'
  end.

(** A literal of the source written with a backquote for each double
    quote in it. *)
Definition lit (s : string) : text :=
  map (λ c, if (c =? 96)%N then 34%N else c) (str s).

Definition dquote : char := 34%N.
Definition squote : char := 39%N.
Definition backslash : char := 92%N.
Definition lbrace : char := 123%N.
Definition rbrace : char := 125%N.
Definition rbracket : char := 93%N.
Definition gt_sign : char := 62%N.
Definition slash : char := 47%N.

(** ** The string primitives of the host language that the code calls *)

Module JsString.

Fixpoint text_eqb (a b : text) : bool :=
  match a, b with
  | [], [] => true
  | x :: a', y :: b' => (x =? y)%N && text_eqb a' b'
  | _, _ => false
  end.

(** [t.startsWith(pat)] *)
Fixpoint startsWith (pat t : text) : bool :=
  match pat, t with
  | [], _ => true
  | _ :: _, [] => false
  | p :: pat', c :: t' => (p =? c)%N && startsWith pat' t'
  end.

(** Offset of the first occurrence of [pat] in [t]. *)
Fixpoint find_sub (pat t : text) : option nat :=
  if startsWith pat t then Some 0
  else match t with
       | [] => None
       | _ :: t' => S <$> find_sub pat t'
       end.

(** [t.indexOf(pat, pos)], [None] for -1.  Every pattern the code
    searches for is a non-empty literal, for which a start position past
    the end finds nothing, as in the host language. *)
Definition indexOf (pat t : text) (pos : nat) : option nat :=
  (λ k, pos + k) <$> find_sub pat (drop pos t).

(** [t.includes(pat)] *)
Definition includes (pat t : text) : bool :=
  match find_sub pat t with Some _ => true | None => false end.

(** Backward search: the largest [k <= pos] at which [pat] occurs. *)
Fixpoint rfind (pat t : text) (k : nat) : option nat :=
  if startsWith pat (drop k t) then Some k
  else match k with
       | 0 => None
       | S k' => rfind pat t k'
       end.

(** [t.lastIndexOf(pat, pos)] *)
Definition lastIndexOf (pat t : text) (pos : nat) : option nat :=
  rfind pat t (pos `min` length t).

(** [t.substring(a, b)]: both ends are clamped to the length and swapped
    when out of order. *)
Definition substring (t : text) (a b : nat) : text :=
  let a' := a `min` length t in
  let b' := b `min` length t in
  take ((a' `max` b') - (a' `min` b')) (drop (a' `min` b') t).

(** [t.substring(a)] *)
Definition substring_from (t : text) (a : nat) : text := drop a t.

(** [t.replace(/pat/g, rep)] for a literal, non-empty [pat]: occurrences
    are replaced left to right, without overlap.  [skip] counts the
    characters of an occurrence already replaced. *)
Fixpoint replaceAll_aux (pat rep t : text) (skip : nat) : text :=
  match t with
  | [] => []
  | c :: t' =>
      match skip with
      | S k => replaceAll_aux pat rep t' k
      | 0 =>
          if startsWith pat t
          then rep ++ replaceAll_aux pat rep t' (length pat - 1)
          else c :: replaceAll_aux pat rep t' 0
      end
  end.

Definition replaceAll (pat rep t : text) : text := replaceAll_aux pat rep t 0.

(** *** Character classes of the host's regular expressions *)

(** The class [\s]: white space and line terminators. *)
Definition is_space (c : char) : bool :=
  ((9 <=? c)%N && (c <=? 13)%N) || (c =? 32)%N || (c =? 160)%N
  || (c =? 5760)%N || ((8192 <=? c)%N && (c <=? 8202)%N)
  || (c =? 8232)%N || (c =? 8233)%N || (c =? 8239)%N || (c =? 8287)%N
  || (c =? 12288)%N || (c =? 65279)%N.

Fixpoint skip_space (s : text) : text :=
  match s with
  | c :: s' => if is_space c then skip_space s' else s
  | [] => []
  end.

Fixpoint take_while (f : char → bool) (s : text) : text :=
  match s with
  | c :: s' => if f c then c :: take_while f s' else []
  | [] => []
  end.

End JsString.

(** ** The balanced-brace scan

    The two scanning loops of [parseImageTags] carry the same inner [for]
    loop, character for character (index.js 626-657 and 744-775; part_000
    639-656 and 733-750).  It is embedded once.  [braceCount] is a host
    number that can go below zero, hence a [Z]. *)

Module BraceScan.

(** The body of [for (let i = jsonStart; i < text.length; i++)], on the
    characters from [i] on. [None] is [jsonEnd === -1]. *)
Fixpoint brace_loop (rest : text) (i : nat)
         (braceCount : Z) (inString escapeNext : bool) : option nat :=
  match rest with
  | [] => None
  | char :: rest' =>
      if escapeNext then
        brace_loop rest' (S i) braceCount inString false
      else if (char =? backslash)%N && inString then
        brace_loop rest' (S i) braceCount inString true
      else if (char =? dquote)%N then
        brace_loop rest' (S i) braceCount (negb inString) false
      else if negb inString then
        if (char =? lbrace)%N then
          brace_loop rest' (S i) (braceCount + 1)%Z inString false
        else if (char =? rbrace)%N then
          if (braceCount - 1 =? 0)%Z then Some (S i)
          else brace_loop rest' (S i) (braceCount - 1)%Z inString false
        else brace_loop rest' (S i) braceCount inString false
      else brace_loop rest' (S i) braceCount inString false
  end.

Definition findJsonEnd (t : text) (jsonStart : nat) : option nat :=
  brace_loop (drop jsonStart t) jsonStart 0%Z false false.

End BraceScan.

(** ** [JSON.parse]

    The host's JSON grammar (ECMA-404): whitespace is space, tab, line feed
    and carriage return; strings exclude raw control characters and decode
    the escapes; a number keeps its exact decimal value, sign, mantissa and
    power of ten.  Each of the three mutually recursive functions spends
    one unit of fuel per call, and two calls in a row consume at least one
    character, so the fuel of [JSON_parse], one more than twice the length
    of the input, never runs out before the input does. *)

Module Json.

Inductive json :=
| JNull
| JBool (b : bool)
| JNum (neg : bool) (mant : N) (exp10 : Z)
| JStr (s : text)
| JArr (elems : list json)
| JObj (members : list (text * json)).

Definition is_ws (c : char) : bool :=
  (c =? 32)%N || (c =? 9)%N || (c =? 10)%N || (c =? 13)%N.

Fixpoint skip_ws (s : text) : text :=
  match s with
  | c :: s' => if is_ws c then skip_ws s' else s
  | [] => []
  end.

Definition digit_val (c : char) : option N :=
  if (48 <=? c)%N && (c <=? 57)%N then Some (c - 48)%N else None.

Definition hex_val (c : char) : option N :=
  if (48 <=? c)%N && (c <=? 57)%N then Some (c - 48)%N
  else if (97 <=? c)%N && (c <=? 102)%N then Some (c - 87)%N
  else if (65 <=? c)%N && (c <=? 70)%N then Some (c - 55)%N
  else None.

(** The characters after the opening quote, up to the closing one. *)
Fixpoint parse_string_body (s acc : text) : option (text * text) :=
  match s with
  | [] => None
  | c :: s' =>
      if (c =? dquote)%N then Some (reverse acc, s')
      else if (c =? backslash)%N then
        match s' with
        | e :: s'' =>
            if (e =? 117)%N then
              match s'' with
              | h1 :: h2 :: h3 :: h4 :: s3 =>
                  match hex_val h1, hex_val h2, hex_val h3, hex_val h4 with
                  | Some a, Some b, Some c', Some d =>
                      parse_string_body s3
                        ((((a * 16 + b) * 16 + c') * 16 + d)%N :: acc)
                  | _, _, _, _ => None
                  end
              | _ => None
              end
            else
              let simple (u : char) := parse_string_body s'' (u :: acc) in
              if (e =? dquote)%N then simple dquote
              else if (e =? backslash)%N then simple backslash
              else if (e =? slash)%N then simple slash
              else if (e =? 98)%N then simple 8%N
              else if (e =? 102)%N then simple 12%N
              else if (e =? 110)%N then simple 10%N
              else if (e =? 114)%N then simple 13%N
              else if (e =? 116)%N then simple 9%N
              else None
        | [] => None
        end
      else if (c <? 32)%N then None
      else parse_string_body s' (c :: acc)
  end.

(** A maximal run of decimal digits: its value, its length, the rest. *)
Fixpoint span_digits (s : text) (acc : N) (n : nat) : N * nat * text :=
  match s with
  | c :: s' =>
      match digit_val c with
      | Some d => span_digits s' (acc * 10 + d)%N (S n)
      | None => (acc, n, s)
      end
  | [] => (acc, n, [])
  end.

Definition parse_exponent (s : text) : Z * text :=
  match s with
  | e :: s1 =>
      if (e =? 101)%N || (e =? 69)%N then
        let '(sign, s2) :=
          match s1 with
          | c :: s2 =>
              if (c =? 43)%N then (1%Z, s2)
              else if (c =? 45)%N then ((-1)%Z, s2)
              else (1%Z, s1)
          | [] => (1%Z, s1)
          end in
        let '(v, n, s3) := span_digits s2 0%N 0 in
        match n with
        | 0 => (0%Z, s)
        | S _ => ((sign * Z.of_N v)%Z, s3)
        end
      else (0%Z, s)
  | [] => (0%Z, s)
  end.

Definition parse_fraction (s : text) (int_part : N) : N * nat * text :=
  match s with
  | c :: s1 =>
      if (c =? 46)%N then
        let '(v, n, s2) := span_digits s1 int_part 0 in
        match n with
        | 0 => (int_part, 0, s)
        | S _ => (v, n, s2)
        end
      else (int_part, 0, s)
  | [] => (int_part, 0, s)
  end.

Definition parse_number (s : text) : option (json * text) :=
  let '(neg, s0) :=
    match s with
    | c :: s' => if (c =? 45)%N then (true, s') else (false, s)
    | [] => (false, s)
    end in
  match s0 with
  | d :: s1 =>
      match digit_val d with
      | None => None
      | Some dv =>
          let '(ip, s2) :=
            if (dv =? 0)%N then (0%N, s1)
            else let '(v, _, r) := span_digits s1 dv 0 in (v, r) in
          let '(m, nfrac, s3) := parse_fraction s2 ip in
          let '(e, s4) := parse_exponent s3 in
          Some (JNum neg m (e - Z.of_nat nfrac)%Z, s4)
      end
  | [] => None
  end.

Definition expect (lit : text) (v : json) (s : text) : option (json * text) :=
  if JsString.startsWith lit s then Some (v, drop (length lit) s) else None.

Fixpoint parse_value (fuel : nat) (s : text) : option (json * text) :=
  match fuel with
  | 0 => None
  | S fuel' =>
      match skip_ws s with
      | [] => None
      | c :: s' =>
          if (c =? lbrace)%N then
            match skip_ws s' with
            | c' :: s'' =>
                if (c' =? rbrace)%N then Some (JObj [], s'')
                else parse_members fuel' s' []
            | [] => None
            end
          else if (c =? 91)%N then
            match skip_ws s' with
            | c' :: s'' =>
                if (c' =? rbracket)%N then Some (JArr [], s'')
                else parse_elements fuel' s' []
            | [] => None
            end
          else if (c =? dquote)%N then
            match parse_string_body s' [] with
            | Some (v, r) => Some (JStr v, r)
            | None => None
            end
          else if (c =? 116)%N then expect (str "true") (JBool true) (c :: s')
          else if (c =? 102)%N then expect (str "false") (JBool false) (c :: s')
          else if (c =? 110)%N then expect (str "null") JNull (c :: s')
          else parse_number (c :: s')
      end
  end
with parse_members (fuel : nat) (s : text) (acc : list (text * json))
     : option (json * text) :=
  match fuel with
  | 0 => None
  | S fuel' =>
      match skip_ws s with
      | q :: s1 =>
          if (q =? dquote)%N then
            match parse_string_body s1 [] with
            | Some (k, s2) =>
                match skip_ws s2 with
                | colon :: s3 =>
                    if (colon =? 58)%N then
                      match parse_value fuel' s3 with
                      | Some (v, s4) =>
                          match skip_ws s4 with
                          | d :: s5 =>
                              if (d =? 44)%N then
                                parse_members fuel' s5 ((k, v) :: acc)
                              else if (d =? rbrace)%N then
                                Some (JObj (reverse ((k, v) :: acc)), s5)
                              else None
                          | [] => None
                          end
                      | None => None
                      end
                    else None
                | [] => None
                end
            | None => None
            end
          else None
      | [] => None
      end
  end
with parse_elements (fuel : nat) (s : text) (acc : list json)
     : option (json * text) :=
  match fuel with
  | 0 => None
  | S fuel' =>
      match parse_value fuel' s with
      | Some (v, s1) =>
          match skip_ws s1 with
          | d :: s2 =>
              if (d =? 44)%N then parse_elements fuel' s2 (v :: acc)
              else if (d =? rbracket)%N then Some (JArr (reverse (v :: acc)), s2)
              else None
          | [] => None
          end
      | None => None
      end
  end.

(** [JSON.parse(s)]; [None] is the [SyntaxError] it throws. *)
Definition JSON_parse (s : text) : option json :=
  match parse_value (S (2 * length s)) s with
  | Some (v, r) => match skip_ws r with [] => Some v | _ :: _ => None end
  | None => None
  end.

(** Truthiness of a parsed value, as [||] tests it.  A number is falsy
    when it is zero as a double: a decimal rounds to zero exactly when it
    is at most 2^-1075, half of the least positive double. *)
Definition truthy (v : json) : bool :=
  match v with
  | JNull => false
  | JBool b => b
  | JNum _ m e =>
      if (m =? 0)%N then false
      else if (0 <=? e)%Z then true
      else (10 ^ (- e) <? Z.of_N m * 2 ^ 1075)%Z
  | JStr s => match s with [] => false | _ :: _ => true end
  | JArr _ | JObj _ => true
  end.

(** [data.key] on an object: the last member of that name wins;
    [None] is [undefined]. *)
Fixpoint get_member (key : text) (members : list (text * json)) : option json :=
  match members with
  | [] => None
  | (k, v) :: rest =>
      match get_member key rest with
      | Some v' => Some v'
      | None => if JsString.text_eqb k key then Some v else None
      end
  end.

End Json.

(** ** The tag scanner, [parseImageTags]

    The function is the same in both copies of the source (index.js
    601-813, part_000 614-782).  Its only suspension point is the
    existence probe [checkFileExists], a [HEAD] request; the network is an
    oracle that answers the [n]-th request of a scan for a path, and the
    scan returns, with the tags, the paths it requested and the number of
    warnings it logged. *)

Module Scanner.
Import JsString BraceScan Json.

Record options := { checkExistence : bool; forceAll : bool }.

(** [parseImageTags(text)], with [options = {}] *)
Definition default_options : options :=
  {| checkExistence := false; forceAll := false |}.

(** What [fetch(path, { method: 'HEAD' })] does: it resolves to a
    response, whose [ok] is true for a 2xx status, or it rejects. *)
Inductive fetch_result :=
| Response (ok : bool)
| NetworkError.

Abbreviation network := (nat → list N → fetch_result) (only parsing).

(** index.js 589-596 *)
Definition checkFileExists (reply : fetch_result) : bool :=
  match reply with
  | Response ok => ok
  | NetworkError => false
  end.

Record tag := {
  fullMatch : text;
  index : nat;
  style : json;
  prompt : json;
  aspectRatio : json;
  imageSize : json;
  quality : json;
  isNewFormat : bool;
  existingSrc : option text
}.

Definition imgTagMarker : text := str "data-iig-instruction=".
Definition marker : text := str "[IMG:GEN:".

(** *** The pattern matched against the element to read its [src]

    [src], any white space, [=], any white space, at most one quote
    (double or single), then the captured run of one or more characters
    that are neither quotes, white space nor the closing angle bracket;
    letters match in either case (index.js 674). *)

(** The class of the captured run. *)
Definition src_char (c : char) : bool :=
  negb ((c =? dquote)%N || (c =? squote)%N || is_space c || (c =? gt_sign)%N).

(** A letter under the [i] flag: itself or its capital. *)
Definition letter_ci (lower c : char) : bool :=
  (c =? lower)%N || (c =? lower - 32)%N.

(** A match anchored at the head of [s]; the result is capture group 1.
    Every quantifier of the pattern is followed by a character outside
    its class, so there is one way to match and nothing to backtrack. *)
Definition src_match_here (s : text) : option text :=
  match s with
  | c1 :: c2 :: c3 :: s1 =>
      if letter_ci 115 c1 && letter_ci 114 c2 && letter_ci 99 c3 then
        match skip_space s1 with
        | e :: s2 =>
            if (e =? 61)%N then
              let s3 := skip_space s2 in
              let s4 := match s3 with
                        | q :: s' =>
                            if (q =? dquote)%N || (q =? squote)%N then s' else s3
                        | [] => s3
                        end in
              match take_while src_char s4 with
              | [] => None
              | v => Some v
              end
            else None
        | [] => None
        end
      else None
  | _ => None
  end.

(** [s.match(...)]: the leftmost match. *)
Fixpoint srcMatch (s : text) : option text :=
  match src_match_here s with
  | Some v => Some v
  | None => match s with
            | [] => None
            | _ :: s' => srcMatch s'
            end
  end.

(** *** The existence policy, index.js 677-704 *)

Definition hasMarker (srcValue : text) : bool :=
  includes (str "[IMG:GEN]") srcValue || includes (str "[IMG:") srcValue.

Definition hasErrorImage (srcValue : text) : bool :=
  includes (str "error.svg") srcValue.

(** [srcValue && srcValue.startsWith('/') && srcValue.length > 5] *)
Definition hasPath (srcValue : text) : bool :=
  match srcValue with
  | [] => false
  | _ :: _ => startsWith (str "/") srcValue && (5 <? length srcValue)
  end.

(** The value of [needsGeneration] when the code reaches line 701, or
    [false] where it has left the iteration before (both [continue]s set
    [searchPos = imgEnd], as line 702 does), and the paths probed. *)
Definition needsGeneration (net : network) (nprobes : nat) (opts : options)
           (srcValue : text) : bool * list (list N) :=
  if hasErrorImage srcValue && negb (forceAll opts) then (false, [])
  else if forceAll opts then (true, [])
  else if hasMarker srcValue || match srcValue with [] => true | _ => false end
  then (true, [])
  else if hasPath srcValue && checkExistence opts then
    (negb (checkFileExists (net nprobes srcValue)), [srcValue])
  else (false, []).

(** *** Payload normalisation and field extraction *)

(** index.js 707-712 *)
Definition normalize_markup (instructionJson : text) : text :=
  replaceAll (str "&amp;") (str "&")
    (replaceAll (str "&#34;") [dquote]
       (replaceAll (str "&#39;") [squote]
          (replaceAll (str "&apos;") [squote]
             (replaceAll (str "&quot;") [dquote] instructionJson)))).

(** index.js 792 *)
Definition normalize_legacy (jsonStr : text) : text :=
  replaceAll [squote] [dquote] jsonStr.

(** [data.key]; [None] is [undefined]. *)
Definition member (data : json) (key : string) : option json :=
  match data with
  | JObj members => get_member (str key) members
  | _ => None
  end.

(** [a || b] *)
Definition or_else (a : option json) (b : json) : json :=
  match a with
  | Some v => if truthy v then v else b
  | None => b
  end.

(** The object literal pushed at index.js 716-726 and 795-804.  Reading
    a property of [null] throws; the surrounding [try] catches it. *)
Definition make_tag (data : json) (fullMatch : text) (index : nat)
           (isNewFormat : bool) (existingSrc : option text) : option tag :=
  match data with
  | JNull => None
  | _ =>
      Some {| fullMatch := fullMatch;
              index := index;
              style := or_else (member data "style") (JStr []);
              prompt := or_else (member data "prompt") (JStr []);
              aspectRatio := or_else (member data "aspect_ratio")
                               (or_else (member data "aspectRatio") JNull);
              imageSize := or_else (member data "image_size")
                             (or_else (member data "imageSize") JNull);
              quality := or_else (member data "quality") JNull;
              isNewFormat := isNewFormat;
              existingSrc := existingSrc |}
  end.

(** The [try] block: [Some] is the tag pushed, [None] a logged warning. *)
Definition try_push (normalizedJson : text) (fullMatch : text) (index : nat)
           (isNewFormat : bool) (existingSrc : option text) : option tag :=
  match JSON_parse normalizedJson with
  | Some data => make_tag data fullMatch index isNewFormat existingSrc
  | None => None
  end.

(** *** One iteration of each [while (true)] loop *)

Inductive iteration :=
| Break
| Continue (searchPos : nat) (pushed : option tag)
           (probed : list (list N)) (warned : bool).

Definition skip_to (searchPos : nat) : iteration :=
  Continue searchPos None [] false.

(** index.js 609-732 *)
Definition markup_iter (net : network) (nprobes : nat) (t : text)
           (opts : options) (searchPos : nat) : iteration :=
  match indexOf imgTagMarker t searchPos with
  | None => Break
  | Some markerPos =>
      match lastIndexOf (str "<img") t markerPos with
      | None => skip_to (markerPos + 1)
      | Some imgStart =>
          if 500 <? markerPos - imgStart then skip_to (markerPos + 1)
          else
            let afterMarker := markerPos + length imgTagMarker in
            match indexOf [lbrace] t afterMarker with
            | None => skip_to (markerPos + 1)
            | Some jsonStart =>
                if afterMarker + 10 <? jsonStart then skip_to (markerPos + 1)
                else
                  match findJsonEnd t jsonStart with
                  | None => skip_to (markerPos + 1)
                  | Some jsonEnd =>
                      match indexOf [gt_sign] t jsonEnd with
                      | None => skip_to (markerPos + 1)
                      | Some gtPos =>
                          let imgEnd := gtPos + 1 in
                          let fullImgTag := substring t imgStart imgEnd in
                          let instructionJson := substring t jsonStart jsonEnd in
                          let srcValue := default [] (srcMatch fullImgTag) in
                          let '(needs, probed) :=
                            needsGeneration net nprobes opts srcValue in
                          if negb needs then Continue imgEnd None probed false
                          else
                            let pushed :=
                              try_push (normalize_markup instructionJson)
                                fullImgTag imgStart true
                                (if hasPath srcValue then Some srcValue else None) in
                            Continue imgEnd pushed probed
                              (match pushed with Some _ => false | None => true end)
                      end
                  end
            end
      end
  end.

(** index.js 738-810 *)
Definition legacy_iter (t : text) (searchStart : nat) : iteration :=
  match indexOf marker t searchStart with
  | None => Break
  | Some markerIndex =>
      let jsonStart := markerIndex + length marker in
      match findJsonEnd t jsonStart with
      | None => skip_to jsonStart
      | Some jsonEnd =>
          let jsonStr := substring t jsonStart jsonEnd in
          let afterJson := substring_from t jsonEnd in
          if negb (startsWith [rbracket] afterJson) then skip_to jsonEnd
          else
            let tagOnly := substring t markerIndex (jsonEnd + 1) in
            let pushed :=
              try_push (normalize_legacy jsonStr) tagOnly markerIndex false None in
            Continue (jsonEnd + 1) pushed []
              (match pushed with Some _ => false | None => true end)
      end
  end.

(** *** The loops and the scan *)

Record scan := { tags : list tag; probes : list (list N); warnings : nat }.

Definition record (acc : scan) (pushed : option tag)
           (probed : list (list N)) (warned : bool) : scan :=
  {| tags := tags acc ++ option_list pushed;
     probes := probes acc ++ probed;
     warnings := warnings acc + (if warned then 1 else 0) |}.

(** [None] only when the fuel runs out before the loop breaks. *)
Fixpoint markup_loop (fuel : nat) (net : network) (t : text) (opts : options)
         (searchPos : nat) (acc : scan) : option scan :=
  match fuel with
  | 0 => None
  | S fuel' =>
      match markup_iter net (length (probes acc)) t opts searchPos with
      | Break => Some acc
      | Continue searchPos' pushed probed warned =>
          markup_loop fuel' net t opts searchPos' (record acc pushed probed warned)
      end
  end.

Fixpoint legacy_loop (fuel : nat) (t : text) (searchStart : nat) (acc : scan)
  : option scan :=
  match fuel with
  | 0 => None
  | S fuel' =>
      match legacy_iter t searchStart with
      | Break => Some acc
      | Continue searchStart' pushed probed warned =>
          legacy_loop fuel' t searchStart' (record acc pushed probed warned)
      end
  end.

Definition parseImageTags_fuel (fuel : nat) (net : network) (t : text)
           (opts : options) : option scan :=
  match markup_loop fuel net t opts 0
          {| tags := []; probes := []; warnings := 0 |} with
  | Some acc => legacy_loop fuel t 0 acc
  | None => None
  end.

(** Each iteration moves its search position forward and finds its
    marker before the end of the text, so one more round than the text
    has characters is enough for each loop. *)
Definition parseImageTags (net : network) (t : text) (opts : options)
  : option scan :=
  parseImageTags_fuel (S (length t)) net t opts.

End Scanner.

(** ** The two copies of the source

    [src/index.js] and [src/unnamed/part_000] are near-duplicates.  The
    scanner and the reconciliation are the same in both; the retry
    classification and the handling of a Gemini response differ, and the
    embedding of those takes the copy as a parameter. *)

Inductive copy := IndexJs | Part000.

(** ** The retry loop, [generateImageWithRetry]

    index.js 516-584, part_000 543-597.  The call to the backend that the
    settings select ([generateImageGemini] or [generateImageOpenAI], with
    the reference images collected before the loop) is an oracle that
    gives the outcome of each attempt.  The status lines passed to the
    callback are kept as the numbers they are built from. [maxRetries] and
    [retryDelay] are integer settings. *)

Module Retry.
Import JsString.

Record settings := {
  endpoint : text;
  apiKey : text;
  model : text;
  maxRetries : Z;
  retryDelay : Z
}.

Inductive missing := MissingEndpoint | MissingApiKey | MissingModel.

(** [validateSettings]: the fields it would name in the error it throws. *)
Definition validateSettings (s : settings) : list missing :=
  (match endpoint s with [] => [MissingEndpoint] | _ => [] end)
  ++ (match apiKey s with [] => [MissingApiKey] | _ => [] end)
  ++ (match model s with [] => [MissingModel] | _ => [] end).

(** What one call to the backend does: it returns a data URL (or a remote
    URL), or throws an error with this message. *)
Inductive outcome :=
| Returned (dataUrl : text)
| Threw (message : text).

(** The test on [error.message] at index.js 566-571 and part_000 581-584. *)
Definition isRetryable (c : copy) (message : text) : bool :=
  match c with
  | IndexJs =>
      includes (str "429") message || includes (str "503") message
      || includes (str "502") message || includes (str "504") message
      || includes (str "timeout") message || includes (str "network") message
  | Part000 =>
      includes (str "429") message || includes (str "503") message
      || includes (str "502") message || includes (str "network") message
  end.

Inductive event :=
| StatusGenerating (attempt : nat) (maxRetries : Z)
| CallBackend (attempt : nat)
| StatusRetryIn (delay : Z)
| Sleep (delay : Z).

Inductive error :=
| ConfigurationError (fields : list missing)
| Failure (message : text).

(** [Throw None] is [throw lastError] with [lastError] never assigned. *)
Inductive result :=
| Return (dataUrl : text)
| Throw (lastError : option error).

(** The [for] loop: [remaining] counts the values of [attempt] from the
    current one up to [maxRetries]. *)
Fixpoint retry_loop (c : copy) (call : nat → outcome) (maxRetries baseDelay : Z)
         (remaining attempt : nat) (lastError : option error)
  : list event * result :=
  match remaining with
  | 0 => ([], Throw lastError)
  | S remaining' =>
      let started := [StatusGenerating attempt maxRetries; CallBackend attempt] in
      match call attempt with
      | Returned dataUrl => (started, Return dataUrl)
      | Threw message =>
          if negb (isRetryable c message) || (Z.of_nat attempt =? maxRetries)%Z
          then (started, Throw (Some (Failure message)))
          else
            let delay := (baseDelay * 2 ^ Z.of_nat attempt)%Z in
            let '(events, res) :=
              retry_loop c call maxRetries baseDelay remaining' (S attempt)
                (Some (Failure message)) in
            (started ++ [StatusRetryIn delay; Sleep delay] ++ events, res)
      end
  end.

Definition generateImageWithRetry (c : copy) (s : settings) (call : nat → outcome)
  : list event * result :=
  match validateSettings s with
  | [] =>
      retry_loop c call (maxRetries s) (retryDelay s)
        (Z.to_nat (maxRetries s + 1)) 0 None
  | fields => ([], Throw (Some (ConfigurationError fields)))
  end.

(** The message of the error thrown on a response that is not ok,
    index.js 348-351 and 454-457. *)
Definition api_error_message (status : nat) (body : text) : text :=
  str "API Error (" ++ str (pretty status) ++ str "): " ++ body.

End Retry.

(** ** The response of a Gemini-style backend, [generateImageGemini]

    index.js 454-480, part_000 480-538: what the function does once the
    request is answered.  The body of a response that is ok has the shape
    of the protocol; a part carries inline data under one of two names, or
    text.  Downloading the image behind a link ([imageUrlToBase64]) is an
    oracle; its [None] is the [null] it returns when the request fails. *)

Module Gemini.
Import JsString.

Record inline := { mimeType : text; data : text }.

Record part := {
  inlineData : option inline;
  inline_data : option inline;
  part_text : option text
}.

Record candidate := {
  parts : option (list part);
  finishReason : option text
}.

Record response := {
  candidates : option (list candidate);
  blockReason : option text
}.

(** The answer to the request: [response.ok], [response.status], and the
    body as [response.text()] and [response.json()] give it. *)
Record http_response := {
  ok : bool;
  status : nat;
  body_text : text;
  body : response
}.

Inductive gemini_error :=
| ApiError (status : nat) (body_text : text)
| NoCandidates
| NoImageFound
| PromptBlocked (reason : text)
| EmptyResponse
| Refused (reason excerpt : text)
| TextWithoutImage (excerpt : text)
| NoImageNoText.

Inductive result :=
| Return (dataUrl : text)
| Throw (e : gemini_error).

(** The messages, as code units; the Cyrillic ones of part_000 read
    Blokirovka prompta (Safety), Pustoi otvet ot modeli, Otkaz generatsii,
    Model otvetila tekstom bez kartinki, V otvete net ni kartinki ni
    teksta. *)
Definition blocked_prefix : text :=
  [1041%N; 1083%N; 1086%N; 1082%N; 1080%N; 1088%N; 1086%N; 1074%N; 1082%N;
   1072%N; 32%N; 1087%N; 1088%N; 1086%N; 1084%N; 1087%N; 1090%N; 1072%N;
   32%N; 40%N; 83%N; 97%N; 102%N; 101%N; 116%N; 121%N; 41%N; 58%N; 32%N].

Definition empty_response : text :=
  [1055%N; 1091%N; 1089%N; 1090%N; 1086%N; 1081%N; 32%N; 1086%N; 1090%N;
   1074%N; 1077%N; 1090%N; 32%N; 1086%N; 1090%N; 32%N; 1084%N; 1086%N;
   1076%N; 1077%N; 1083%N; 1080%N; 46%N].

Definition refused_prefix : text :=
  [1054%N; 1090%N; 1082%N; 1072%N; 1079%N; 32%N; 1075%N; 1077%N; 1085%N;
   1077%N; 1088%N; 1072%N; 1094%N; 1080%N; 1080%N; 32%N; 40%N].

Definition text_only_prefix : text :=
  [1052%N; 1086%N; 1076%N; 1077%N; 1083%N; 1100%N; 32%N; 1086%N; 1090%N;
   1074%N; 1077%N; 1090%N; 1080%N; 1083%N; 1072%N; 32%N; 1090%N; 1077%N;
   1082%N; 1089%N; 1090%N; 1086%N; 1084%N; 32%N; 1073%N; 1077%N; 1079%N;
   32%N; 1082%N; 1072%N; 1088%N; 1090%N; 1080%N; 1085%N; 1082%N; 1080%N;
   58%N; 32%N; 34%N].

Definition no_image_no_text : text :=
  [1042%N; 32%N; 1086%N; 1090%N; 1074%N; 1077%N; 1090%N; 1077%N; 32%N;
   1085%N; 1077%N; 1090%N; 32%N; 1085%N; 1080%N; 32%N; 1082%N; 1072%N;
   1088%N; 1090%N; 1080%N; 1085%N; 1082%N; 1080%N; 44%N; 32%N; 1085%N;
   1080%N; 32%N; 1090%N; 1077%N; 1082%N; 1089%N; 1090%N; 1072%N; 46%N].

(** [error.message] *)
Definition message (e : gemini_error) : text :=
  match e with
  | ApiError status body_text => Retry.api_error_message status body_text
  | NoCandidates => str "No candidates in response"
  | NoImageFound => str "No image found in Gemini response"
  | PromptBlocked reason => blocked_prefix ++ reason
  | EmptyResponse => empty_response
  | Refused reason excerpt =>
      refused_prefix ++ reason ++ str "): " ++ [dquote] ++ excerpt
      ++ str "..." ++ [dquote]
  | TextWithoutImage excerpt => text_only_prefix ++ excerpt ++ str "..." ++ [dquote]
  | NoImageNoText => no_image_no_text
  end.

Definition data_url (i : inline) : text :=
  str "data:" ++ mimeType i ++ str ";base64," ++ data i.

(** The [for] loop over the parts, which returns at the first inline
    image under either name. *)
Fixpoint first_inline (ps : list part) : option text :=
  match ps with
  | [] => None
  | p :: ps' =>
      match inlineData p with
      | Some i => Some (data_url i)
      | None =>
          match inline_data p with
          | Some i => Some (data_url i)
          | None => first_inline ps'
          end
      end
  end.

(** [responseParts.find(p => p.text)]: the first part whose text is a
    non-empty string. *)
Fixpoint find_text (ps : list part) : option text :=
  match ps with
  | [] => None
  | p :: ps' =>
      match part_text p with
      | Some (c :: s) => Some (c :: s)
      | _ => find_text ps'
      end
  end.

(** The dot of a pattern matches anything but a line terminator. *)
Definition is_line_terminator (c : char) : bool :=
  (c =? 10)%N || (c =? 13)%N || (c =? 8232)%N || (c =? 8233)%N.

(** A lazy run of dots up to the first [pat] on the line: the run, and
    what follows [pat]. *)
Fixpoint until_on_line (pat s : text) : option (text * text) :=
  if startsWith pat s then Some ([], drop (length pat) s)
  else match s with
       | [] => None
       | c :: s' =>
           if is_line_terminator c then None
           else match until_on_line pat s' with
                | Some (run, rest) => Some (c :: run, rest)
                | None => None
                end
       end.

(** The markdown image pattern of part_000 512, anchored at the head of
    [s]: an exclamation mark, a bracketed lazy run, a parenthesised lazy
    run, which is the capture.  If no closing parenthesis follows the
    first bracket close on the line, none follows a later one either. *)
Definition markdown_here (s : text) : option text :=
  if startsWith (str "![") s then
    match until_on_line (str "](") (drop 2 s) with
    | Some (_, rest) =>
        match until_on_line (str ")") rest with
        | Some (url, _) => Some url
        | None => None
        end
    | None => None
    end
  else None.

Fixpoint markdown_image (s : text) : option text :=
  match markdown_here s with
  | Some url => Some url
  | None => match s with
            | [] => None
            | _ :: s' => markdown_image s'
            end
  end.

Definition url_char (c : char) : bool := negb (is_space c || (c =? 41)%N).

(** The bare URL pattern of part_000 512, anchored: [http], an optional
    [s], [://], then one or more characters that are neither white space
    nor a closing parenthesis.  The capture is the whole match. *)
Definition url_here (s : text) : option text :=
  if startsWith (str "http") s then
    let after := drop 4 s in
    let '(scheme, after') :=
      match after with
      | c :: r => if (c =? 115)%N then (str "https", r) else (str "http", after)
      | [] => (str "http", after)
      end in
    if startsWith (str "://") after' then
      match take_while url_char (drop 3 after') with
      | [] => None
      | run => Some (scheme ++ str "://" ++ run)
      end
    else None
  else None.

Fixpoint bare_url (s : text) : option text :=
  match url_here s with
  | Some url => Some url
  | None => match s with
            | [] => None
            | _ :: s' => bare_url s'
            end
  end.

(** [text.match(markdown) || text.match(url)], then [imgMatch[1]] *)
Definition image_link (s : text) : option text :=
  match markdown_image s with
  | Some url => Some url
  | None => bare_url s
  end.

(** From [const result = await response.json()] on. *)
Definition handle_result (c : copy) (download : list N → option (list N))
           (r : response) : result :=
  match default [] (candidates r) with
  | [] =>
      match c with
      | IndexJs => Throw NoCandidates
      | Part000 =>
          match blockReason r with
          | Some (x :: reason) => Throw (PromptBlocked (x :: reason))
          | _ => Throw EmptyResponse
          end
      end
  | first :: _ =>
      let responseParts := default [] (parts first) in
      match first_inline responseParts with
      | Some dataUrl => Return dataUrl
      | None =>
          match c with
          | IndexJs => Throw NoImageFound
          | Part000 =>
              match find_text responseParts with
              | Some txt =>
                  match image_link txt with
                  | Some imgUrl =>
                      match download imgUrl with
                      | Some (b :: base64) =>
                          Return (str "data:image/jpeg;base64," ++ b :: base64)
                      | _ => Return imgUrl
                      end
                  | None =>
                      match finishReason first with
                      | Some (x :: reason) =>
                          if text_eqb (x :: reason) (str "STOP")
                          then Throw (TextWithoutImage (substring txt 0 100))
                          else Throw (Refused (x :: reason) (substring txt 0 100))
                      | _ => Throw (TextWithoutImage (substring txt 0 100))
                      end
                  end
              | None => Throw NoImageNoText
              end
          end
      end
  end.

Definition generateImageGemini (c : copy) (download : list N → option (list N))
           (resp : http_response) : result :=
  if ok resp then handle_result c download (body resp)
  else Throw (ApiError (status resp) (body_text resp)).

End Gemini.

(** ** Reconciliation: [processMessageTags] and [regenerateMessageImages]

    index.js 856-1101, part_000 824-1036.  The host is single-threaded:
    the code between two suspension points runs as one step.  What the
    functions do to the rendered page, to the message text and to the
    chat store is kept as a trace of effects, without the console output
    and the log; the gate is the set [processingMessages].  The outcome of
    generating and saving the image of a tag, and what the page holds, are
    oracles. *)

Module Reconcile.
Import JsString Scanner.

Record message := { mes : text; is_user : bool }.

(** [document.querySelector] on the message, then on its [.mes_text]. *)
Inductive rendering := NotRendered | NoMesText | Rendered.

Record host := {
  enabled : bool;
  processingMessages : gset nat;
  chat : list message;
  rendered : nat → rendering
}.

Definition with_gate (h : host) (gate : gset nat) : host :=
  {| enabled := enabled h; processingMessages := gate;
     chat := chat h; rendered := rendered h |}.

(** What [generateImageWithRetry] does for a tag: it returns a string, a
    data URL or a remote URL; or it returns a value that is not a
    string, [undefined] when the first item of an OpenAI-style answer
    has neither [b64_json] nor [url] (index.js 362-370); or it throws an
    error with a message; or it throws [lastError] never assigned,
    [undefined], when [maxRetries] is negative (index.js 549-583). *)
Inductive generated :=
| Generated (dataUrl : text)
| GeneratedNoString
| GenerationFailed (message : text)
| GenerationThrewUndefined.

Record world := {
  net : nat → list N → fetch_result;
  (** [generateImageWithRetry] for the tag of this index *)
  generate : nat → tag → generated;
  (** [saveImageToFile]: the path, or [None] when it throws *)
  saveImageToFile : list N → option (list N);
  (** forced path: whether the page still holds an instruction image when
      the tag of this index is reached *)
  existingImg : nat → bool
}.

Inductive toast := Info | Success | Warning | Error.

Inductive effect :=
| Head (path : text)
| Toast (kind : toast)
| DomInnerHtml (index : nat)
| DomLoading (index : nat)
| Generating (index : nat)
| SaveImage (index : nat)
| DomImage (index : nat)
| DomError (index : nat)
| MesRewrite (index : nat) (imagePath : option text)
| SaveChat.

(** The effects that change the rendered page or the message text. *)
Definition is_mutation (e : effect) : bool :=
  match e with
  | DomInnerHtml _ | DomLoading _ | DomImage _ | DomError _ | MesRewrite _ _ => true
  | _ => false
  end.

Definition is_save (e : effect) : bool :=
  match e with
  | SaveChat | SaveImage _ => true
  | _ => false
  end.

Definition normal_mode : options := {| checkExistence := true; forceAll := false |}.
Definition forced_mode : options := {| checkExistence := false; forceAll := true |}.

(** *** The receive path *)

(** The start of [processTag], up to its first suspension: the loading
    placeholder goes into the page (index.js 884-969).  For a tag of the
    markup family [tag.prompt.substring(0, 30)] is evaluated first
    (index.js 892, part_000 857); the prompt is the value of the payload,
    or the empty string, and when it is not a string the call throws
    before anything is put into the page: [None]. *)
Definition processTag_start (index : nat) (tg : tag) : option (list effect) :=
  if isNewFormat tg then
    match prompt tg with
    | Json.JStr _ => Some [DomLoading index; Generating index]
    | _ => None
    end
  else Some [DomInnerHtml index; DomLoading index; Generating index].

(** Whether the copy saves this result to a file: part_000 uses a remote
    URL as it is (907-913); index.js saves every result (972). *)
Definition saves (c : copy) (dataUrl : text) : bool :=
  match c with
  | IndexJs => true
  | Part000 => negb (startsWith (str "http") dataUrl)
  end.

Definition on_failure (index : nat) : list effect :=
  [DomError index; MesRewrite index None; Toast Error].

(** The rest of [processTag], once the generation has settled, and
    whether its promise is fulfilled.  A value that is not a string
    makes [saveImageToFile] throw in index.js (202-209) and the test of
    part_000 907-908 throw before it; both are caught as failures.  When
    what is caught is [undefined], reading [error.message] in the
    [catch] block (index.js 999, part_000 940) throws: nothing more is
    done and [processTag] rejects. *)
Definition processTag_settle (c : copy) (w : world) (index : nat) (tg : tag)
  : list effect * bool :=
  match generate w index tg with
  | Generated dataUrl =>
      (if saves c dataUrl then
         match saveImageToFile w dataUrl with
         | Some imagePath =>
             [SaveImage index; DomImage index;
              MesRewrite index (Some imagePath); Toast Success]
         | None => SaveImage index :: on_failure index
         end
       else [DomImage index; MesRewrite index (Some dataUrl); Toast Success],
       true)
  | GeneratedNoString =>
      (match c with
       | IndexJs => SaveImage index :: on_failure index
       | Part000 => on_failure index
       end, true)
  | GenerationFailed _ => (on_failure index, true)
  | GenerationThrewUndefined => ([], false)
  end.

(** [processTag] for one tag: what it does before its first suspension,
    what it does once the generation has settled, and whether its
    promise is fulfilled. *)
Definition processTag (c : copy) (w : world) (index : nat) (tg : tag)
  : list effect * list effect * bool :=
  match processTag_start index tg with
  | None => ([], [], false)
  | Some started =>
      let '(settled, fulfilled) := processTag_settle c w index tg in
      (started, settled, fulfilled)
  end.

(** The part of [processMessageTags] before its first suspension, the
    [await] of the scan: [None] when it returns at once, or the text to
    scan (index.js 857-869). *)
Definition processMessageTags_enter (h : host) (messageId : nat) : option text :=
  if negb (enabled h) then None
  else if decide (messageId ∈ processingMessages h) then None
  else match chat h !! messageId with
       | None => None
       | Some m => if is_user m then None else Some (mes m)
       end.

(** The part after the scan, from the host as it is then (index.js
    870-1020).  All [processTag] start in order, then settle; the order in
    which they settle is taken to be that of the tags.  When one of them
    rejects, [Promise.all] rejects: the [finally] takes the message out
    of the gate and [saveChat] is not reached, while the others go on as
    they would. *)
Definition processMessageTags_resume (c : copy) (w : world) (h : host)
           (messageId : nat) (tags : list tag) : gset nat * list effect :=
  match tags with
  | [] => (processingMessages h, [])
  | _ :: _ =>
      let gate := {[messageId]} ∪ processingMessages h in
      match rendered h messageId with
      | NotRendered =>
          (gate, Toast Info :: match c with IndexJs => [] | Part000 => [Toast Error] end)
      | NoMesText => (gate, [Toast Info])
      | Rendered =>
          let runs := imap (processTag c w) tags in
          (gate ∖ {[messageId]},
           Toast Info
           :: concat (map (λ run, run.1.1) runs)
           ++ concat (map (λ run, run.1.2) runs)
           ++ (if forallb snd runs then [SaveChat] else []))
      end
  end.

(** [processMessageTags] run from start to end with no other step in
    between; [None] only if the scan ran out of rounds. *)
Definition processMessageTags (c : copy) (w : world) (h : host) (messageId : nat)
  : option (gset nat * list effect) :=
  match processMessageTags_enter h messageId with
  | None => Some (processingMessages h, [])
  | Some body =>
      match parseImageTags (net w) body normal_mode with
      | Some sc =>
          let '(gate, effects) :=
            processMessageTags_resume c w h messageId (tags sc) in
          Some (gate, map Head (probes sc) ++ effects)
      | None => None
      end
  end.

(** *** The forced path *)

(** What a round of the [for] loop of [regenerateMessageImages] does
    once the generation has settled (index.js 1079-1097).  Every failure
    with a message is caught and shown. *)
Definition regenerate_settle (c : copy) (w : world) (index : nat)
           (outcome : generated) : list effect :=
  match outcome with
  | Generated dataUrl =>
      if saves c dataUrl then
        match saveImageToFile w dataUrl with
        | Some imagePath =>
            [SaveImage index; DomImage index;
             MesRewrite index (Some imagePath); Toast Success]
        | None => [SaveImage index; Toast Error]
        end
      else [DomImage index; MesRewrite index (Some dataUrl); Toast Success]
  | GeneratedNoString =>
      match c with
      | IndexJs => [SaveImage index; Toast Error]
      | Part000 => [Toast Error]
      end
  | GenerationFailed _ => [Toast Error]
  | GenerationThrewUndefined => []
  end.

(** The [for] loop of [regenerateMessageImages] when the page has a text
    element (index.js 1057-1097), from the tag of this index on, and
    whether it runs to its end.  When what is caught is [undefined],
    reading [error.message] in the [catch] block (index.js 1095) throws
    and the function is left there. *)
Fixpoint regenerate_loop (c : copy) (w : world) (index : nat) (tags : list tag)
  : list effect * bool :=
  match tags with
  | [] => ([], true)
  | tg :: tags' =>
      if existingImg w index then
        let started := [DomLoading index; Generating index] in
        match generate w index tg with
        | GenerationThrewUndefined => (started, false)
        | outcome =>
            let '(effects, completed) := regenerate_loop c w (S index) tags' in
            (started ++ regenerate_settle c w index outcome ++ effects, completed)
        end
      else regenerate_loop c w (S index) tags'
  end.

(** [regenerateMessageImages], run from start to end.  It never reads the
    gate; it adds the message to it and removes it at the end, with no
    [finally]: when the loop is left by an exception the message stays in
    the gate and the chat is not saved. *)
Definition regenerateMessageImages (c : copy) (w : world) (h : host)
           (messageId : nat) : option (gset nat * list effect) :=
  match chat h !! messageId with
  | None =>
      Some (processingMessages h,
            match c with IndexJs => [Toast Error] | Part000 => [] end)
  | Some m =>
      match parseImageTags (net w) (mes m) forced_mode with
      | None => None
      | Some sc =>
          match tags sc with
          | [] => Some (processingMessages h, [Toast Warning])
          | _ :: _ =>
              let gate := ({[messageId]} ∪ processingMessages h) ∖ {[messageId]} in
              match rendered h messageId, c with
              | NotRendered, _ | NoMesText, IndexJs => Some (gate, [Toast Info])
              | NoMesText, Part000 =>
                  Some (gate,
                        Toast Info :: map (λ _, Toast Error) (tags sc) ++ [SaveChat])
              | Rendered, _ =>
                  let '(effects, completed) := regenerate_loop c w 0 (tags sc) in
                  Some (if completed then gate
                        else {[messageId]} ∪ processingMessages h,
                        Toast Info :: effects
                        ++ (if completed then [SaveChat] else []))
              end
          end
      end
  end.

End Reconcile.

(** ** Arrays of strings *)

Module JsArray.

(** [parts.join(sep)] *)
Fixpoint join (sep : text) (parts : list text) : text :=
  match parts with
  | [] => []
  | [p] => p
  | p :: ps => p ++ sep ++ join sep ps
  end.

(** [s.split(sep)] for a separator of one character: the stretches
    between its occurrences, at least one. *)
Fixpoint split (sep : char) (s : text) : list text :=
  match s with
  | [] => [[]]
  | c :: s' =>
      if (c =? sep)%N then [] :: split sep s'
      else match split sep s' with
           | first :: others => (c :: first) :: others
           | [] => [[c]]
           end
  end.

End JsArray.

(** ** The log buffer, [iigLog]

    index.js 12-33, part_000 13-34.  The buffer is the module-level array
    [logBuffer]; a call appends its line and drops the oldest line when
    there are more than [MAX_LOG_ENTRIES].  The arguments are taken as the
    strings that [String] or [JSON.stringify] made of them, the time stamp
    as the string the clock gave. *)

Module Log.
Import JsString JsArray.

Definition MAX_LOG_ENTRIES : nat := 200.

Record call := { timestamp : text; level : text; args : list text }.

(** The line kept for a call. *)
Definition entry (c : call) : text :=
  str "[" ++ timestamp c ++ str "] [" ++ level c ++ str "] "
  ++ join (str " ") (args c).

Inductive console := ConsoleError | ConsoleWarn | ConsoleLog.

(** The buffer after the call, and the console method it used. *)
Definition iigLog (logBuffer : list text) (c : call) : list text * console :=
  let pushed := logBuffer ++ [entry c] in
  (if MAX_LOG_ENTRIES <? length pushed then drop 1 pushed else pushed,
   if text_eqb (level c) (str "ERROR") then ConsoleError
   else if text_eqb (level c) (str "WARN") then ConsoleWarn
   else ConsoleLog).

(** A run of calls from a buffer. *)
Definition log_all (logBuffer : list text) (calls : list call) : list text :=
  foldl (λ buffer c, (iigLog buffer c).1) logBuffer calls.

(** The text that [exportLogs] writes to the file (index.js 36). *)
Definition exportLogs (logBuffer : list text) : text := join [10%N] logBuffer.

End Log.

(** ** The settings object, [getSettings]

    index.js 47-64 and 118-133, part_000 48-65 and 124-139.  The host
    keeps one settings object for each extension under the name of the
    extension, and saves them as JSON: an object is a finite map from
    property names to JSON values.  [getSettings] returns the object of
    this extension, which it first creates from the defaults if there is
    none and then completes with every default it lacks; the object it
    returns is the one in the store. *)

Module Settings.
Import Json.

Definition MODULE_NAME : string := "inline_image_gen".

Abbreviation object := (gmap string json) (only parsing).

Definition defaultSettings (c : copy) : list (string * json) :=
  [("enabled", JBool true);
   ("apiType", JStr (str match c with IndexJs => "openai" | Part000 => "gemini" end));
   ("endpoint", JStr []);
   ("apiKey", JStr []);
   ("model", JStr []);
   ("size", JStr (str "1024x1024"));
   ("quality", JStr (str "standard"));
   ("maxRetries", JNum false 0 0);
   ("retryDelay", JNum false 1000 0);
   ("sendCharAvatar", JBool false);
   ("sendUserAvatar", JBool false);
   ("userAvatarFile", JStr []);
   ("aspectRatio", JStr (str "1:1"));
   ("imageSize", JStr (str "1K"))].

(** [structuredClone(defaultSettings)] *)
Definition clone_defaults (c : copy) : gmap string json :=
  list_to_map (defaultSettings c).

(** One round of the loop over [Object.keys(defaultSettings)]. *)
Definition ensure_key (own : gmap string json) (kv : string * json)
  : gmap string json :=
  match own !! kv.1 with
  | Some _ => own
  | None => <[kv.1 := kv.2]> own
  end.

(** The store after the call, and the object returned. *)
Definition getSettings (c : copy) (extensionSettings : gmap string (gmap string json))
  : gmap string (gmap string json) * gmap string json :=
  let own :=
    match extensionSettings !! MODULE_NAME with
    | Some own => own
    | None => clone_defaults c
    end in
  let settings := foldl ensure_key own (defaultSettings c) in
  (<[MODULE_NAME := settings]> extensionSettings, settings).

End Settings.

(** ** The number fields of the settings panel

    index.js 1478-1487: the handlers of the two retry fields store
    [parseInt(e.target.value) || 3] and [parseInt(e.target.value) || 1000].
    [parseInt] is that of the host language, called without a radix.  It
    reads an integer from the digits and returns the Number that the
    host makes of it: the integer itself when a double holds it, else a
    double near it, or an infinity.  That last step is left to the host
    (it may approximate an integer of more than twenty digits), and is a
    parameter here. [None] is [NaN]. *)

Module Inputs.
Import JsString.

(** A Number that is not [NaN] and has no fraction: the integer that the
    double holds, or an infinity. *)
Inductive number :=
| Finite (z : Z)
| Infinite (negative : bool).

(** The value of a digit in the given radix. *)
Definition digit_in (radix : N) (c : char) : option N :=
  let v := if (48 <=? c)%N && (c <=? 57)%N then Some (c - 48)%N
           else if (97 <=? c)%N && (c <=? 122)%N then Some (c - 87)%N
           else if (65 <=? c)%N && (c <=? 90)%N then Some (c - 55)%N
           else None in
  match v with
  | Some d => if (d <? radix)%N then Some d else None
  | None => None
  end.

(** The longest run of digits at the head: its value and its length. *)
Fixpoint digits (radix : N) (s : text) (acc : N) (n : nat) : N * nat :=
  match s with
  | c :: s' =>
      match digit_in radix c with
      | Some d => digits radix s' (acc * radix + d)%N (S n)
      | None => (acc, n)
      end
  | [] => (acc, n)
  end.

Section WithNumbers.
(** The Number for an integer read from digits. *)
Variable to_number : Z → number.

(** [parseInt(s)]: leading white space is skipped, then a sign, then a
    hexadecimal prefix, then the digits up to the first character that is
    not one. *)
Definition parseInt (s : text) : option number :=
  let s1 := skip_space s in
  let '(negative, s2) :=
    match s1 with
    | c :: r => if (c =? 45)%N then (true, r)
                else if (c =? 43)%N then (false, r)
                else (false, s1)
    | [] => (false, s1)
    end in
  let '(radix, s3) :=
    match s2 with
    | a :: b :: r =>
        if (a =? 48)%N && ((b =? 120)%N || (b =? 88)%N) then (16%N, r)
        else (10%N, s2)
    | _ => (10%N, s2)
    end in
  let '(v, n) := digits radix s3 0%N 0 in
  match n with
  | 0 => None
  | S _ => Some (to_number (if negative then (- Z.of_N v)%Z else Z.of_N v))
  end.

(** [parseInt(value) || fallback]: the fallback replaces [NaN] and
    zero. *)
Definition parseInt_or (fallback : Z) (value : text) : number :=
  match parseInt value with
  | Some (Finite z) => if (z =? 0)%Z then Finite fallback else Finite z
  | Some (Infinite negative) => Infinite negative
  | None => Finite fallback
  end.

(** What the handlers store in [settings.maxRetries] and in
    [settings.retryDelay]. *)
Definition maxRetries_input (value : text) : number := parseInt_or 3 value.
Definition retryDelay_input (value : text) : number := parseInt_or 1000 value.

End WithNumbers.

End Inputs.

(** ** Model names, [isImageModel] and [isGeminiModel]

    index.js 66-113, part_000 84-119.  Both lower the case of the name
    with the host's [toLowerCase], which follows the Unicode tables; the
    embedding takes it as given. *)

Module Models.
Import JsString.

Definition IMAGE_MODEL_KEYWORDS : list text :=
  map str
    ["dall-e"; "midjourney"; "mj"; "journey"; "stable-diffusion"; "sdxl";
     "flux"; "imagen"; "drawing"; "paint"; "image"; "seedream"; "hidream";
     "dreamshaper"; "ideogram"; "nano-banana"; "gpt-image"; "wanx"; "qwen"].

Definition VIDEO_MODEL_KEYWORDS : list text :=
  map str
    ["sora"; "kling"; "jimeng"; "veo"; "pika"; "runway"; "luma"; "video";
     "gen-3"; "minimax"; "cogvideo"; "mochi"; "seedance"; "vidu"; "wan-ai";
     "hunyuan"; "hailuo"].

(** The loop over the keywords, which returns at the first one that the
    name includes. *)
Fixpoint includes_any (keywords : list text) (mid : text) : bool :=
  match keywords with
  | [] => false
  | kw :: keywords' => if includes kw mid then true else includes_any keywords' mid
  end.

(** [toLowerCase] on the letters of the Latin alphabet; on a name made of
    ASCII characters it is the host's. *)
Definition toLowerCase_ascii (s : text) : text :=
  map (λ c, if (65 <=? c)%N && (c <=? 90)%N then (c + 32)%N else c) s.

Section WithCase.
Variable toLowerCase : text → text.

(** Only index.js returns at once for an empty name. *)
Definition isImageModel (c : copy) (modelId : text) : bool :=
  match c, modelId with
  | IndexJs, [] => false
  | _, _ =>
      let mid := toLowerCase modelId in
      if includes_any VIDEO_MODEL_KEYWORDS mid then false
      else if includes (str "vision") mid && includes (str "preview") mid then false
      else includes_any IMAGE_MODEL_KEYWORDS mid
  end.

Definition isGeminiModel (c : copy) (modelId : text) : bool :=
  match c with
  | IndexJs =>
      match modelId with
      | [] => false
      | _ => includes (str "nano-banana") (toLowerCase modelId)
      end
  | Part000 =>
      includes (str "nano-banana") (toLowerCase modelId)
      || includes (str "gemini") (toLowerCase modelId)
  end.

End WithCase.

End Models.

(** ** The requests to the backends

    What [generateImageWithRetry] collects before its loop and what
    [generateImageOpenAI] and [generateImageGemini] send: index.js 310-346,
    381-452 and 524-560; part_000 348-385, 411-478 and 549-577.  The
    string settings are strings; the options are the fields of a tag, JSON
    values of any kind; the prompt and the style are strings.  Fetching an
    avatar is an oracle that gives its base64 text, [None] for [null].
    The settings are one live object that the handlers of the panel
    write; what a function reads after an [await] may differ from what it
    read before, so each reading takes the settings as they are then. *)

Module Backend.
Import JsString Json Models.

Record settings := {
  apiType : text;
  endpoint : text;
  apiKey : text;
  model : text;
  size : text;
  quality : text;
  sendCharAvatar : bool;
  sendUserAvatar : bool;
  userAvatarFile : text;
  aspectRatio : text;
  imageSize : text
}.

(** [{ aspectRatio: tag.aspectRatio, imageSize: tag.imageSize,
       quality: tag.quality }] *)
Record tag_options := {
  opt_aspectRatio : json;
  opt_imageSize : json;
  opt_quality : json
}.

(** [s.replace(/\/$/, '')]: a slash at the very end is removed. *)
Fixpoint strip_slash (s : text) : text :=
  match s with
  | [] => []
  | [c] => if (c =? slash)%N then [] else [c]
  | c :: s' => c :: strip_slash s'
  end.

(** [style ? `[Style: ${style}] ${prompt}` : prompt] *)
Definition with_style (style prompt : text) : text :=
  match style with
  | [] => prompt
  | _ :: _ => str "[Style: " ++ style ++ str "] " ++ prompt
  end.

(** [a || b] for a JSON value and a string setting *)
Definition or_setting (a : json) (b : text) : json :=
  if truthy a then a else JStr b.

(** *** The OpenAI-style request *)

Definition openai_url (c : copy) (endpoint : text) : text :=
  match c with
  | IndexJs => strip_slash endpoint ++ str "/v1/images/generations"
  | Part000 =>
      if includes (str "/images/generations") endpoint then endpoint
      else strip_slash endpoint ++ str "/v1/images/generations"
  end.

Definition openai_size (s : settings) (o : tag_options) : text :=
  if truthy (opt_aspectRatio o) then
    match opt_aspectRatio o with
    | JStr r =>
        if text_eqb r (str "16:9") then str "1792x1024"
        else if text_eqb r (str "9:16") then str "1024x1792"
        else if text_eqb r (str "1:1") then str "1024x1024"
        else size s
    | _ => size s
    end
  else size s.

Record openai_request := {
  o_url : text;
  o_authorization : text;
  o_model : text;
  o_prompt : text;
  o_n : nat;
  o_size : text;
  o_quality : json;
  o_response_format : text;
  o_image : option text
}.

Definition generateImageOpenAI (c : copy) (s : settings) (prompt style : text)
           (referenceImages : list text) (o : tag_options) : openai_request :=
  {| o_url := openai_url c (endpoint s);
     o_authorization := str "Bearer " ++ apiKey s;
     o_model := model s;
     o_prompt := with_style style prompt;
     o_n := 1;
     o_size := openai_size s o;
     o_quality := or_setting (opt_quality o) (quality s);
     o_response_format := str "b64_json";
     o_image := match referenceImages with
                | first :: _ => Some (str "data:image/png;base64," ++ first)
                | [] => None
                end |}.

(** *** The Gemini-style request *)

Definition VALID_ASPECT_RATIOS : list text :=
  map str ["1:1"; "2:3"; "3:2"; "3:4"; "4:3"; "4:5"; "5:4"; "9:16"; "16:9"; "21:9"].

Definition VALID_IMAGE_SIZES : list text := map str ["1K"; "2K"; "4K"].

(** [list.includes(v)] for a list of strings: a value that is not a
    string is not in it. *)
Definition list_includes (l : list text) (v : json) : bool :=
  match v with
  | JStr s => existsb (text_eqb s) l
  | _ => false
  end.

(** [option || setting || fallback], replaced when the list does not
    include it by the setting if the list includes that, else by the
    fallback. *)
Definition validated (valid : list text) (fallback : text)
           (option_value : json) (setting : text) : json :=
  let chosen :=
    if truthy option_value then option_value
    else match setting with
         | [] => JStr fallback
         | _ :: _ => JStr setting
         end in
  if list_includes valid chosen then chosen
  else if list_includes valid (JStr setting) then JStr setting
  else JStr fallback.

(** The phrases of part_000 67-82, by aspect ratio. *)
Definition RATIO_PROMPTS : list (text * text) :=
  [(str "16:9", str "Wide landscape view, cinematic shot, 16:9 aspect ratio, ");
   (str "21:9", str "Ultrawide cinematic panorama, 21:9 aspect ratio, ");
   (str "9:16", str "Tall vertical portrait, full body shot, 9:16 aspect ratio, ");
   (str "3:4", str "Vertical portrait, 3:4 aspect ratio, ");
   (str "4:3", str "Landscape view, 4:3 aspect ratio, ");
   (str "2:3", str "Vertical portrait, 2:3 aspect ratio, ");
   (str "3:2", str "Landscape view, 3:2 aspect ratio, ");
   (str "1:1", str "Square image, 1:1 aspect ratio, ")].

(** [RATIO_PROMPTS[aspectRatio]] for a validated aspect ratio *)
Definition ratio_prompt (aspectRatio : json) : text :=
  match aspectRatio with
  | JStr r =>
      match filter (λ kv, text_eqb kv.1 r = true) RATIO_PROMPTS with
      | (_, phrase) :: _ => phrase
      | [] => []
      end
  | _ => []
  end.

Definition refInstruction (c : copy) : text :=
  match c with
  | IndexJs =>
      str "[CRITICAL: The reference image(s) above show the EXACT appearance of the character(s). You MUST precisely copy their: face structure, eye color, hair color and style, skin tone, body type, clothing, and all distinctive features. Do not deviate from the reference appearances.]"
  | Part000 =>
      str "[CRITICAL: The reference image(s) above show the EXACT appearance of the character(s). Copy their visual features precisely.]"
  end.

(** What goes before the styled prompt in the text part. *)
Definition prompt_prefix (c : copy) (aspectRatio : json)
           (referenceImages : list text) : text :=
  (match referenceImages with
   | [] => []
   | _ :: _ => refInstruction c ++ [10%N; 10%N]
   end)
  ++ match c with
     | IndexJs => []
     | Part000 => ratio_prompt aspectRatio
     end.

Inductive request_part :=
| InlineData (mimeType data : text)
| Text (t : text).

Definition gemini_url (c : copy) (endpoint model apiKey : text) : text :=
  strip_slash endpoint ++ str "/v1beta/models/" ++ model
  ++ str ":generateContent"
  ++ match c with
     | IndexJs => []
     | Part000 => str "?key=" ++ apiKey
     end.

Record gemini_request := {
  g_url : text;
  g_authorization : option text;
  g_parts : list request_part;
  g_aspectRatio : json;
  g_imageSize : json
}.

Definition generateImageGemini (c : copy) (s : settings) (prompt style : text)
           (referenceImages : list text) (o : tag_options) : gemini_request :=
  let aspect :=
    validated VALID_ASPECT_RATIOS (str "1:1") (opt_aspectRatio o) (aspectRatio s) in
  {| g_url := gemini_url c (endpoint s) (model s) (apiKey s);
     g_authorization := match c with
                        | IndexJs => Some (str "Bearer " ++ apiKey s)
                        | Part000 => None
                        end;
     g_parts := map (InlineData (str "image/png")) (take 4 referenceImages)
                ++ [Text (prompt_prefix c aspect referenceImages
                          ++ with_style style prompt)];
     g_aspectRatio := aspect;
     g_imageSize :=
       validated VALID_IMAGE_SIZES (str "1K") (opt_imageSize o) (imageSize s) |}.

(** *** Which backend, with which reference images *)

Section WithCase.
Variable toLowerCase : text → text.

(** [settings.apiType === 'gemini' || isGeminiModel(settings.model)] *)
Definition uses_gemini (c : copy) (s : settings) : bool :=
  text_eqb (apiType s) (str "gemini") || isGeminiModel toLowerCase c (model s).

(** [getUserAvatarBase64]: nothing is fetched when no file is selected. *)
Definition getUserAvatarBase64 (s : settings) (fetched : option text) : option text :=
  match userAvatarFile s with
  | [] => None
  | _ :: _ => fetched
  end.

(** [if (avatar) referenceImages.push(avatar)] *)
Definition push_avatar (avatar : option text) : list text :=
  match avatar with
  | Some (b :: base64) => [b :: base64]
  | _ => []
  end.

(** The reference images that [generateImageWithRetry] collects before
    its loop (index.js 524-547): [entry] is the settings when the
    function is entered, [later] the settings once the avatar of the
    character has been awaited; with no such [await] the user's avatar
    is decided on the settings of the entry. *)
Definition collect_references (c : copy) (entry later : settings)
           (charAvatar userAvatar : option text) : list text :=
  if uses_gemini c entry then
    let s := if sendCharAvatar entry then later else entry in
    (if sendCharAvatar entry then push_avatar charAvatar else [])
    ++ (if sendUserAvatar s
        then push_avatar (getUserAvatarBase64 s userAvatar) else [])
  else [].

Inductive request :=
| ToGemini (r : gemini_request)
| ToOpenAI (r : openai_request).

(** The request of an attempt of [generateImageWithRetry] (index.js
    555-560), with the settings as they are when the attempt is made and
    the reference images collected before the loop. *)
Definition attempt_request (c : copy) (s : settings)
           (referenceImages : list text) (prompt style : text)
           (o : tag_options) : request :=
  if uses_gemini c s
  then ToGemini (generateImageGemini c s prompt style referenceImages o)
  else ToOpenAI (generateImageOpenAI c s prompt style referenceImages o).

End WithCase.

(** *** What an OpenAI-style backend answers

    index.js 348-371, part_000 387-405: the body of an answer that is ok
    has the shape of the protocol, a list [data] of items that carry the
    image as [b64_json] or as [url], or a [url] of its own.  On such
    bodies the two copies do the same. [Return None] is a return of
    [undefined]. *)

Record image_item := { b64_json : option text; item_url : option text }.

Record openai_response := {
  ok : bool;
  status : nat;
  body_text : text;
  data : option (list image_item);
  url : option text
}.

Inductive openai_error :=
| ApiError (status : nat) (body_text : text)
| NoImageData.

Inductive openai_result :=
| Return (value : option text)
| Throw (e : openai_error).

Definition openai_result_of (r : openai_response) : openai_result :=
  if ok r then
    match default [] (data r) with
    | [] =>
        match url r with
        | Some (u :: rl) => Return (Some (u :: rl))
        | _ => Throw NoImageData
        end
    | imageObj :: _ =>
        match b64_json imageObj with
        | Some (b :: base64) =>
            Return (Some (str "data:image/png;base64," ++ b :: base64))
        | _ => Return (item_url imageObj)
        end
    end
  else Throw (ApiError (status r) (body_text r)).

End Backend.

(** ** Saving an image, [saveImageToFile], and reading one,
       [imageUrlToBase64]

    index.js 176-243, part_000 211-279.  The upload is an oracle that
    answers a request; the time stamp is the string the clock gave. *)

Module Upload.
Import JsString JsArray Json.

(** The class [\w] *)
Definition is_word (c : char) : bool :=
  ((48 <=? c)%N && (c <=? 57)%N) || ((65 <=? c)%N && (c <=? 90)%N)
  || ((97 <=? c)%N && (c <=? 122)%N) || (c =? 95)%N.

(** The pattern that splits a data URL, anchored at both ends: the
    prefix, a run of word characters, the base64 mark, then one or more
    characters to the end, none of them a line terminator.  Capture
    groups 1 and 2. *)
Definition parse_data_url (dataUrl : text) : option (text * text) :=
  if startsWith (str "data:image/") dataUrl then
    let format := take_while is_word (drop 11 dataUrl) in
    let rest := drop (length format) (drop 11 dataUrl) in
    match format with
    | [] => None
    | _ :: _ =>
        if startsWith (str ";base64,") rest then
          match drop 8 rest with
          | [] => None
          | base64Data =>
              if forallb (λ c, negb (Gemini.is_line_terminator c)) base64Data
              then Some (format, base64Data)
              else None
          end
        else None
    end
  else None.

(** The selected character, if any, and the names of the characters. *)
Record context := { characterId : option nat; characters : list text }.

Definition charName (ctx : context) : text :=
  match characterId ctx with
  | Some i =>
      match characters ctx !! i with
      | Some (c :: name) => c :: name
      | _ => str "generated"
      end
  | None => str "generated"
  end.

(** [timestamp.replace(/[:.]/g, '-')] *)
Definition file_stamp (timestamp : text) : text :=
  map (λ c, if (c =? 58)%N || (c =? 46)%N then 45%N else c) timestamp.

Record upload_request := {
  image : text;
  format : text;
  ch_name : text;
  filename : text
}.

(** The answer to the upload: [json] is the body as [response.json()]
    gives it, [None] when it is not JSON. *)
Record upload_response := { ok : bool; status : nat; json_body : option json }.

Inductive save_error :=
| InvalidDataUrl
| ServerError (error : json)
| UploadFailed (status : nat)
| NotJson
| NullBody.

Inductive save_result :=
| Saved (path : option json)
| SaveThrew (e : save_error).

(** The requests sent and the outcome.  [ServerError v] is [new Error(v)];
    [NullBody] is the [TypeError] of reading a property of [null];
    [NotJson] the rejection of [response.json()]. *)
Definition saveImageToFile (c : copy) (ctx : context) (timestamp : text)
           (server : upload_request → upload_response) (dataUrl : text)
  : list upload_request * save_result :=
  let dataUrl :=
    match c with
    | IndexJs => dataUrl
    | Part000 =>
        if startsWith (str "data:image") dataUrl then dataUrl
        else str "data:image/jpeg;base64," ++ dataUrl
    end in
  match parse_data_url dataUrl with
  | None => ([], SaveThrew InvalidDataUrl)
  | Some (format, base64Data) =>
      let request :=
        {| image := base64Data; format := format; ch_name := charName ctx;
           filename := str "iig_" ++ file_stamp timestamp |} in
      let response := server request in
      ([request],
       if ok response then
         match json_body response with
         | None => SaveThrew NotJson
         | Some JNull => SaveThrew NullBody
         | Some result => Saved (Scanner.member result "path")
         end
       else
         match json_body response with
         | None => SaveThrew (ServerError (JStr (str "Unknown error")))
         | Some JNull => SaveThrew NullBody
         | Some error =>
             match Scanner.member error "error" with
             | Some v => if truthy v then SaveThrew (ServerError v)
                         else SaveThrew (UploadFailed (status response))
             | None => SaveThrew (UploadFailed (status response))
             end
         end)
  end.

(** [imageUrlToBase64] on what the reader made of the image: the part
    after the first comma, up to a second one.  [None] is [undefined]. *)
Definition base64_of (c : copy) (readerResult : text) : option text :=
  match c with
  | IndexJs => split 44%N readerResult !! 1
  | Part000 =>
      if includes [44%N] readerResult then split 44%N readerResult !! 1
      else Some readerResult
  end.

(** The whole function: [None] is the [null] of a failed request. *)
Definition imageUrlToBase64 (c : copy) (fetched : option text) : option text :=
  fetched ≫= base64_of c.

End Upload.

(** ** Recording the outcome in the message text

    index.js 989-995, 1002-1008 and 1089-1090; part_000 930-936, 945-951
    and 1024-1025.  Once a tag is settled the text of the message is
    rewritten with [String.prototype.replace], which replaces the first
    match only and reads its replacement as a template: a dollar sign
    followed by certain characters stands for a part of the match. *)

Module Rewrite.
Import JsString Scanner.

Definition dollar : char := 36%N.

(** The replacement text that the host makes of a template, for a match
    with the given capture groups, between [before] and [after].  Two
    dollar signs give one; a dollar sign with an ampersand, a backquote
    or an apostrophe gives the match, what precedes it, what follows it;
    with one or two digits, the group of that number if there is one,
    two digits that exceed the number of groups being read as one digit
    and a character; any other dollar sign stands for itself. *)
Fixpoint expand (captures : list text) (matched before after template : text)
  : text :=
  match template with
  | [] => []
  | c :: r =>
      if (c =? dollar)%N then
        match r with
        | [] => [c]
        | d :: r' =>
            if (d =? dollar)%N then
              dollar :: expand captures matched before after r'
            else if (d =? 38)%N then
              matched ++ expand captures matched before after r'
            else if (d =? 96)%N then
              before ++ expand captures matched before after r'
            else if (d =? 39)%N then
              after ++ expand captures matched before after r'
            else
              match Json.digit_val d with
              | Some n =>
                  let one :=
                    if (1 <=? n)%N && (N.to_nat n <=? length captures)
                    then default [] (captures !! (N.to_nat n - 1))
                         ++ expand captures matched before after r'
                    else dollar :: d :: expand captures matched before after r' in
                  match r' with
                  | e :: r'' =>
                      match Json.digit_val e with
                      | Some k =>
                          let index := N.to_nat (10 * n + k) in
                          if length captures <? index then one
                          else if 1 <=? index then
                            default [] (captures !! (index - 1))
                            ++ expand captures matched before after r''
                          else dollar :: d :: e
                               :: expand captures matched before after r''
                      | None => one
                      end
                  | [] => one
                  end
              | None => dollar :: expand captures matched before after r
              end
        end
      else c :: expand captures matched before after r
  end.

(** [s.replace(pattern, template)] for a pattern that is a string: the
    first occurrence is replaced, and there are no groups. *)
Definition replace_first (s pattern template : text) : text :=
  match find_sub pattern s with
  | None => s
  | Some pos =>
      let before := take pos s in
      let after := drop (pos + length pattern) s in
      before ++ expand [] pattern before after template ++ after
  end.

(** *** The pattern that finds the source attribute to rewrite

    [src], any white space, [=], any white space, a quote of either
    kind, any characters that are not quotes, and the same quote again;
    letters match in either case (index.js 990).  The white space is
    followed by a character that is not white space and the run that is
    free of quotes by a quote, so there is one way to match. *)

Definition is_quote (c : char) : bool := (c =? dquote)%N || (c =? squote)%N.

(** A match anchored at the head of [s]: its length and its quote. *)
Definition quoted_src_here (s : text) : option (nat * char) :=
  match s with
  | c1 :: c2 :: c3 :: s1 =>
      if letter_ci 115 c1 && letter_ci 114 c2 && letter_ci 99 c3 then
        match skip_space s1 with
        | e :: s2 =>
            if (e =? 61)%N then
              match skip_space s2 with
              | q :: s3 =>
                  if is_quote q then
                    let value := take_while (λ c, negb (is_quote c)) s3 in
                    match drop (length value) s3 with
                    | q' :: s4 =>
                        if (q' =? q)%N then Some (length s - length s4, q)
                        else None
                    | [] => None
                    end
                  else None
              | [] => None
              end
            else None
        | [] => None
        end
      else None
  | _ => None
  end.

(** The leftmost match: where it starts, its length, its quote. *)
Fixpoint quoted_src (s : text) : option (nat * nat * char) :=
  match quoted_src_here s with
  | Some (len, q) => Some (0, len, q)
  | None =>
      match s with
      | [] => None
      | _ :: s' =>
          match quoted_src s' with
          | Some (pos, len, q) => Some (S pos, len, q)
          | None => None
          end
      end
  end.

(** [s.replace(pattern, template)] for that pattern; its one group is
    the quote. *)
Definition replace_src (s template : text) : text :=
  match quoted_src s with
  | None => s
  | Some (pos, len, q) =>
      let before := take pos s in
      let after := drop (pos + len) s in
      before ++ expand [[q]] (take len (drop pos s)) before after template
      ++ after
  end.

Definition ERROR_IMAGE_PATH : text :=
  str "/scripts/extensions/third-party/sillyimages/error.svg".

(** [`src="${value}"`] *)
Definition src_attribute (value : text) : text :=
  str "src=" ++ dquote :: value ++ [dquote].

(** The text of the message after a tag of the receive path has its
    image, saved under [imagePath]. *)
Definition rewrite_success (mes : text) (tg : tag) (imagePath : text) : text :=
  if isNewFormat tg then
    replace_first mes (fullMatch tg)
      (replace_src (fullMatch tg) (src_attribute imagePath))
  else
    replace_first mes (fullMatch tg)
      (str "[IMG:" ++ 10003%N :: str ":" ++ imagePath ++ str "]").

(** The text of the message after the generation of a tag has failed
    with an error of the given message. *)
Definition rewrite_failure (mes : text) (tg : tag) (errorMessage : text) : text :=
  if isNewFormat tg then
    replace_first mes (fullMatch tg)
      (replace_src (fullMatch tg) (src_attribute ERROR_IMAGE_PATH))
  else
    replace_first mes (fullMatch tg)
      (str "[IMG:ERROR:" ++ substring errorMessage 0 50 ++ str "]").

(** The text of the message after a tag of the forced path has its
    image: the source attribute is rewritten whatever the family of the
    tag. *)
Definition rewrite_regenerated (mes : text) (tg : tag) (imagePath : text) : text :=
  replace_first mes (fullMatch tg)
    (replace_src (fullMatch tg) (src_attribute imagePath)).

End Rewrite.

(* ===================================================================== *)
(** * Vocabulary of the properties *)
(* ===================================================================== *)

Import JsString BraceScan Json Scanner.

(** ** Payloads *)

(** The contents of a quoted string: every quote in it is escaped, and a
    backslash takes the character after it, whatever it is. *)
Inductive string_body : list N → Prop :=
| sb_nil : string_body []
| sb_plain c s :
    c ≠ dquote → c ≠ backslash → string_body s → string_body (c :: s)
| sb_escape c s : string_body s → string_body (backslash :: c :: s).

(** A run of payload text in which braces outside quoted strings pair
    up: plain characters, quoted strings and nested objects. *)
Inductive balanced : list N → Prop :=
| bal_nil : balanced []
| bal_plain c p :
    c ≠ dquote → c ≠ lbrace → c ≠ rbrace → balanced p → balanced (c :: p)
| bal_string s p :
    string_body s → balanced p → balanced (dquote :: s ++ dquote :: p)
| bal_object o p :
    balanced o → balanced p → balanced (lbrace :: o ++ rbrace :: p).

(** The payload around a body. *)
Definition payload (body : list N) : list N := lbrace :: body ++ [rbrace].

Definition parses_as_object (s : list N) : Prop :=
  ∃ members, JSON_parse s = Some (JObj members).

(** ** Ranges of tags *)

(** The offset just after the tag. *)
Definition tag_end (tg : tag) : nat := index tg + length (fullMatch tg).

(** The tag's [fullMatch] is the slice of the text that starts at its
    [index]. *)
Definition tag_slice (t : list N) (tg : tag) : Prop :=
  tag_end tg ≤ length t
  ∧ substring t (index tg) (tag_end tg) = fullMatch tg.

(** Where a tag begins, and its characters. *)
Definition site (tg : tag) : nat * list N := (index tg, fullMatch tg).

(** ** Texts made of markers *)

(** A marker of either family, by its parts: the body of the payload of a
    bracket marker; for an element, the attributes between its opening
    and the marker attribute, what separates the attribute name from the
    payload, the body of the payload, and the rest of the element up to
    the angle bracket that closes it. *)
Inductive marker_piece :=
| LegacyMarker (body : list N)
| MarkupElement (attrs gap body rest : list N).

Definition render (p : marker_piece) : list N :=
  match p with
  | LegacyMarker body => marker ++ lbrace :: body ++ [rbrace; rbracket]
  | MarkupElement attrs gap body rest =>
      str "<img" ++ attrs ++ imgTagMarker ++ gap
      ++ lbrace :: body ++ rbrace :: rest ++ [gt_sign]
  end.

Definition is_markup (p : marker_piece) : bool :=
  match p with
  | MarkupElement _ _ _ _ => true
  | LegacyMarker _ => false
  end.

(** A text of markers: each item is a stretch of prose followed by a
    marker of either family; a last stretch of prose ends the text. *)
Record item := { prose : list N; piece : marker_piece }.

Fixpoint render_items (items : list item) (final : list N) : list N :=
  match items with
  | [] => final
  | it :: items' => prose it ++ render (piece it) ++ render_items items' final
  end.

(** The markers of one family in a text of items that starts at
    [offset]: where each begins, and its characters. *)
Fixpoint sites (markup : bool) (offset : nat) (items : list item)
  : list (nat * list N) :=
  match items with
  | [] => []
  | it :: items' =>
      let start := offset + length (prose it) in
      (if eqb (is_markup (piece it)) markup
       then [(start, render (piece it))] else [])
      ++ sites markup (start + length (render (piece it))) items'
  end.

(** The policy selects a source value without asking the network: every
    one when forced, else one that is not the error image and is empty or
    still carries a marker. *)
Definition selected (opts : options) (srcValue : list N) : Prop :=
  forceAll opts = true
  ∨ (hasErrorImage srcValue = false
     ∧ (hasMarker srcValue = true ∨ srcValue = [])).

(** A marker is well formed when the braces of its payload pair up
    outside quoted strings and the payload, normalised as its family is,
    parses as a JSON object; when it holds no marker of the other family;
    and, for an element: no other [<img] stands between its opening and
    the marker attribute, which lies within the look-back, the attribute
    name occurs first
    where the attribute is, at most ten characters without a brace
    separate it from the payload, no closing angle bracket precedes the
    one that ends the element, and the policy selects its source. *)
Definition well_formed_piece (opts : options) (p : marker_piece) : Prop :=
  match p with
  | LegacyMarker body =>
      balanced body
      ∧ includes imgTagMarker (render p) = false
      ∧ parses_as_object (normalize_legacy (payload body))
  | MarkupElement attrs gap body rest =>
      balanced body
      ∧ includes (str "<img") attrs = false ∧ length attrs ≤ 496
      ∧ find_sub imgTagMarker (str "<img" ++ attrs ++ imgTagMarker)
        = Some (4 + length attrs)
      ∧ includes [lbrace] gap = false ∧ length gap ≤ 10
      ∧ includes [gt_sign] rest = false
      ∧ includes marker (render p) = false
      ∧ selected opts (default [] (srcMatch (render p)))
      ∧ parses_as_object (normalize_markup (payload body))
  end.

(** Prose holds no marker of either family. *)
Definition well_formed_prose (s : list N) : Prop :=
  includes imgTagMarker s = false ∧ includes marker s = false.

Definition well_formed_item (opts : options) (it : item) : Prop :=
  well_formed_prose (prose it) ∧ well_formed_piece opts (piece it).

Definition well_formed (opts : options) (items : list item) (final : list N)
  : Prop :=
  Forall (well_formed_item opts) items ∧ well_formed_prose final.

(** An element with an angle bracket in an attribute and a brace pair
    inside its quoted prompt, then a bracket marker, in a sentence. *)
Definition example_items : list item :=
  [ {| prose := str "Hello ";
       piece := MarkupElement (str " title='a<b' ") (str "'")
                  (lit "`prompt`:`a {red} fox`") (lit "' src=`[IMG:GEN]`") |};
    {| prose := str " and ";
       piece := LegacyMarker (lit "`prompt`:`a red fox`,`style`:`watercolor`") |} ].

(** ** Requests of the scan *)


(** ** Retries *)

(** The classification of the specification: a failure is transient when
    it is an API error with status 429, 502, 503 or 504, or when its
    message carries a network or timeout signature. *)
Definition spec_transient (status : option nat) (message : list N) : bool :=
  match status with
  | Some code => bool_decide (code ∈ [429; 502; 503; 504])
  | None => false
  end
  || includes (str "network") message || includes (str "timeout") message.

(** The trace of [n] attempts, from [attempt] on, each failed and followed
    by a retry: the attempt is announced and made, then the wait of base
    delay times two to the attempt is announced, then slept. *)
Fixpoint backoff_trace (maxRetries baseDelay : Z) (attempt n : nat)
  : list Retry.event :=
  match n with
  | 0 => []
  | S n' =>
      [Retry.StatusGenerating attempt maxRetries; Retry.CallBackend attempt;
       Retry.StatusRetryIn (baseDelay * 2 ^ Z.of_nat attempt)%Z;
       Retry.Sleep (baseDelay * 2 ^ Z.of_nat attempt)%Z]
      ++ backoff_trace maxRetries baseDelay (S attempt) n'
  end.

(** The retry scenario of the specification: two retries allowed, a base
    delay of one second, status 503 on the first two attempts, an image
    on the third. *)
Definition scenario_settings : Retry.settings :=
  {| Retry.endpoint := str "https://api.example.com";
     Retry.apiKey := str "key"; Retry.model := str "gpt-image-1";
     Retry.maxRetries := 2; Retry.retryDelay := 1000 |}.

Definition scenario_backend (k : nat) : Retry.outcome :=
  if k <? 2
  then Retry.Threw (Retry.api_error_message 503 (str "Service Unavailable"))
  else Retry.Returned (str "data:image/png;base64,QUJD").

(** ** A host with one message *)

(** A message of the assistant whose one element is resolved. *)
Definition resolved_message : Reconcile.message :=
  {| Reconcile.mes :=
       lit "Look: <img data-iig-instruction='{`prompt`:`a red fox`}' src=`/user/images/fox.png`>";
     Reconcile.is_user := false |}.

Definition quiet_host (gate : gset nat) : Reconcile.host :=
  {| Reconcile.enabled := true;
     Reconcile.processingMessages := gate;
     Reconcile.chat := [resolved_message];
     Reconcile.rendered := λ _, Reconcile.Rendered |}.

(** A world in which every probe gets the same reply and every
    generation and upload succeeds. *)
Definition kind_world (reply : fetch_result) : Reconcile.world :=
  {| Reconcile.net := λ _ _, reply;
     Reconcile.generate := λ _ _, Reconcile.Generated (str "data:image/png;base64,QUJD");
     Reconcile.saveImageToFile := λ _, Some (str "/user/images/new.png");
     Reconcile.existingImg := λ _, true |}.

(** ** Numbers of the host *)

(** The double nearest to an integer, ties going to the even
    significand, as a host that does not approximate gives it: the
    integer itself below 2^53, else the nearest multiple of the power of
    two that leaves 53 bits, or an infinity from 2^1024 on. *)
Definition nearest_double (z : Z) : Inputs.number :=
  let m := Z.abs z in
  if (m <? 2 ^ 53)%Z then Inputs.Finite z
  else
    let e := (Z.log2 m - 52)%Z in
    let q := (m / 2 ^ e)%Z in
    let r := (m mod 2 ^ e)%Z in
    let q' := if (2 ^ (e - 1) <? r)%Z || ((r =? 2 ^ (e - 1))%Z && Z.odd q)
              then (q + 1)%Z else q in
    if (2 ^ 1024 <=? q' * 2 ^ e)%Z then Inputs.Infinite (z <? 0)%Z
    else Inputs.Finite (Z.sgn z * (q' * 2 ^ e))%Z.

(** ** Counting what a run of the retry loop did *)

(** The calls to the backend in a trace, and the waits. *)
Fixpoint backend_calls (events : list Retry.event) : nat :=
  match events with
  | [] => 0
  | Retry.CallBackend _ :: events' => S (backend_calls events')
  | _ :: events' => backend_calls events'
  end.

Fixpoint waits (events : list Retry.event) : list Z :=
  match events with
  | [] => []
  | Retry.Sleep delay :: events' => delay :: waits events'
  | _ :: events' => waits events'
  end.

(** The sum of a run of waits. *)
Definition total_wait (events : list Retry.event) : Z :=
  foldr Z.add 0%Z (waits events).


(** ** A message that waits for its image *)

Definition pending_message : Reconcile.message :=
  {| Reconcile.mes :=
       lit "Look: <img data-iig-instruction='{`prompt`:`a red fox`}' src=`[IMG:GEN]`>";
     Reconcile.is_user := false |}.

(** A host whose page does not show the message. *)
Definition unrendered_host : Reconcile.host :=
  {| Reconcile.enabled := true;
     Reconcile.processingMessages := ∅;
     Reconcile.chat := [pending_message];
     Reconcile.rendered := λ _, Reconcile.NotRendered |}.

(** ** What stands behind a tag *)

(** The source value that the scanner reads in the element of a tag. *)
Definition source_of (tg : tag) : list N := default [] (srcMatch (fullMatch tg)).

(** The fields of a tag are read from the payload, each with its
    default. *)
Definition fields_of (data : json) (tg : tag) : Prop :=
  style tg = or_else (member data "style") (JStr [])
  ∧ prompt tg = or_else (member data "prompt") (JStr [])
  ∧ aspectRatio tg
    = or_else (member data "aspect_ratio") (or_else (member data "aspectRatio") JNull)
  ∧ imageSize tg
    = or_else (member data "image_size") (or_else (member data "imageSize") JNull)
  ∧ quality tg = or_else (member data "quality") JNull.

(** A field is the value of the payload when that is truthy, else its
    default. *)
Definition truthy_or (fallback : json) (v : json) : Prop :=
  truthy v = true ∨ v = fallback.

(** A tag of the markup family is backed by an element of the text: the
    element opens at the index of the tag, the marker attribute follows
    within the look-back, an opening brace comes within ten characters of
    it, the brace scan from there ends inside the tag, the tag ends with
    the first closing angle bracket from there on, and the payload between
    the braces, with its entities decoded, parses to a value that is not
    [null], from which the fields are read. *)
Definition backed_markup (t : list N) (tg : tag) : Prop :=
  ∃ markerPos jsonStart jsonEnd data,
    startsWith (str "<img") (drop (index tg) t) = true
    ∧ index tg ≤ markerPos ≤ index tg + 500
    ∧ startsWith imgTagMarker (drop markerPos t) = true
    ∧ markerPos + 21 ≤ jsonStart ≤ markerPos + 31
    ∧ t !! jsonStart = Some lbrace
    ∧ findJsonEnd t jsonStart = Some jsonEnd
    ∧ indexOf [gt_sign] t jsonEnd = Some (tag_end tg - 1)
    ∧ jsonEnd < tag_end tg
    ∧ JSON_parse (normalize_markup (substring t jsonStart jsonEnd)) = Some data
    ∧ data ≠ JNull
    ∧ fields_of data tg.

(** A tag of the legacy family is backed by a bracket marker: the marker
    opens at the index of the tag, the brace scan from just after it
    ends where a closing bracket stands, which ends the tag, and the
    payload in between, with its single quotes turned into double quotes,
    parses to a value that is not [null], from which the fields are
    read. *)
Definition backed_legacy (t : list N) (tg : tag) : Prop :=
  ∃ jsonEnd data,
    startsWith marker (drop (index tg) t) = true
    ∧ findJsonEnd t (index tg + 9) = Some jsonEnd
    ∧ t !! jsonEnd = Some rbracket
    ∧ tag_end tg = jsonEnd + 1
    ∧ JSON_parse (normalize_legacy (substring t (index tg + 9) jsonEnd)) = Some data
    ∧ data ≠ JNull
    ∧ fields_of data tg
    ∧ existingSrc tg = None.

Definition backed (t : list N) (tg : tag) : Prop :=
  tag_slice t tg
  ∧ truthy_or (JStr []) (prompt tg) ∧ truthy_or (JStr []) (style tg)
  ∧ truthy_or JNull (aspectRatio tg) ∧ truthy_or JNull (imageSize tg)
  ∧ truthy_or JNull (quality tg)
  ∧ if isNewFormat tg then backed_markup t tg else backed_legacy t tg.

(** The policy chose the element of a tag: it was forced, or its source
    is not the error image and either is empty, or still carries a
    marker token, or is a path for which existence checking was asked
    and a probe did not report success.  The tag records the source when
    it is a path. *)
Definition chosen (net : nat → list N → fetch_result) (opts : options)
           (tg : tag) : Prop :=
  (forceAll opts = true
   ∨ (hasErrorImage (source_of tg) = false
      ∧ (hasMarker (source_of tg) = true
         ∨ source_of tg = []
         ∨ (checkExistence opts = true ∧ hasPath (source_of tg) = true
            ∧ ∃ n, checkFileExists (net n (source_of tg)) = false))))
  ∧ existingSrc tg
    = (if hasPath (source_of tg) then Some (source_of tg) else None).

(** ** What the policy makes of a text of markers *)

(** A marker that is well formed but for the choice of the policy, which
    forcing takes out of the conditions. *)
Definition shaped_item (it : item) : Prop :=
  well_formed_item Reconcile.forced_mode it.

(** What the markup loop is to find in a text of items that starts at
    [offset], after [nprobes] requests: the elements that the policy
    chooses, each where it begins, and the paths requested on the way, in
    order. *)
Fixpoint markup_outcome (net : nat → list N → fetch_result) (opts : options)
         (nprobes offset : nat) (items : list item)
  : list (nat * list N) * list (list N) :=
  match items with
  | [] => ([], [])
  | it :: items' =>
      let start := offset + length (prose it) in
      let next := start + length (render (piece it)) in
      if is_markup (piece it) then
        let '(needs, probed) :=
          needsGeneration net nprobes opts (default [] (srcMatch (render (piece it)))) in
        let '(found, requested) :=
          markup_outcome net opts (nprobes + length probed) next items' in
        ((if needs then [(start, render (piece it))] else []) ++ found,
         probed ++ requested)
      else markup_outcome net opts nprobes next items'
  end.

(** ** Elements with a source attribute *)

(** The letters of [src] in a row, in either case, at the head. *)
Definition src_here (s : list N) : bool :=
  match s with
  | c1 :: c2 :: c3 :: _ => letter_ci 115 c1 && letter_ci 114 c2 && letter_ci 99 c3
  | _ => false
  end.

(** They occur somewhere in the text. *)
Fixpoint mentions_src (s : list N) : bool :=
  src_here s
  || match s with
     | [] => false
     | _ :: s' => mentions_src s'
     end.

(** The rest of an element that carries a quoted source attribute: what
    precedes the attribute, its quote, its value, what follows it. *)
Definition with_source (mid : list N) (q : N) (value post : list N) : list N :=
  mid ++ str "src=" ++ q :: value ++ q :: post.

(** An element up to its source attribute. *)
Definition element_head (attrs gap body mid : list N) : list N :=
  str "<img" ++ attrs ++ imgTagMarker ++ gap ++ lbrace :: body ++ rbrace :: mid.

(** An item that is an element with a quoted source attribute. *)
Definition sourced_item (pre attrs gap body mid : list N) (q : N)
           (value post : list N) : item :=
  {| prose := pre;
     piece := MarkupElement attrs gap body (with_source mid q value post) |}.

(** The source attribute of the element is the first place where the
    letters of [src] occur in it, its quote is one, its value is free of
    quotes, and the element holds no dollar sign but in that value. *)
Definition sourced_element (attrs gap body mid : list N) (q : N)
           (value post : list N) : Prop :=
  Rewrite.is_quote q = true
  ∧ Forall (λ c, Rewrite.is_quote c = false) value
  ∧ mentions_src (element_head attrs gap body mid) = false
  ∧ (Rewrite.dollar ∉ element_head attrs gap body mid)
  ∧ (Rewrite.dollar ∉ post).

(** A value that the scanner reads back whole from a quoted attribute
    and that the rewriting copies as it is: not empty, free of quotes,
    white space, closing angle brackets and dollar signs. *)
Definition plain_value (value : list N) : Prop :=
  value ≠ [] ∧ Forall (λ c, src_char c = true) value ∧ Rewrite.dollar ∉ value.

(** A tag that the scanner makes of an item. *)
Definition tag_of (it : item) (tg : tag) : Prop :=
  fullMatch tg = render (piece it) ∧ isNewFormat tg = is_markup (piece it).

(** What a scan is to return on a text that begins with an item whose
    element has the source [value], the other items being [items]: the
    policy decides on the element by that source, and the rest is as the
    policy makes of the other items. *)
Definition scan_after (net : nat → list N → fetch_result) (opts : options)
           (first : item) (value : list N) (items : list item) (r : scan) : Prop :=
  let start := length (prose first) in
  let next := start + length (render (piece first)) in
  let '(needs, probed) := needsGeneration net 0 opts value in
  map site (tags r)
  = (if needs then [(start, render (piece first))] else [])
    ++ (markup_outcome net opts (length probed) next items).1
    ++ sites false next items
  ∧ probes r = probed ++ (markup_outcome net opts (length probed) next items).2
  ∧ warnings r = 0.

(** The element of the pending message, by its parts, and its tag. *)
Definition pending_item : item :=
  sourced_item (str "Look: ") (str " ") (str "'") (lit "`prompt`:`a red fox`")
    (str "' ") dquote (str "[IMG:GEN]") [].

Definition pending_tag : tag :=
  {| fullMatch :=
       lit "<img data-iig-instruction='{`prompt`:`a red fox`}' src=`[IMG:GEN]`>";
     index := 6; style := JStr []; prompt := JStr (str "a red fox");
     aspectRatio := JNull; imageSize := JNull; quality := JNull;
     isNewFormat := true; existingSrc := None |}.

(** An element whose source is written without quotes, and its tag. *)
Definition unquoted_message : list N :=
  lit "Look: <img data-iig-instruction='{`prompt`:`a red fox`}' src=[IMG:GEN]>".

Definition unquoted_tag : tag :=
  {| fullMatch :=
       lit "<img data-iig-instruction='{`prompt`:`a red fox`}' src=[IMG:GEN]>";
     index := 6; style := JStr []; prompt := JStr (str "a red fox");
     aspectRatio := JNull; imageSize := JNull; quality := JNull;
     isNewFormat := true; existingSrc := None |}.


(** ** What the rewriting leaves in the place of a bracket marker *)

(** After a success: [[IMG:✓:path]]. *)
Definition completion_marker (path : list N) : list N :=
  str "[IMG:" ++ 10003%N :: str ":" ++ path ++ str "]".

(** After a failure: [[IMG:ERROR:...]], with the first 50 code units of
    the message of the error. *)
Definition error_marker (message : list N) : list N :=
  str "[IMG:ERROR:" ++ substring message 0 50 ++ str "]".

(** A bracket marker after prose, and its tag. *)
Definition legacy_item : item :=
  {| prose := str "Hello ";
     piece := LegacyMarker (lit "`prompt`:`a red fox`") |}.

Definition legacy_tag : tag :=
  {| fullMatch := lit "[IMG:GEN:{`prompt`:`a red fox`}]";
     index := 6; style := JStr []; prompt := JStr (str "a red fox");
     aspectRatio := JNull; imageSize := JNull; quality := JNull;
     isNewFormat := false; existingSrc := None |}.

(* ===================================================================== *)
(** * Properties *)
(* ===================================================================== *)

(** ** The embedding at work *)

(** The marker of the specification's scenario: one tag, at offset 6,
    with its prompt and style. *)
Example scenario_tag :
  (λ sc, map (λ tg, (index tg, fullMatch tg, prompt tg, style tg, isNewFormat tg))
             (tags sc))
  <$> parseImageTags (λ _ _, Response true)
        (lit "Hello [IMG:GEN:{`prompt`:`a red fox`,`style`:`watercolor`}] world")
        default_options
  = Some [(6, lit "[IMG:GEN:{`prompt`:`a red fox`,`style`:`watercolor`}]",
           JStr (str "a red fox"), JStr (str "watercolor"), false)].
Proof. by vm_compute. Qed.

(** An escaped quote does not close the string it is in. *)
Example escaped_quote_stays_in_string :
  findJsonEnd (lit "{`a`:`x\`}`} tail") 0 = Some 12.
Proof. by vm_compute. Qed.

(** Quotes written as entities are not quotes to the scan: a closing
    brace inside such a string ends the payload early. *)
Example entity_quotes_are_not_quotes :
  findJsonEnd (lit "{&quot;prompt&quot;:&quot;a } b&quot;}") 0 = Some 29
  ∧ length (lit "{&quot;prompt&quot;:&quot;a } b&quot;}") = 38.
Proof. by vm_compute. Qed.

(** The source of an element: case and spacing of the attribute, quotes
    or none; an empty quoted value gives no match. *)
Example srcMatch_forms :
  srcMatch (lit "<img SRC = '/a/b.png' alt=x>") = Some (str "/a/b.png")
  ∧ srcMatch (lit "<img src=[IMG:GEN]>") = Some (str "[IMG:GEN]")
  ∧ srcMatch (lit "<img src=`` alt=`x`>") = None.
Proof. by vm_compute. Qed.

(** Single quotes become double quotes before a legacy payload is
    parsed; empty strings and zeros are falsy in the defaults. *)
Example legacy_single_quotes :
  (λ sc, map (λ tg, (prompt tg, style tg, aspectRatio tg, quality tg)) (tags sc))
  <$> parseImageTags (λ _ _, Response true)
        (lit "[IMG:GEN:{'prompt':'a cat','style':'','aspectRatio':'16:9','quality':0}]")
        default_options
  = Some [(JStr (str "a cat"), JStr [], JStr (str "16:9"), JNull)].
Proof. by vm_compute. Qed.

(** ** Facts about the string primitives *)

Section StringFacts.
Implicit Types pat t r : list N.

Lemma startsWith_app pat r : startsWith pat (pat ++ r) = true.
Proof.
  induction pat as [|p pat IH]; simpl; [done|].
  by rewrite N.eqb_refl, IH.
Qed.

Lemma startsWith_inv pat t : startsWith pat t = true → ∃ r, t = pat ++ r.
Proof.
  revert t. induction pat as [|p pat IH]; intros t H; simpl in *.
  - by exists t.
  - destruct t as [|c t]; [done|].
    apply andb_true_iff in H as [Hc Ht].
    apply N.eqb_eq in Hc as ->.
    destruct (IH _ Ht) as [r ->]. by exists r.
Qed.

Lemma startsWith_length pat t : startsWith pat t = true → length pat ≤ length t.
Proof.
  intros H. apply startsWith_inv in H as [r ->]. rewrite length_app. lia.
Qed.

Lemma find_sub_Some pat t k :
  find_sub pat t = Some k →
  startsWith pat (drop k t) = true
  ∧ ∀ j, j < k → startsWith pat (drop j t) = false.
Proof.
  revert k. induction t as [|c t IH]; intros k; simpl.
  - destruct (startsWith pat []) eqn:E; [|done].
    intros [= <-]. split; [done | intros; lia].
  - destruct (startsWith pat (c :: t)) eqn:E.
    + intros [= <-]. split; [done | intros; lia].
    + destruct (find_sub pat t) as [k'|] eqn:F; [|done].
      simpl. intros [= <-]. destruct (IH k' eq_refl) as [H1 H2].
      split; [done|]. intros [|j] Hj; [done|]. simpl. apply H2. lia.
Qed.

Lemma find_sub_None pat t j : find_sub pat t = None → startsWith pat (drop j t) = false.
Proof.
  revert j. induction t as [|c t IH]; intros j; simpl.
  - destruct (startsWith pat []) eqn:E; [done|]. intros _. by rewrite drop_nil.
  - destruct (startsWith pat (c :: t)) eqn:E; [done|].
    destruct (find_sub pat t) eqn:F; [done|]. intros _.
    destruct j as [|j]; [done|]. simpl. by apply IH.
Qed.

Lemma find_sub_intro pat t k :
  startsWith pat (drop k t) = true →
  (∀ j, j < k → startsWith pat (drop j t) = false) →
  find_sub pat t = Some k.
Proof.
  intros H1 H2. destruct (find_sub pat t) as [k'|] eqn:F.
  - apply find_sub_Some in F as [F1 F2].
    destruct (decide (k' < k)) as [Hlt|Hge].
    + rewrite (H2 _ Hlt) in F1. done.
    + destruct (decide (k < k')) as [Hlt'|Hge'].
      * rewrite (F2 _ Hlt') in H1. done.
      * f_equal. lia.
  - by rewrite (find_sub_None _ _ k F) in H1.
Qed.

Lemma indexOf_Some pat t pos k :
  indexOf pat t pos = Some k →
  pos ≤ k ∧ startsWith pat (drop k t) = true
  ∧ ∀ j, pos ≤ j < k → startsWith pat (drop j t) = false.
Proof.
  unfold indexOf. destruct (find_sub pat (drop pos t)) as [k'|] eqn:F; [|done].
  simpl. intros [= <-]. apply find_sub_Some in F as [F1 F2].
  rewrite drop_drop in F1. split; [lia|]. split; [done|].
  intros j [Hj1 Hj2]. specialize (F2 (j - pos)).
  rewrite drop_drop in F2. replace (pos + (j - pos)) with j in F2 by lia.
  apply F2. lia.
Qed.

Lemma indexOf_intro pat t pos k :
  pos ≤ k → startsWith pat (drop k t) = true →
  (∀ j, pos ≤ j < k → startsWith pat (drop j t) = false) →
  indexOf pat t pos = Some k.
Proof.
  intros Hle H1 H2. unfold indexOf.
  rewrite (find_sub_intro pat (drop pos t) (k - pos)).
  - simpl. f_equal. lia.
  - rewrite drop_drop. by replace (pos + (k - pos)) with k by lia.
  - intros j Hj. rewrite drop_drop. apply H2. lia.
Qed.

(** A non-empty pattern is found strictly inside the text. *)
Lemma indexOf_bound pat t pos k :
  pat ≠ [] → indexOf pat t pos = Some k → k + length pat ≤ length t.
Proof.
  intros Hne H. apply indexOf_Some in H as (_ & H & _).
  apply startsWith_length in H. rewrite length_drop in H.
  destruct pat; [done|]. simpl in *. lia.
Qed.

Lemma rfind_Some pat t k j :
  rfind pat t k = Some j → j ≤ k ∧ startsWith pat (drop j t) = true.
Proof.
  induction k as [|k IH]; simpl.
  - destruct (startsWith pat (drop 0 t)) eqn:E; [|done].
    by intros [= <-].
  - destruct (startsWith pat (drop (S k) t)) eqn:E.
    + intros [= <-]. split; [lia|done].
    + intros H. destruct (IH H). split; [lia|done].
Qed.

Lemma lastIndexOf_Some pat t pos j :
  lastIndexOf pat t pos = Some j → j ≤ pos ∧ startsWith pat (drop j t) = true.
Proof.
  unfold lastIndexOf. intros H. apply rfind_Some in H as [H1 H2].
  split; [lia|done].
Qed.

Lemma substring_slice t a b :
  a ≤ b → b ≤ length t → substring t a b = take (b - a) (drop a t).
Proof.
  intros Hab Hb. unfold substring.
  by replace (a `min` length t) with a by lia;
    replace (b `min` length t) with b by lia;
    replace (a `max` b) with b by lia;
    replace (a `min` b) with a by lia.
Qed.

Lemma substring_length t a b :
  a ≤ b → b ≤ length t → length (substring t a b) = b - a.
Proof.
  intros Hab Hb. rewrite substring_slice by done.
  rewrite length_take, length_drop. lia.
Qed.

End StringFacts.

(** ** The balanced-brace scan *)

Section BraceScanFacts.

(** The end the scan reports lies after its start and within the text. *)
Lemma brace_loop_bounds rest i bc ins esc e :
  brace_loop rest i bc ins esc = Some e → i < e ≤ i + length rest.
Proof.
  revert i bc ins esc.
  induction rest as [|c rest IH]; intros i bc ins esc; simpl; [done|].
  intros H.
  assert (∀ bc' ins' esc', brace_loop rest (S i) bc' ins' esc' = Some e →
                           i < e ≤ i + S (length rest)) as Hrec.
  { intros ??? H'. apply IH in H'. lia. }
  repeat match type of H with
         | context [if ?b then _ else _] => destruct b
         end; try (by eapply Hrec).
  injection H as <-. lia.
Qed.

Lemma findJsonEnd_bounds t jsonStart e :
  findJsonEnd t jsonStart = Some e → jsonStart < e ≤ length t.
Proof.
  unfold findJsonEnd. intros H.
  pose proof (brace_loop_bounds _ _ _ _ _ _ H) as Hb.
  rewrite length_drop in Hb.
  destruct (decide (jsonStart ≤ length t)); [lia|].
  rewrite drop_ge in H by lia. done.
Qed.

Lemma brace_loop_string s :
  string_body s → ∀ rest i bc,
    brace_loop (s ++ dquote :: rest) i bc true false
    = brace_loop rest (i + length s + 1) bc false false.
Proof.
  induction 1 as [|c s Hq Hb _ IH|c s _ IH]; intros rest i bc; simpl.
  - f_equal. lia.
  - apply N.eqb_neq in Hq, Hb. rewrite Hq, Hb. simpl.
    rewrite IH. f_equal. lia.
  - rewrite IH. f_equal. lia.
Qed.

Lemma brace_loop_balanced p :
  balanced p → ∀ rest i bc, (1 ≤ bc)%Z →
    brace_loop (p ++ rest) i bc false false
    = brace_loop rest (i + length p) bc false false.
Proof.
  induction 1 as [|c p Hq Hl Hr _ IH|s p Hs _ IH|o p _ IHo _ IHp];
    intros rest i bc Hbc; simpl.
  - f_equal. lia.
  - apply N.eqb_neq in Hq, Hl, Hr. rewrite Hq, Hl, Hr, andb_false_r. simpl.
    rewrite IH by done. f_equal. lia.
  - rewrite <- app_assoc. simpl.
    rewrite brace_loop_string by done. rewrite IH by done.
    f_equal. rewrite length_app. simpl. lia.
  - rewrite <- app_assoc. simpl.
    rewrite IHo by lia. simpl.
    replace (bc + 1 - 1)%Z with bc by lia.
    destruct (Z.eqb_spec bc 0); [lia|].
    rewrite IHp by done. f_equal. rewrite length_app. simpl. lia.
Qed.

End BraceScanFacts.

(** C2. For a payload whose braces outside quoted strings pair up, with
    any braces at all inside its quoted strings and any escaped character
    there, the balanced-brace scan started at the opening brace ends just
    after the brace that closes the payload, and not before: braces in a
    quoted string are not counted, a quote toggles the string flag unless
    a backslash inside a string precedes it, and a backslash takes one
    character. *)
Theorem findJsonEnd_balanced (before payload after : list N) :
  balanced payload →
  findJsonEnd (before ++ lbrace :: payload ++ rbrace :: after) (length before)
  = Some (length before + length payload + 2).
Proof.
  intros Hbal. unfold findJsonEnd. rewrite drop_app_length. simpl.
  rewrite brace_loop_balanced by (done || lia). simpl.
  f_equal. lia.
Qed.

(** The payload of the specification's example, a brace pair inside a
    quoted string: the scan ends at offset 28, the length of the payload. *)
Lemma findJsonEnd_balanced_witness :
  findJsonEnd (lit "{`prompt`:`a {cat} sitting`}") 0 = Some 28.
Proof.
  apply (findJsonEnd_balanced [] (lit "`prompt`:`a {cat} sitting`") []).
  apply (bal_string (lit "prompt") (lit ":`a {cat} sitting`")).
  { repeat (apply sb_plain; [done|done|]). apply sb_nil. }
  apply bal_plain; [done..|].
  apply (bal_string (lit "a {cat} sitting") []).
  { repeat (apply sb_plain; [done|done|]). apply sb_nil. }
  apply bal_nil.
Defined.

(** ** Progress of the two scanning loops *)

Section Progress.
Variable net : nat → list N → fetch_result.
Variable t : list N.
Variable opts : options.

Lemma imgTagMarker_length : length imgTagMarker = 21.
Proof. reflexivity. Qed.

Lemma marker_length : length marker = 9.
Proof. reflexivity. Qed.

Lemma imgTagMarker_nonempty : imgTagMarker ≠ [].
Proof. by vm_compute. Qed.

Lemma marker_nonempty : marker ≠ [].
Proof. by vm_compute. Qed.

(** Where an iteration of the markup loop goes on, its marker lies in
    the text at or after the search position and the next search
    position lies after the marker. *)
Lemma markup_iter_marker nprobes searchPos searchPos' pushed probed warned :
  markup_iter net nprobes t opts searchPos
  = Continue searchPos' pushed probed warned →
  ∃ markerPos,
    indexOf imgTagMarker t searchPos = Some markerPos
    ∧ markerPos < searchPos' ∧ markerPos + 21 ≤ length t.
Proof.
  unfold markup_iter, skip_to.
  destruct (indexOf imgTagMarker t searchPos) as [markerPos|] eqn:Hm; [|done].
  intros H. exists markerPos. split; [done|].
  pose proof (indexOf_bound _ _ _ _ imgTagMarker_nonempty Hm) as Hlen.
  rewrite imgTagMarker_length in Hlen. split; [|done].
  destruct (lastIndexOf _ t markerPos) as [imgStart|]; [|injection H; lia].
  destruct (500 <? markerPos - imgStart); [injection H; lia|].
  destruct (indexOf [lbrace] t _) as [jsonStart|] eqn:Hj; [|injection H; lia].
  destruct (_ <? jsonStart); [injection H; lia|].
  destruct (findJsonEnd t jsonStart) as [jsonEnd|] eqn:He; [|injection H; lia].
  destruct (indexOf [gt_sign] t jsonEnd) as [gtPos|] eqn:Hg; [|injection H; lia].
  apply indexOf_Some in Hj as (Hj & _), Hg as (Hg & _).
  apply findJsonEnd_bounds in He.
  destruct (needsGeneration _ _ _ _) as [needs probed'].
  destruct (negb needs); injection H; lia.
Qed.

Lemma markup_iter_advance nprobes searchPos searchPos' pushed probed warned :
  markup_iter net nprobes t opts searchPos
  = Continue searchPos' pushed probed warned →
  searchPos < searchPos' ∧ searchPos < length t.
Proof.
  intros H. apply markup_iter_marker in H as (m & Hm & ? & ?).
  apply indexOf_Some in Hm as (? & _). lia.
Qed.

Lemma legacy_iter_marker searchStart searchStart' pushed probed warned :
  legacy_iter t searchStart = Continue searchStart' pushed probed warned →
  ∃ markerIndex,
    indexOf marker t searchStart = Some markerIndex
    ∧ markerIndex + 9 ≤ searchStart' ∧ markerIndex + 9 ≤ length t.
Proof.
  unfold legacy_iter, skip_to.
  destruct (indexOf marker t searchStart) as [markerIndex|] eqn:Hm; [|done].
  intros H. exists markerIndex. split; [done|].
  pose proof (indexOf_bound _ _ _ _ marker_nonempty Hm) as Hlen.
  rewrite marker_length in *. split; [|done].
  destruct (findJsonEnd t _) as [jsonEnd|] eqn:He; [|injection H; lia].
  apply findJsonEnd_bounds in He.
  destruct (negb _); injection H; lia.
Qed.

Lemma legacy_iter_advance searchStart searchStart' pushed probed warned :
  legacy_iter t searchStart = Continue searchStart' pushed probed warned →
  searchStart < searchStart' ∧ searchStart < length t.
Proof.
  intros H. apply legacy_iter_marker in H as (m & Hm & ? & ?).
  apply indexOf_Some in Hm as (? & _). lia.
Qed.

Lemma markup_loop_enough fuel searchPos acc :
  0 < fuel → length t < fuel + searchPos →
  is_Some (markup_loop fuel net t opts searchPos acc).
Proof.
  revert searchPos acc.
  induction fuel as [|fuel IH]; intros searchPos acc Hpos Hfuel; [lia|].
  simpl. destruct (markup_iter _ _ _ _ _) eqn:Hit; [by eexists|].
  apply markup_iter_advance in Hit. apply IH; lia.
Qed.

Lemma legacy_loop_enough fuel searchStart acc :
  0 < fuel → length t < fuel + searchStart →
  is_Some (legacy_loop fuel t searchStart acc).
Proof.
  revert searchStart acc.
  induction fuel as [|fuel IH]; intros searchStart acc Hpos Hfuel; [lia|].
  simpl. destruct (legacy_iter _ _) eqn:Hit; [by eexists|].
  apply legacy_iter_advance in Hit. apply IH; lia.
Qed.

(** Rounds beyond the one that breaks are never run. *)
Lemma markup_loop_more fuel extra searchPos acc r :
  markup_loop fuel net t opts searchPos acc = Some r →
  markup_loop (fuel + extra) net t opts searchPos acc = Some r.
Proof.
  revert searchPos acc.
  induction fuel as [|fuel IH]; intros searchPos acc; simpl; [done|].
  destruct (markup_iter _ _ _ _ _); [done|]. apply IH.
Qed.

Lemma legacy_loop_more fuel extra searchStart acc r :
  legacy_loop fuel t searchStart acc = Some r →
  legacy_loop (fuel + extra) t searchStart acc = Some r.
Proof.
  revert searchStart acc.
  induction fuel as [|fuel IH]; intros searchStart acc; simpl; [done|].
  destruct (legacy_iter _ _); [done|]. apply IH.
Qed.

End Progress.

(** C10. The scan terminates on every text: an iteration of either loop
    that does not break moves its search position strictly forward, on
    every path through the iteration, and starts before the end of the
    text; so the scan returns a result, and the same one for any larger
    number of rounds allowed. *)
Theorem parseImageTags_terminates (net : nat → list N → fetch_result)
        (t : list N) (opts : options) :
  (∀ nprobes searchPos searchPos' pushed probed warned,
      markup_iter net nprobes t opts searchPos
      = Continue searchPos' pushed probed warned →
      searchPos < searchPos' ∧ searchPos < length t)
  ∧ (∀ searchStart searchStart' pushed probed warned,
        legacy_iter t searchStart = Continue searchStart' pushed probed warned →
        searchStart < searchStart' ∧ searchStart < length t)
  ∧ ∃ result,
      parseImageTags net t opts = Some result
      ∧ ∀ fuel, length t < fuel → parseImageTags_fuel fuel net t opts = Some result.
Proof.
  split; [apply markup_iter_advance|]. split; [apply legacy_iter_advance|].
  unfold parseImageTags, parseImageTags_fuel.
  destruct (markup_loop_enough net t opts (S (length t)) 0
              {| tags := []; probes := []; warnings := 0 |}) as [acc Hacc]; [lia..|].
  destruct (legacy_loop_enough t (S (length t)) 0 acc) as [res Hres]; [lia..|].
  exists res. rewrite Hacc. split; [done|].
  intros fuel Hfuel. replace fuel with (S (length t) + (fuel - S (length t))) by lia.
  rewrite (markup_loop_more _ _ _ _ _ _ _ _ Hacc).
  by apply legacy_loop_more.
Qed.

(** ** What an iteration pushes, and loop invariants *)

Section Iterations.
Variable net : nat → list N → fetch_result.
Variable t : list N.
Variable opts : options.

Lemma try_push_Some normalizedJson fm idx isNew src tg :
  try_push normalizedJson fm idx isNew src = Some tg →
  fullMatch tg = fm ∧ index tg = idx ∧ isNewFormat tg = isNew
  ∧ existingSrc tg = src.
Proof.
  unfold try_push, make_tag.
  destruct (JSON_parse normalizedJson) as [data|]; [|done].
  destruct data; intros [= <-]; done.
Qed.

Lemma slice_tag tg a b :
  a ≤ b → b ≤ length t →
  fullMatch tg = substring t a b → index tg = a →
  tag_slice t tg ∧ tag_end tg = b.
Proof.
  intros Hab Hb Hfm Hidx. unfold tag_slice, tag_end.
  rewrite Hfm, Hidx, substring_length by done.
  replace (a + (b - a)) with b by lia. done.
Qed.

Lemma markup_iter_pushed nprobes searchPos searchPos' tg probed warned :
  markup_iter net nprobes t opts searchPos
  = Continue searchPos' (Some tg) probed warned →
  isNewFormat tg = true ∧ tag_slice t tg ∧ tag_end tg = searchPos'
  ∧ searchPos < searchPos'.
Proof.
  intros H. pose proof (markup_iter_advance _ _ _ _ _ _ _ _ _ H) as [Hadv _].
  revert H. unfold markup_iter, skip_to.
  destruct (indexOf imgTagMarker t searchPos) as [markerPos|] eqn:Hm; [|done].
  destruct (lastIndexOf _ t markerPos) as [imgStart|] eqn:Hi; [|done].
  destruct (500 <? markerPos - imgStart); [done|].
  destruct (indexOf [lbrace] t _) as [jsonStart|] eqn:Hj; [|done].
  destruct (_ <? jsonStart); [done|].
  destruct (findJsonEnd t jsonStart) as [jsonEnd|] eqn:He; [|done].
  destruct (indexOf [gt_sign] t jsonEnd) as [gtPos|] eqn:Hg; [|done].
  destruct (needsGeneration _ _ _ _) as [needs probed'].
  destruct (negb needs); [done|].
  intros [= <- Hpush _ _].
  apply try_push_Some in Hpush as (Hfm & Hidx & Hnew & _).
  apply lastIndexOf_Some in Hi as [Hi _].
  apply indexOf_Some in Hj as (Hj & _).
  apply findJsonEnd_bounds in He.
  pose proof (indexOf_bound [gt_sign] _ _ _ ltac:(discriminate) Hg) as Hgb. simpl in Hgb.
  apply indexOf_Some in Hg as (Hg & _).
  destruct (slice_tag tg imgStart (gtPos + 1)) as [Hs He']; [lia|lia|done..|].
  done.
Qed.

Lemma legacy_iter_pushed searchStart searchStart' tg probed warned :
  legacy_iter t searchStart = Continue searchStart' (Some tg) probed warned →
  isNewFormat tg = false ∧ tag_slice t tg ∧ tag_end tg = searchStart'
  ∧ searchStart ≤ index tg.
Proof.
  unfold legacy_iter, skip_to.
  destruct (indexOf marker t searchStart) as [markerIndex|] eqn:Hm; [|done].
  destruct (findJsonEnd t _) as [jsonEnd|] eqn:He; [|done].
  destruct (startsWith [rbracket] (substring_from t jsonEnd)) eqn:Hb; [|done].
  simpl. intros [= <- Hpush _ _].
  apply try_push_Some in Hpush as (Hfm & Hidx & Hnew & _).
  apply indexOf_Some in Hm as (Hm & _).
  apply findJsonEnd_bounds in He. rewrite marker_length in He.
  apply startsWith_length in Hb. unfold substring_from in Hb.
  rewrite length_drop in Hb. simpl in Hb.
  destruct (slice_tag tg markerIndex (jsonEnd + 1)) as [Hs He']; [lia|lia|done..|].
  split; [done|]. split; [done|]. split; [done|]. lia.
Qed.

Lemma legacy_iter_no_probe searchStart searchStart' pushed probed warned :
  legacy_iter t searchStart = Continue searchStart' pushed probed warned →
  probed = [].
Proof.
  unfold legacy_iter, skip_to.
  destruct (indexOf marker t searchStart); [|done].
  destruct (findJsonEnd t _); [|by intros [= _ _ <- _]].
  destruct (negb _); by intros [= _ _ <- _].
Qed.

(** A property of the search position and the accumulated result that
    every iteration preserves holds when the loop breaks. *)
Lemma markup_loop_inv (P : nat → scan → Prop) :
  (∀ pos acc pos' pushed probed warned,
      P pos acc →
      markup_iter net (length (probes acc)) t opts pos
      = Continue pos' pushed probed warned →
      P pos' (record acc pushed probed warned)) →
  ∀ fuel pos acc r,
    P pos acc → markup_loop fuel net t opts pos acc = Some r → ∃ pos', P pos' r.
Proof.
  intros Hstep. induction fuel as [|fuel IH]; intros pos acc r HP; simpl; [done|].
  destruct (markup_iter _ _ _ _ _) eqn:Hit.
  - intros [= <-]. by exists pos.
  - apply IH. by eapply Hstep.
Qed.

Lemma legacy_loop_inv (P : nat → scan → Prop) :
  (∀ pos acc pos' pushed probed warned,
      P pos acc →
      legacy_iter t pos = Continue pos' pushed probed warned →
      P pos' (record acc pushed probed warned)) →
  ∀ fuel pos acc r,
    P pos acc → legacy_loop fuel t pos acc = Some r → ∃ pos', P pos' r.
Proof.
  intros Hstep. induction fuel as [|fuel IH]; intros pos acc r HP; simpl; [done|].
  destruct (legacy_iter _ _) eqn:Hit.
  - intros [= <-]. by exists pos.
  - apply IH. by eapply Hstep.
Qed.

Lemma parseImageTags_total : ∃ r, parseImageTags net t opts = Some r.
Proof.
  unfold parseImageTags, parseImageTags_fuel.
  destruct (markup_loop_enough net t opts (S (length t)) 0
              {| tags := []; probes := []; warnings := 0 |}) as [acc ->]; [lia..|].
  apply legacy_loop_enough; lia.
Qed.

(** The tags of a scan: the markup family first, then the legacy one. *)
Lemma parseImageTags_split r :
  parseImageTags net t opts = Some r →
  ∃ acc, markup_loop (S (length t)) net t opts 0
           {| tags := []; probes := []; warnings := 0 |} = Some acc
         ∧ legacy_loop (S (length t)) t 0 acc = Some r.
Proof.
  unfold parseImageTags, parseImageTags_fuel.
  destruct (markup_loop _ _ _ _ _ _) as [acc|]; [|done].
  intros H. by exists acc.
Qed.

End Iterations.

(** ** Ranges of the tags of one scan *)

Section Ranges.
Variable net : nat → list N → fetch_result.
Variable t : list N.
Variable opts : options.

Lemma record_tags_None acc probed warned :
  tags (record acc None probed warned) = tags acc.
Proof. simpl. apply app_nil_r. Qed.

Lemma markup_loop_ranges fuel r :
  markup_loop fuel net t opts 0 {| tags := []; probes := []; warnings := 0 |}
  = Some r →
  Forall (λ tg, isNewFormat tg = true ∧ tag_slice t tg) (tags r)
  ∧ StronglySorted (λ a b, tag_end a < tag_end b) (tags r).
Proof.
  intros H.
  destruct (markup_loop_inv net t opts
    (λ pos acc,
       Forall (λ tg, isNewFormat tg = true ∧ tag_slice t tg ∧ tag_end tg ≤ pos)
              (tags acc)
       ∧ StronglySorted (λ a b, tag_end a < tag_end b) (tags acc)))
    with (fuel := fuel) (pos := 0) (r := r)
         (acc := {| tags := []; probes := []; warnings := 0 |})
    as [pos' [HF HS]]; [| |done|].
  - intros pos acc pos' pushed probed warned [HF HS] Hit.
    pose proof (markup_iter_advance _ _ _ _ _ _ _ _ _ Hit) as [Hadv _].
    assert (Forall (λ tg, isNewFormat tg = true ∧ tag_slice t tg
                          ∧ tag_end tg ≤ pos') (tags acc)) as HF'.
    { eapply Forall_impl; [exact HF|]. simpl. intros tg (? & ? & ?).
      split; [done|]. split; [done|]. lia. }
    destruct pushed as [tg|]; [|by rewrite record_tags_None].
    apply markup_iter_pushed in Hit as (Hnew & Hsl & Hend & _). simpl.
    split.
    + apply Forall_app. split; [done|]. apply Forall_singleton.
      split; [done|]. split; [done|]. lia.
    + apply StronglySorted_app. split; [|split; [done|]].
      * intros a b Ha Hb. apply list_elem_of_singleton in Hb as ->.
        rewrite Forall_forall in HF. destruct (HF a Ha) as (_ & _ & ?). lia.
      * repeat constructor.
  - simpl. split; constructor.
  - split; [|done]. eapply Forall_impl; [exact HF|].
    simpl. intros tg (? & ? & _). done.
Qed.

Lemma legacy_loop_ranges fuel acc r :
  legacy_loop fuel t 0 acc = Some r →
  ∃ legacy,
    tags r = tags acc ++ legacy
    ∧ probes r = probes acc
    ∧ Forall (λ tg, isNewFormat tg = false ∧ tag_slice t tg) legacy
    ∧ StronglySorted (λ a b, tag_end a ≤ index b) legacy.
Proof.
  intros H.
  destruct (legacy_loop_inv t
    (λ pos acc',
       ∃ legacy,
         tags acc' = tags acc ++ legacy
         ∧ probes acc' = probes acc
         ∧ Forall (λ tg, isNewFormat tg = false ∧ tag_slice t tg
                         ∧ tag_end tg ≤ pos) legacy
         ∧ StronglySorted (λ a b, tag_end a ≤ index b) legacy))
    with (fuel := fuel) (pos := 0) (r := r) (acc := acc)
    as [pos' (legacy & Htags & Hpr & HF & HS)]; [| |done|].
  - intros pos acc' pos' pushed probed warned
           (legacy & Htags & Hpr & HF & HS) Hit.
    pose proof (legacy_iter_advance _ _ _ _ _ _ Hit) as [Hadv _].
    pose proof (legacy_iter_no_probe _ _ _ _ _ _ Hit) as ->.
    assert (Forall (λ tg, isNewFormat tg = false ∧ tag_slice t tg
                          ∧ tag_end tg ≤ pos') legacy) as HF'.
    { eapply Forall_impl; [exact HF|]. simpl. intros tg (? & ? & ?).
      split; [done|]. split; [done|]. lia. }
    destruct pushed as [tg|].
    + apply legacy_iter_pushed in Hit as (Hnew & Hsl & Hend & Hidx).
      exists (legacy ++ [tg]). simpl. rewrite Htags, app_nil_r, app_assoc.
      split; [done|]. split; [done|]. split.
      * apply Forall_app. split; [done|]. apply Forall_singleton.
        split; [done|]. split; [done|]. lia.
      * apply StronglySorted_app. split; [|split; [done|]].
        -- intros a b Ha Hb. apply list_elem_of_singleton in Hb as ->.
           rewrite Forall_forall in HF. destruct (HF a Ha) as (_ & _ & ?). lia.
        -- repeat constructor.
    + exists legacy. simpl. by rewrite !app_nil_r.
  - exists []. rewrite app_nil_r.
    split; [done|]. split; [done|]. split; constructor.
  - exists legacy. split; [done|]. split; [done|]. split; [|done].
    eapply Forall_impl; [exact HF|]. simpl. intros tg (? & ? & _). done.
Qed.

End Ranges.

(** C9, as the code has it. Every tag of a scan carries in [fullMatch]
    the contiguous slice of the text that starts at its [index]; the tags
    of the legacy family lie one after the other without overlap, in the
    order found; the tags of the markup family end at strictly increasing
    offsets. *)
Theorem scan_ranges (net : nat → list N → fetch_result) (t : list N)
        (opts : options) :
  ∃ r markup legacy,
    parseImageTags net t opts = Some r
    ∧ tags r = markup ++ legacy
    ∧ Forall (tag_slice t) (tags r)
    ∧ Forall (λ tg, isNewFormat tg = true) markup
    ∧ Forall (λ tg, isNewFormat tg = false) legacy
    ∧ StronglySorted (λ a b, tag_end a ≤ index b) legacy
    ∧ StronglySorted (λ a b, tag_end a < tag_end b) markup.
Proof.
  destruct (parseImageTags_total net t opts) as [r Hr].
  destruct (parseImageTags_split _ _ _ _ Hr) as (acc & Hm & Hl).
  apply markup_loop_ranges in Hm as [HmF HmS].
  apply legacy_loop_ranges in Hl as (legacy & Htags & _ & HlF & HlS).
  exists r, (tags acc), legacy. split; [done|]. split; [done|].
  split; [|split; [|split; [|done]]].
  - rewrite Htags. apply Forall_app. split.
    + eapply Forall_impl; [exact HmF|]. simpl. by intros tg [_ ?].
    + eapply Forall_impl; [exact HlF|]. simpl. by intros tg [_ ?].
  - eapply Forall_impl; [exact HmF|]. simpl. by intros tg [? _].
  - eapply Forall_impl; [exact HlF|]. simpl. by intros tg [? _].
Qed.

(** Ranges that intersect. A second marker attribute with no element
    opening of its own is attached to the preceding one, so two markup
    tags start at the same offset; and a legacy marker in the source
    attribute of a markup element is found by both families. *)
Lemma scan_ranges_overlap :
  (∃ r a b,
      parseImageTags (λ _ _, Response true)
        (lit "<img data-iig-instruction=`{}` src=`[IMG:GEN]`> data-iig-instruction=`{}` src=`[IMG:GEN]`>")
        default_options = Some r
      ∧ tags r = [a; b]
      ∧ ¬ (tag_end a ≤ index b ∨ tag_end b ≤ index a))
  ∧ (∃ r a b,
        parseImageTags (λ _ _, Response true)
          (lit "<img data-iig-instruction='{`prompt`:`x`}' src=`[IMG:GEN:{}]`>")
          default_options = Some r
        ∧ tags r = [a; b]
        ∧ isNewFormat a = true ∧ isNewFormat b = false
        ∧ ¬ (tag_end a ≤ index b ∨ tag_end b ≤ index a)).
Proof.
  split.
  - eexists _, _, _. split; [by vm_compute|]. split; [reflexivity|].
    vm_compute. lia.
  - eexists _, _, _. split; [by vm_compute|]. split; [reflexivity|].
    split; [done|]. split; [done|]. vm_compute. lia.
Qed.

(** ** The existence policy and the network *)

Section Policy.
Implicit Types net : nat → list N → fetch_result.









End Policy.




(** C3, as the code has it. In normal mode with existence checking, a
    source value that is a resolved server-relative path, carries no
    marker and is not the error image, is probed once, and needs
    generation exactly when the probe does not report success: when the
    response is not ok, or when the request itself fails. *)
Theorem needsGeneration_probe (net : nat → list N → fetch_result) (n : nat)
        (opts : options) (srcValue : list N) :
  forceAll opts = false → checkExistence opts = true →
  hasPath srcValue = true → hasMarker srcValue = false →
  hasErrorImage srcValue = false →
  needsGeneration net n opts srcValue
  = (negb (checkFileExists (net n srcValue)), [srcValue])
  ∧ ((needsGeneration net n opts srcValue).1 = true
     ↔ net n srcValue = Response false ∨ net n srcValue = NetworkError).
Proof.
  intros Hf Hc Hp Hm He.
  assert (needsGeneration net n opts srcValue
          = (negb (checkFileExists (net n srcValue)), [srcValue])) as ->.
  { unfold needsGeneration. rewrite Hf, Hc, Hp, Hm, He. simpl.
    destruct srcValue; [done|]. done. }
  split; [done|]. simpl.
  destruct (net n srcValue) as [[]|]; simpl.
  - split; [done | by intros [?|?]].
  - split; [by left | done].
  - split; [by right | done].
Qed.

Lemma needsGeneration_probe_witness :
  needsGeneration (λ _ _, Response false) 0
    {| checkExistence := true; forceAll := false |} (lit "/user/images/a.png")
  = (negb (checkFileExists (Response false)), [lit "/user/images/a.png"])
  ∧ ((needsGeneration (λ _ _, Response false) 0
        {| checkExistence := true; forceAll := false |}
        (lit "/user/images/a.png")).1 = true
     ↔ Response false = Response false ∨ Response false = NetworkError).
Proof.
  apply (needsGeneration_probe (λ _ _, Response false) 0
           {| checkExistence := true; forceAll := false |}
           (lit "/user/images/a.png")); reflexivity.
Defined.

(** A probe that throws leads to regeneration: [checkFileExists] answers
    [false] in its [catch], and the scan returns the tag. *)
Lemma probe_exception_regenerates :
  let srcValue := lit "/user/images/a.png" in
  let opts := {| checkExistence := true; forceAll := false |} in
  let net : nat → list N → fetch_result := λ _ _, NetworkError in
  hasPath srcValue = true
  ∧ hasMarker srcValue = false ∧ hasErrorImage srcValue = false
  ∧ (needsGeneration net 0 opts srcValue).1 = true
  ∧ ∃ r tg,
      parseImageTags net
        (lit "<img data-iig-instruction='{`prompt`:`x`}' src=`/user/images/a.png`>")
        opts = Some r
      ∧ tags r = [tg] ∧ existingSrc tg = Some srcValue.
Proof.
  repeat split; try by vm_compute.
  eexists _, _. split; [by vm_compute|]. done.
Qed.

(** ** The retry loop *)

Section RetryFacts.
Import Retry.
Variable c : copy.
Variable call : nat → outcome.
Variable maxR base : Z.

Lemma includes_intro pat a b : includes pat (a ++ pat ++ b) = true.
Proof.
  unfold includes.
  destruct (find_sub pat (a ++ pat ++ b)) eqn:E; [done|].
  pose proof (find_sub_None _ _ (length a) E) as H.
  by rewrite drop_app_length, startsWith_app in H.
Qed.

(** The message of an API error carries its status code. *)
Lemma api_error_includes_status status body :
  includes (str (pretty status)) (api_error_message status body) = true.
Proof.
  unfold api_error_message.
  apply includes_intro.
Qed.

Lemma isRetryable_substring message :
  isRetryable c message = true →
  includes (str "429") message = true ∨ includes (str "502") message = true
  ∨ includes (str "503") message = true ∨ includes (str "504") message = true
  ∨ includes (str "timeout") message = true
  ∨ includes (str "network") message = true.
Proof.
  unfold isRetryable. destruct c; rewrite ?orb_true_iff; tauto.
Qed.

Lemma isRetryable_index_js message :
  isRetryable IndexJs message = true
  ↔ includes (str "429") message = true ∨ includes (str "502") message = true
    ∨ includes (str "503") message = true ∨ includes (str "504") message = true
    ∨ includes (str "timeout") message = true
    ∨ includes (str "network") message = true.
Proof.
  unfold isRetryable. rewrite ?orb_true_iff. tauto.
Qed.

Lemma retry_loop_spec n :
  ∀ attempt remaining lastError,
    (Z.of_nat (attempt + n) ≤ maxR)%Z →
    remaining = Z.to_nat (maxR + 1 - Z.of_nat attempt) →
    (∀ k, attempt ≤ k < attempt + n →
          ∃ message, call k = Threw message ∧ isRetryable c message = true) →
    match call (attempt + n) with
    | Returned _ => True
    | Threw message =>
        isRetryable c message = false ∨ Z.of_nat (attempt + n) = maxR
    end →
    retry_loop c call maxR base remaining attempt lastError
    = (backoff_trace maxR base attempt n
       ++ [StatusGenerating (attempt + n) maxR; CallBackend (attempt + n)],
       match call (attempt + n) with
       | Returned dataUrl => Return dataUrl
       | Threw message => Throw (Some (Failure message))
       end).
Proof.
  induction n as [|n IH]; intros attempt remaining lastError Hle Hrem Hfail Hlast.
  - rewrite Nat.add_0_r in *.
    destruct remaining as [|remaining]; [lia|]. simpl.
    destruct (call attempt) as [dataUrl|message]; [done|].
    destruct Hlast as [->| ->]; [done|].
    by rewrite Z.eqb_refl, orb_true_r.
  - destruct remaining as [|remaining]; [lia|]. simpl.
    destruct (Hfail attempt ltac:(lia)) as (message & -> & Hretry).
    rewrite Hretry. simpl.
    destruct (Z.eqb_spec (Z.of_nat attempt) maxR) as [|_]; [lia|].
    replace (attempt + S n) with (S attempt + n) in * by lia.
    rewrite (IH (S attempt) remaining (Some (Failure message))); try done; try lia.
    intros k Hk. apply Hfail. lia.
Qed.

End RetryFacts.

(** C4, as the code has it. A failure is retried only if its message
    contains one of the substrings 429, 502, 503, 504, timeout, network,
    anywhere in its text; in index.js it is retried if and only if
    attempts remain and the message contains one of them, as that of an
    API error with one of the four status codes does.  When the first
    [n] attempts fail with a message that is retried and attempt [n]
    succeeds, or fails with a message that is not retried or with no
    attempt left, the attempts before it are each followed by a
    notification of the wait, of base delay times two to the attempt,
    and then by the wait; the result is that of attempt [n], and its
    error is passed on as it is. *)
Theorem generateImageWithRetry_policy (c : copy) (s : Retry.settings)
        (call : nat → Retry.outcome) (n : nat) :
  Retry.validateSettings s = [] →
  (Z.of_nat n ≤ Retry.maxRetries s)%Z →
  (∀ k, k < n →
        ∃ message, call k = Retry.Threw message
                   ∧ Retry.isRetryable c message = true) →
  match call n with
  | Retry.Returned _ => True
  | Retry.Threw message =>
      Retry.isRetryable c message = false ∨ Z.of_nat n = Retry.maxRetries s
  end →
  Retry.generateImageWithRetry c s call
  = (backoff_trace (Retry.maxRetries s) (Retry.retryDelay s) 0 n
     ++ [Retry.StatusGenerating n (Retry.maxRetries s); Retry.CallBackend n],
     match call n with
     | Retry.Returned dataUrl => Retry.Return dataUrl
     | Retry.Threw message => Retry.Throw (Some (Retry.Failure message))
     end)
  ∧ (∀ message,
        Retry.isRetryable c message = true →
        includes (str "429") message = true ∨ includes (str "502") message = true
        ∨ includes (str "503") message = true ∨ includes (str "504") message = true
        ∨ includes (str "timeout") message = true
        ∨ includes (str "network") message = true)
  ∧ (∀ message,
        Retry.isRetryable IndexJs message = true
        ↔ includes (str "429") message = true ∨ includes (str "502") message = true
          ∨ includes (str "503") message = true
          ∨ includes (str "504") message = true
          ∨ includes (str "timeout") message = true
          ∨ includes (str "network") message = true)
  ∧ (∀ status body,
        status ∈ [429; 502; 503; 504] →
        Retry.isRetryable IndexJs (Retry.api_error_message status body) = true).
Proof.
  intros Hvalid Hn Hfail Hlast. split; [|split; [|split]].
  - unfold Retry.generateImageWithRetry. rewrite Hvalid.
    apply (retry_loop_spec c call _ _ n 0); try done; try lia.
    intros k Hk. apply Hfail. lia.
  - apply isRetryable_substring.
  - apply isRetryable_index_js.
  - intros status body Hst. apply isRetryable_index_js.
    pose proof (api_error_includes_status status body) as Hinc.
    rewrite !elem_of_cons in Hst.
    destruct Hst as [->|[->|[->|[->|Hst]]]];
      [tauto..|by apply elem_of_nil in Hst].
Qed.

(** The scenario of the specification in index.js: the image is returned;
    the callback is told of a wait of the base delay, then of twice the
    base delay, each before the wait. *)
Lemma generateImageWithRetry_policy_witness :
  Retry.generateImageWithRetry IndexJs scenario_settings scenario_backend
  = ([Retry.StatusGenerating 0 2; Retry.CallBackend 0;
      Retry.StatusRetryIn 1000; Retry.Sleep 1000;
      Retry.StatusGenerating 1 2; Retry.CallBackend 1;
      Retry.StatusRetryIn 2000; Retry.Sleep 2000;
      Retry.StatusGenerating 2 2; Retry.CallBackend 2],
     Retry.Return (str "data:image/png;base64,QUJD")).
Proof.
  refine (proj1 (generateImageWithRetry_policy IndexJs scenario_settings
                   scenario_backend 2 _ _ _ _)).
  - reflexivity.
  - simpl. lia.
  - intros k Hk. eexists. split.
    + destruct k as [|[|k]]; [reflexivity|reflexivity|lia].
    + by vm_compute.
  - exact I.
Defined.

(** The same run in part_000. *)
Example retry_scenario_part_000 :
  Retry.generateImageWithRetry Part000 scenario_settings scenario_backend
  = ([Retry.StatusGenerating 0 2; Retry.CallBackend 0;
      Retry.StatusRetryIn 1000; Retry.Sleep 1000;
      Retry.StatusGenerating 1 2; Retry.CallBackend 1;
      Retry.StatusRetryIn 2000; Retry.Sleep 2000;
      Retry.StatusGenerating 2 2; Retry.CallBackend 2],
     Retry.Return (str "data:image/png;base64,QUJD")).
Proof. by vm_compute. Qed.

(** Failures that the specification does not class as transient are
    retried: an API error with status 400 whose body happens to contain
    429 is, in both copies. *)
Lemma retry_classification_by_substring :
  let s := {| Retry.endpoint := str "https://api.example.com";
              Retry.apiKey := str "key"; Retry.model := str "gpt-image-1";
              Retry.maxRetries := 1; Retry.retryDelay := 1000 |} in
  let quota := Retry.api_error_message 400 (str "quota of 429 images exceeded") in
  spec_transient (Some 400) quota = false
  ∧ (∀ c, Retry.generateImageWithRetry c s (λ _, Retry.Threw quota)
          = ([Retry.StatusGenerating 0 1; Retry.CallBackend 0;
              Retry.StatusRetryIn 1000; Retry.Sleep 1000;
              Retry.StatusGenerating 1 1; Retry.CallBackend 1],
             Retry.Throw (Some (Retry.Failure quota)))).
Proof.
  split; [by vm_compute|]. intros c. destruct c; by vm_compute.
Qed.

(** part_000, whose list lacks 504 and timeout, gives up on a failure
    that index.js retries: an API error with status 504, and a timeout. *)
Example part_000_gives_up_on_504 :
  let s := {| Retry.endpoint := str "https://api.example.com";
              Retry.apiKey := str "key"; Retry.model := str "gpt-image-1";
              Retry.maxRetries := 1; Retry.retryDelay := 1000 |} in
  let gateway := Retry.api_error_message 504 (str "Gateway Time-out") in
  spec_transient (Some 504) gateway = true
  ∧ Retry.generateImageWithRetry Part000 s (λ _, Retry.Threw gateway)
    = ([Retry.StatusGenerating 0 1; Retry.CallBackend 0],
       Retry.Throw (Some (Retry.Failure gateway)))
  ∧ Retry.generateImageWithRetry IndexJs s (λ _, Retry.Threw gateway)
    = ([Retry.StatusGenerating 0 1; Retry.CallBackend 0;
        Retry.StatusRetryIn 1000; Retry.Sleep 1000;
        Retry.StatusGenerating 1 1; Retry.CallBackend 1],
       Retry.Throw (Some (Retry.Failure gateway)))
  ∧ Retry.isRetryable Part000 (str "request timeout") = false
  ∧ Retry.isRetryable IndexJs (str "request timeout") = true.
Proof. repeat split; by vm_compute. Qed.

(** ** The response of a Gemini-style backend *)

Section GeminiFacts.
Import Gemini.

(** What part_000 does with a response whose first candidate carries no
    inline image: it looks for a link in the first text part and returns
    the image behind it, inlined when the download succeeds and as a
    remote URL when it does not; with text and no link it throws the
    refusal, with the finish reason when that is not STOP; with no text it
    throws the generic error. *)
Lemma part_000_without_inline_image download r first others :
  candidates r = Some (first :: others) →
  first_inline (default [] (parts first)) = None →
  handle_result Part000 download r
  = match find_text (default [] (parts first)) with
    | Some txt =>
        match image_link txt with
        | Some imgUrl =>
            match download imgUrl with
            | Some (b :: base64) =>
                Return (str "data:image/jpeg;base64," ++ b :: base64)
            | _ => Return imgUrl
            end
        | None =>
            match finishReason first with
            | Some (x :: reason) =>
                if text_eqb (x :: reason) (str "STOP")
                then Throw (TextWithoutImage (substring txt 0 100))
                else Throw (Refused (x :: reason) (substring txt 0 100))
            | _ => Throw (TextWithoutImage (substring txt 0 100))
            end
        end
    | None => Throw NoImageNoText
    end.
Proof.
  intros Hc Hi. unfold handle_result. rewrite Hc. simpl. by rewrite Hi.
Qed.

(** The three failures of part_000 have different messages, whatever the
    finish reason and the excerpts: their first characters differ. *)
Lemma part_000_messages_distinct reason excerpt excerpt' :
  message (Refused reason excerpt) ≠ message (TextWithoutImage excerpt')
  ∧ message (Refused reason excerpt) ≠ message NoImageNoText
  ∧ message (TextWithoutImage excerpt') ≠ message NoImageNoText.
Proof. repeat split; discriminate. Qed.

(** An answer that is not ok is thrown as an API error whose message
    carries the status, which the retry loop of either copy then tests. *)
Lemma generateImageGemini_api_error c download resp :
  ok resp = false →
  generateImageGemini c download resp
  = Throw (ApiError (status resp) (body_text resp))
  ∧ includes (str (pretty (status resp)))
      (message (ApiError (status resp) (body_text resp))) = true.
Proof.
  intros H. unfold generateImageGemini. rewrite H. split; [done|].
  apply api_error_includes_status.
Qed.

End GeminiFacts.

(** C7 at a response that index.js handles otherwise. The first candidate
    carries no inline image and its text holds a markdown image link.
    part_000 follows the link and returns the image; index.js has no such
    step and throws its one error, the same it throws for a refusal with a
    safety finish reason and for a response with neither image nor text,
    so that its failures cannot be told apart. *)
Lemma index_js_has_no_text_fallback :
  let link := {| Gemini.parts := Some [{| Gemini.inlineData := None;
                                          Gemini.inline_data := None;
                                          Gemini.part_text :=
                                            Some (str "Here: ![fox](https://img.example/fox.png)") |}];
                 Gemini.finishReason := Some (str "STOP") |} in
  let refusal := {| Gemini.parts := Some [{| Gemini.inlineData := None;
                                             Gemini.inline_data := None;
                                             Gemini.part_text :=
                                               Some (str "I cannot draw that.") |}];
                    Gemini.finishReason := Some (str "SAFETY") |} in
  let empty := {| Gemini.parts := None; Gemini.finishReason := Some (str "STOP") |} in
  let respond c :=
    {| Gemini.ok := true; Gemini.status := 200; Gemini.body_text := [];
       Gemini.body := {| Gemini.candidates := Some [c];
                         Gemini.blockReason := None |} |} in
  let download (url : list N) :=
    if text_eqb url (str "https://img.example/fox.png") then Some (str "QUJD") else None in
  Gemini.generateImageGemini Part000 download (respond link)
  = Gemini.Return (str "data:image/jpeg;base64,QUJD")
  ∧ Gemini.generateImageGemini IndexJs download (respond link)
    = Gemini.Throw Gemini.NoImageFound
  ∧ Gemini.generateImageGemini IndexJs download (respond refusal)
    = Gemini.Throw Gemini.NoImageFound
  ∧ Gemini.generateImageGemini IndexJs download (respond empty)
    = Gemini.Throw Gemini.NoImageFound
  ∧ Gemini.generateImageGemini Part000 download (respond refusal)
    = Gemini.Throw (Gemini.Refused (str "SAFETY") (str "I cannot draw that."))
  ∧ Gemini.generateImageGemini Part000 download (respond empty)
    = Gemini.Throw Gemini.NoImageNoText.
Proof. repeat split; by vm_compute. Qed.

(** ** Reconciliation *)

Section ReconcileFacts.
Import Reconcile.

Lemma with_gate_same h : with_gate h (processingMessages h) = h.
Proof. by destruct h. Qed.

(** The receive path reads the gate first: a trigger for a message that
    is in the set does nothing. *)
Lemma processMessageTags_gated c w h messageId :
  messageId ∈ processingMessages h →
  processMessageTags c w h messageId = Some (processingMessages h, []).
Proof.
  intros Hin. unfold processMessageTags, processMessageTags_enter.
  destruct (negb (enabled h)); [done|].
  by destruct (decide (messageId ∈ processingMessages h)).
Qed.

(** The forced path does not: what it does is the same whatever the
    gate holds. *)
Lemma regenerateMessageImages_gate_blind c w h messageId gate :
  snd <$> regenerateMessageImages c w (with_gate h gate) messageId
  = snd <$> regenerateMessageImages c w h messageId.
Proof.
  unfold regenerateMessageImages. simpl.
  destruct (chat h !! messageId) as [m|]; [|done].
  destruct (parseImageTags (net w) (mes m) forced_mode) as [sc|]; [|done].
  destruct (tags sc); [done|].
  destruct (rendered h messageId), c; try done;
    by destruct (regenerate_loop _ _ _ _) as [effects []].
Qed.

Lemma processMessageTags_enter_body h messageId body :
  processMessageTags_enter h messageId = Some body →
  ∃ m, chat h !! messageId = Some m ∧ body = mes m.
Proof.
  unfold processMessageTags_enter.
  destruct (negb (enabled h)); [done|].
  destruct (decide (messageId ∈ processingMessages h)); [done|].
  destruct (chat h !! messageId) as [m|]; [|done].
  destruct (is_user m); [done|]. intros [= <-]. by exists m.
Qed.

End ReconcileFacts.

(** C5. When the scan of the message, made as the receive path makes it,
    returns no tag, [processMessageTags] changes neither the rendered page
    nor the message text and saves nothing: its only effects are the
    existence probes of the scan, and the gate is as before.  Run again
    from the host it leaves, it does the same. *)
Theorem processMessageTags_resolved_noop (c : copy) (w : Reconcile.world)
        (h : Reconcile.host) (messageId : nat) (m : Reconcile.message)
        (sc : scan) :
  Reconcile.chat h !! messageId = Some m →
  parseImageTags (Reconcile.net w) (Reconcile.mes m) Reconcile.normal_mode
  = Some sc →
  tags sc = [] →
  ∃ effects,
    Reconcile.processMessageTags c w h messageId
    = Some (Reconcile.processingMessages h, effects)
    ∧ Forall (λ e, Reconcile.is_mutation e = false ∧ Reconcile.is_save e = false)
             effects
    ∧ Reconcile.processMessageTags c w
        (Reconcile.with_gate h (Reconcile.processingMessages h)) messageId
      = Some (Reconcile.processingMessages h, effects).
Proof.
  intros Hm Hsc Htags.
  assert (∃ effects,
             Reconcile.processMessageTags c w h messageId
             = Some (Reconcile.processingMessages h, effects)
             ∧ Forall (λ e, Reconcile.is_mutation e = false
                            ∧ Reconcile.is_save e = false) effects)
    as (effects & Hrun & Hquiet).
  { unfold Reconcile.processMessageTags.
    destruct (Reconcile.processMessageTags_enter h messageId) as [body|] eqn:He.
    - apply processMessageTags_enter_body in He as (m' & Hm' & ->).
      rewrite Hm in Hm'. injection Hm' as <-.
      rewrite Hsc, Htags. simpl. eexists. split; [done|].
      rewrite app_nil_r. apply Forall_fmap, Forall_true. done.
    - exists []. split; [done|constructor]. }
  exists effects. split; [done|]. split; [done|].
  by rewrite with_gate_same.
Qed.

Lemma processMessageTags_resolved_noop_witness :
  ∃ effects,
    Reconcile.processMessageTags IndexJs (kind_world (Response true)) (quiet_host ∅) 0
    = Some (∅, effects)
    ∧ Forall (λ e, Reconcile.is_mutation e = false ∧ Reconcile.is_save e = false)
             effects
    ∧ Reconcile.processMessageTags IndexJs (kind_world (Response true))
        (Reconcile.with_gate (quiet_host ∅) ∅) 0
      = Some (∅, effects).
Proof.
  apply (processMessageTags_resolved_noop IndexJs (kind_world (Response true))
           (quiet_host ∅) 0 resolved_message
           {| tags := []; probes := [lit "/user/images/fox.png"]; warnings := 0 |}).
  - reflexivity.
  - by vm_compute.
  - reflexivity.
Defined.

(** The same message when the probe reports the file missing: the tag is
    generated again, the page and the text change, the chat is saved. *)
Example processMessageTags_regenerates_missing :
  snd <$> Reconcile.processMessageTags IndexJs (kind_world (Response false))
            (quiet_host ∅) 0
  = Some [Reconcile.Head (lit "/user/images/fox.png");
          Reconcile.Toast Reconcile.Info;
          Reconcile.DomLoading 0; Reconcile.Generating 0;
          Reconcile.SaveImage 0; Reconcile.DomImage 0;
          Reconcile.MesRewrite 0 (Some (str "/user/images/new.png"));
          Reconcile.Toast Reconcile.Success;
          Reconcile.SaveChat].
Proof. by vm_compute. Qed.

(** C6 at a state the gate should close. Message 0 is in the set of
    messages being reconciled.  A trigger of the receive path does
    nothing; the forced regeneration, which never reads the set, scans,
    puts a loading placeholder in the page, generates, rewrites the text
    and saves the chat, and it takes the message out of the set while the
    first reconciliation is still in flight. *)
Lemma regenerate_ignores_gate :
  ∀ c,
    (0 ∈ Reconcile.processingMessages (quiet_host {[0]}))
    ∧ Reconcile.processMessageTags c (kind_world (Response true)) (quiet_host {[0]}) 0
      = Some ({[0]}, [])
    ∧ match Reconcile.regenerateMessageImages c (kind_world (Response true))
              (quiet_host {[0]}) 0 with
      | Some (gate, effects) =>
          (0 ∉ gate)
          ∧ effects = [Reconcile.Toast Reconcile.Info;
                       Reconcile.DomLoading 0; Reconcile.Generating 0;
                       Reconcile.SaveImage 0; Reconcile.DomImage 0;
                       Reconcile.MesRewrite 0 (Some (str "/user/images/new.png"));
                       Reconcile.Toast Reconcile.Success;
                       Reconcile.SaveChat]
      | None => False
      end.
Proof.
  intros c. split; [set_solver|]. split.
  - apply processMessageTags_gated. set_solver.
  - destruct c; vm_compute; (split; [by intros [=]|reflexivity]).
Qed.

(** The receive path reads the gate before the scan and enters the
    message after it.  A second trigger that arrives while the scan of the
    first is suspended on a probe passes the test as well, and when it
    resumes it does not look at the gate again: both reconcile. *)
Example receive_gate_set_after_scan :
  let unresolved :=
    {| Reconcile.mes := lit "<img data-iig-instruction='{`prompt`:`a red fox`}' src=`[IMG:GEN]`>";
       Reconcile.is_user := false |} in
  let h gate := {| Reconcile.enabled := true;
                   Reconcile.processingMessages := gate;
                   Reconcile.chat := [unresolved];
                   Reconcile.rendered := λ _, Reconcile.Rendered |} in
  let reconciled :=
    [Reconcile.Toast Reconcile.Info;
     Reconcile.DomLoading 0; Reconcile.Generating 0;
     Reconcile.SaveImage 0; Reconcile.DomImage 0;
     Reconcile.MesRewrite 0 (Some (str "/user/images/new.png"));
     Reconcile.Toast Reconcile.Success;
     Reconcile.SaveChat] in
  match parseImageTags (λ _ _, Response true) (Reconcile.mes unresolved)
          Reconcile.normal_mode with
  | Some sc =>
      Reconcile.processMessageTags_enter (h ∅) 0 = Some (Reconcile.mes unresolved)
      ∧ (Reconcile.processMessageTags_resume IndexJs (kind_world (Response true))
           (h ∅) 0 (tags sc)).2 = reconciled
      ∧ (Reconcile.processMessageTags_resume IndexJs (kind_world (Response true))
           (h {[0]}) 0 (tags sc)).2 = reconciled
  | None => False
  end.
Proof. vm_compute. by repeat split. Qed.

(** A [processTag] that rejects.  The prompt of the payload is a number:
    [tag.prompt.substring] throws before anything is put into the page,
    the message leaves the gate and the chat is not saved.  And a
    generation that throws [undefined], as with a negative [maxRetries]:
    the loading placeholder stays in the page and the chat is not saved;
    on the forced path the message stays in the gate as well. *)
Example reconciliation_left_by_exception :
  let numbered :=
    {| Reconcile.mes := lit "<img data-iig-instruction='{`prompt`:5}' src=`[IMG:GEN]`>";
       Reconcile.is_user := false |} in
  let h := {| Reconcile.enabled := true;
              Reconcile.processingMessages := ∅;
              Reconcile.chat := [numbered];
              Reconcile.rendered := λ _, Reconcile.Rendered |} in
  let w := {| Reconcile.net := λ _ _, Response false;
              Reconcile.generate := λ _ _, Reconcile.GenerationThrewUndefined;
              Reconcile.saveImageToFile := λ _, Some (str "/user/images/new.png");
              Reconcile.existingImg := λ _, true |} in
  (∀ c, Reconcile.processMessageTags c (kind_world (Response true)) h 0
        = Some (∅, [Reconcile.Toast Reconcile.Info]))
  ∧ (∀ c, Reconcile.processMessageTags c w (quiet_host ∅) 0
          = Some (∅, [Reconcile.Head (lit "/user/images/fox.png");
                      Reconcile.Toast Reconcile.Info;
                      Reconcile.DomLoading 0; Reconcile.Generating 0]))
  ∧ (∀ c, Reconcile.regenerateMessageImages c w (quiet_host ∅) 0
          = Some ({[0]}, [Reconcile.Toast Reconcile.Info;
                          Reconcile.DomLoading 0; Reconcile.Generating 0])).
Proof. repeat split; intros c; destruct c; by vm_compute. Qed.

(** ** Texts made of well-formed markers *)

Section Occurrences.
Implicit Types pat t s : list N.

Lemma startsWith_lookup pat u :
  startsWith pat u = true ↔ ∀ k c, pat !! k = Some c → u !! k = Some c.
Proof.
  revert u. induction pat as [|p pat IH]; intros u; simpl.
  - split; [intros _ k c Hk; by rewrite lookup_nil in Hk | done].
  - destruct u as [|d u].
    + split; [done|]. intros H. specialize (H 0 p eq_refl). done.
    + rewrite andb_true_iff, N.eqb_eq, IH. split.
      * intros [-> H] [|k] c; simpl; [done|]. apply H.
      * intros H. split.
        -- specialize (H 0 p eq_refl). by injection H.
        -- intros k c Hk. apply (H (S k) c Hk).
  Qed.

Lemma startsWith_false_head pat t j c d :
  pat !! 0 = Some c → t !! j = Some d → d ≠ c →
  startsWith pat (drop j t) = false.
Proof.
  intros Hp Ht Hne. destruct (startsWith pat (drop j t)) eqn:E; [|done].
  rewrite startsWith_lookup in E. specialize (E 0 c Hp).
  rewrite lookup_drop, Nat.add_0_r, Ht in E. congruence.
Qed.

Lemma includes_false pat s j : includes pat s = false → startsWith pat (drop j s) = false.
Proof.
  unfold includes. destruct (find_sub pat s) eqn:E; [done|].
  intros _. by apply find_sub_None.
Qed.

Lemma includes_char_false c s j : includes [c] s = false → s !! j ≠ Some c.
Proof.
  intros H Hj. apply (includes_false _ _ j) in H.
  assert (startsWith [c] (drop j s) = true) as H'; [|congruence].
  apply startsWith_lookup. intros [|k] d; simpl; [|by rewrite lookup_nil].
  intros [= <-]. by rewrite lookup_drop, Nat.add_0_r.
Qed.

(** No occurrence starts in a stretch of prose that has none inside, when
    what follows begins with a character that the pattern has at most as
    its first. *)
Lemma no_occurrence_in_prose pat s rest j :
  includes pat s = false →
  (∀ k c, 1 ≤ k → pat !! k = Some c → head rest ≠ Some c) →
  j < length s →
  startsWith pat (drop j (s ++ rest)) = false.
Proof.
  intros Hfree Hhead Hj.
  destruct (startsWith pat (drop j (s ++ rest))) eqn:E; [|done]. exfalso.
  rewrite startsWith_lookup in E.
  destruct (decide (j + length pat ≤ length s)) as [Hin|Hout].
  - apply (includes_false _ _ j) in Hfree.
    assert (startsWith pat (drop j s) = true) as H'; [|congruence].
    apply startsWith_lookup. intros k c Hk.
    pose proof (lookup_lt_Some _ _ _ Hk) as Hlt.
    specialize (E k c Hk). rewrite lookup_drop in *.
    by rewrite lookup_app_l in E by lia.
  - destruct (lookup_lt_is_Some_2 pat (length s - j) ltac:(lia)) as [c Hc].
    specialize (E _ c Hc). rewrite lookup_drop in E.
    replace (j + (length s - j)) with (length s + 0) in E by lia.
    rewrite lookup_app_r, Nat.add_0_r, Nat.sub_diag in E by lia.
    apply (Hhead (length s - j) c); [lia|done|].
    by rewrite <- head_lookup in E.
Qed.

(** No occurrence starts inside a piece that has none inside and ends
    with a character foreign to the pattern. *)
Lemma no_occurrence_in_piece pat x d rest j :
  includes pat (x ++ [d]) = false →
  (∀ k, pat !! k ≠ Some d) →
  j ≤ length x →
  startsWith pat (drop j ((x ++ [d]) ++ rest)) = false.
Proof.
  intros Hfree Hd Hj.
  destruct (startsWith pat (drop j ((x ++ [d]) ++ rest))) eqn:E; [|done]. exfalso.
  rewrite startsWith_lookup in E.
  destruct (decide (j + length pat ≤ length x + 1)) as [Hin|Hout].
  - apply (includes_false _ _ j) in Hfree.
    assert (startsWith pat (drop j (x ++ [d])) = true) as H'; [|congruence].
    apply startsWith_lookup. intros k c Hk.
    pose proof (lookup_lt_Some _ _ _ Hk) as Hlt.
    specialize (E k c Hk). rewrite lookup_drop in *.
    rewrite lookup_app_l in E; [done|]. rewrite length_app. simpl. lia.
  - destruct (lookup_lt_is_Some_2 pat (length x - j) ltac:(lia)) as [c Hc].
    specialize (E _ c Hc). rewrite lookup_drop in E.
    replace (j + (length x - j)) with (length x) in E by lia.
    rewrite <- app_assoc in E. rewrite lookup_app_r in E by lia.
    rewrite Nat.sub_diag in E. simpl in E. injection E as <-.
    by apply (Hd (length x - j)).
Qed.

Lemma indexOf_char t p g c rest :
  drop p t = g ++ c :: rest → includes [c] g = false →
  indexOf [c] t p = Some (p + length g).
Proof.
  intros Hd Hg. apply indexOf_intro; [lia| |].
  - rewrite <- drop_drop, Hd, drop_app_length. simpl. by rewrite N.eqb_refl.
  - intros j Hj.
    destruct (lookup_lt_is_Some_2 g (j - p) ltac:(lia)) as [e He].
    apply (startsWith_false_head _ _ _ c e); [done| |].
    + replace j with (p + (j - p)) by lia.
      rewrite <- lookup_drop, Hd. by rewrite lookup_app_l by lia.
    + intros ->. by apply (includes_char_false _ _ _ Hg) in He.
Qed.

Lemma rfind_intro pat t k start :
  start ≤ k → startsWith pat (drop start t) = true →
  (∀ j, start < j ≤ k → startsWith pat (drop j t) = false) →
  rfind pat t k = Some start.
Proof.
  intros Hle Hs Hno. induction k as [|k IH].
  - assert (start = 0) as -> by lia. simpl. by rewrite Hs.
  - simpl. destruct (decide (start = S k)) as [->|Hne].
    + by rewrite Hs.
    + rewrite Hno by lia. apply IH; [lia|]. intros j Hj. apply Hno. lia.
Qed.

Lemma substring_drop t a x rest :
  drop a t = x ++ rest → substring t a (a + length x) = x.
Proof.
  intros Hd. destruct (decide (a ≤ length t)) as [Hle|Hgt].
  - assert (a + length x ≤ length t).
    { apply (f_equal length) in Hd. rewrite length_drop, length_app in Hd. lia. }
    rewrite substring_slice by lia. rewrite Hd.
    replace (a + length x - a) with (length x) by lia.
    by rewrite take_app_length.
  - rewrite drop_ge in Hd by lia.
    symmetry in Hd. apply app_eq_nil in Hd as [-> _].
    unfold substring. simpl.
    replace (a `min` length t) with (length t) by lia.
    replace ((a + 0) `min` length t) with (length t) by lia.
    by rewrite Nat.max_id, Nat.min_id, Nat.sub_diag, take_0.
Qed.

Lemma findJsonEnd_payload t jsonStart body after :
  drop jsonStart t = lbrace :: body ++ rbrace :: after →
  balanced body →
  findJsonEnd t jsonStart = Some (jsonStart + length body + 2).
Proof.
  intros Hd Hbal. unfold findJsonEnd. rewrite Hd. simpl.
  rewrite brace_loop_balanced by (done || lia). simpl.
  f_equal. lia.
Qed.

End Occurrences.

Section Sites.
Variable net : nat → list N → fetch_result.
Variable opts : options.

Lemma needsGeneration_selected nprobes srcValue :
  selected opts srcValue → needsGeneration net nprobes opts srcValue = (true, []).
Proof.
  unfold selected, needsGeneration. intros [->|[-> [->| ->]]].
  - by rewrite andb_false_r.
  - simpl. by destruct (forceAll opts).
  - simpl. by destruct (forceAll opts).
Qed.

Lemma legacy_iter_at t pos before body after :
  t = before ++ render (LegacyMarker body) ++ after →
  pos ≤ length before →
  (∀ j, pos ≤ j < length before → startsWith marker (drop j t) = false) →
  balanced body →
  legacy_iter t pos
  = let pushed :=
      try_push (normalize_legacy (payload body)) (render (LegacyMarker body))
        (length before) false None in
    Continue (length before + length (render (LegacyMarker body))) pushed []
      (match pushed with Some _ => false | None => true end).
Proof.
  intros Ht Hpos Hno Hbal. simpl in Ht.
  assert (drop (length before) t
          = marker ++ lbrace :: body ++ [rbrace; rbracket] ++ after) as Hd0.
  { rewrite Ht, drop_app_length. by rewrite <- !app_assoc. }
  assert (drop (length before + length marker) t
          = lbrace :: body ++ rbrace :: rbracket :: after) as Hd1.
  { by rewrite <- drop_drop, Hd0, drop_app_length. }
  assert (indexOf marker t pos = Some (length before)) as Hidx.
  { apply indexOf_intro; [done| |done]. rewrite Hd0. apply startsWith_app. }
  pose proof (findJsonEnd_payload _ _ _ _ Hd1 Hbal) as Hend.
  assert (drop (length before + length marker + length body + 2) t
          = rbracket :: after) as Hd2.
  { replace (length before + length marker + length body + 2)
      with (length before + length marker + length (lbrace :: body ++ [rbrace]))
      by (simpl; rewrite length_app; simpl; lia).
    rewrite <- drop_drop, Hd1.
    change (lbrace :: body ++ rbrace :: rbracket :: after)
      with ((lbrace :: body) ++ rbrace :: rbracket :: after).
    replace ((lbrace :: body) ++ rbrace :: rbracket :: after)
      with ((lbrace :: body ++ [rbrace]) ++ rbracket :: after)
      by (simpl; by rewrite <- app_assoc).
    by rewrite drop_app_length. }
  unfold legacy_iter. rewrite Hidx, Hend. unfold substring_from. rewrite Hd2.
  simpl negb. cbv iota.
  assert (substring t (length before + length marker)
            (length before + length marker + length body + 2) = payload body) as ->.
  { replace (length before + length marker + length body + 2)
      with (length before + length marker + length (payload body))
      by (unfold payload; simpl; rewrite length_app; simpl; lia).
    apply (substring_drop _ _ _ (rbracket :: after)). rewrite Hd1.
    unfold payload. simpl. by rewrite <- app_assoc. }
  assert (length (render (LegacyMarker body))
          = length marker + length body + 3) as Hlen.
  { simpl. rewrite !length_app. simpl. lia. }
  assert (substring t (length before)
            (length before + length marker + length body + 2 + 1)
          = render (LegacyMarker body)) as ->.
  { replace (length before + length marker + length body + 2 + 1)
      with (length before + length (render (LegacyMarker body))) by lia.
    apply (substring_drop _ _ _ after). rewrite Hd0. simpl.
    by rewrite <- !app_assoc. }
  cbv zeta. f_equal. lia.
Qed.

End Sites.

Section MarkupSite.
Variable net : nat → list N → fetch_result.
Variable opts : options.

Lemma render_markup_app attrs gap body rest after :
  render (MarkupElement attrs gap body rest) ++ after
  = str "<img" ++ attrs ++ imgTagMarker ++ gap
    ++ lbrace :: body ++ rbrace :: rest ++ gt_sign :: after.
Proof.
  unfold render. rewrite <- !app_assoc. do 4 f_equal.
  rewrite <- app_comm_cons. f_equal. rewrite <- app_assoc.
  f_equal. rewrite <- app_comm_cons. f_equal. by rewrite <- app_assoc.
Qed.

Lemma render_markup_length attrs gap body rest :
  length (render (MarkupElement attrs gap body rest))
  = 4 + length attrs + 21 + length gap + length body + 2 + length rest + 1.
Proof.
  unfold render. rewrite !length_app. simpl. rewrite !length_app. simpl.
  rewrite !length_app. simpl. lia.
Qed.

(** Between the opening of the element and its marker attribute no
    other element opens. *)
Lemma markup_opening_free attrs tail i :
  includes (str "<img") attrs = false → 1 ≤ i ≤ 4 + length attrs →
  startsWith (str "<img") (drop i (str "<img" ++ attrs ++ imgTagMarker ++ tail))
  = false.
Proof.
  intros Hattrs Hi.
  change (str "<img" ++ attrs ++ imgTagMarker ++ tail)
    with (60%N :: 105%N :: 109%N :: 103%N :: (attrs ++ imgTagMarker ++ tail)).
  destruct i as [|[|[|[|i]]]]; [lia|done..|].
  cbn [drop]. destruct (decide (i < length attrs)) as [Hlt|Hge].
  - apply no_occurrence_in_prose; [done| |done].
    intros k c Hk Hc Hhead. injection Hhead as <-.
    by do 4 (destruct k as [|k]; [done|]).
  - assert (i = length attrs) as -> by lia.
    by rewrite drop_app_length.
Qed.

Lemma markup_iter_at nprobes t pos before attrs gap body rest after :
  let element := render (MarkupElement attrs gap body rest) in
  let srcValue := default [] (srcMatch element) in
  t = before ++ element ++ after →
  pos ≤ length before + 4 + length attrs →
  (∀ j, pos ≤ j < length before + 4 + length attrs →
        startsWith imgTagMarker (drop j t) = false) →
  includes (str "<img") attrs = false → length attrs ≤ 496 →
  includes [lbrace] gap = false → length gap ≤ 10 →
  balanced body →
  includes [gt_sign] rest = false →
  selected opts srcValue →
  markup_iter net nprobes t opts pos
  = let pushed :=
      try_push (normalize_markup (payload body)) element (length before) true
        (if hasPath srcValue then Some srcValue else None) in
    Continue (length before + length element) pushed []
      (match pushed with Some _ => false | None => true end).
Proof.
  intros element srcValue Ht Hpos Hno Hattrs Hattrs_len Hgap Hgap_len Hbal Hrest Hsel.
  set (s := length before) in *.
  set (markerPos := s + 4 + length attrs) in *.
  set (jsonStart := markerPos + length imgTagMarker + length gap).
  assert (drop s t = str "<img" ++ attrs ++ imgTagMarker ++ gap
                     ++ lbrace :: body ++ rbrace :: rest ++ gt_sign :: after) as D0.
  { rewrite Ht. unfold s. rewrite drop_app_length. apply render_markup_app. }
  assert (drop markerPos t = imgTagMarker ++ gap
                             ++ lbrace :: body ++ rbrace :: rest ++ gt_sign :: after) as D1.
  { unfold markerPos. rewrite <- Nat.add_assoc, <- drop_drop, D0.
    rewrite app_assoc.
    rewrite (drop_app_length' (str "<img" ++ attrs)); [done|].
    rewrite length_app. done. }
  assert (drop (markerPos + length imgTagMarker) t
          = gap ++ lbrace :: body ++ rbrace :: rest ++ gt_sign :: after) as D2.
  { by rewrite <- drop_drop, D1, drop_app_length. }
  assert (drop jsonStart t = lbrace :: body ++ rbrace :: rest ++ gt_sign :: after) as D3.
  { unfold jsonStart. by rewrite <- drop_drop, D2, drop_app_length. }
  assert (drop (jsonStart + length body + 2) t = rest ++ gt_sign :: after) as D4.
  { replace (jsonStart + length body + 2)
      with (jsonStart + length (lbrace :: body ++ [rbrace]))
      by (simpl; rewrite length_app; simpl; lia).
    rewrite <- drop_drop, D3.
    replace (lbrace :: body ++ rbrace :: rest ++ gt_sign :: after)
      with ((lbrace :: body ++ [rbrace]) ++ rest ++ gt_sign :: after)
      by (simpl; by rewrite <- app_assoc).
    by rewrite drop_app_length. }
  assert (markerPos + length imgTagMarker ≤ length t) as Hbound.
  { apply (f_equal length) in D1.
    rewrite length_drop, length_app, imgTagMarker_length in D1.
    rewrite imgTagMarker_length. lia. }
  (* the marker attribute *)
  assert (indexOf imgTagMarker t pos = Some markerPos) as Hidx.
  { apply indexOf_intro; [done| |done]. rewrite D1. apply startsWith_app. }
  (* the opening of the element *)
  assert (lastIndexOf (str "<img") t markerPos = Some s) as Hopen.
  { unfold lastIndexOf. replace (markerPos `min` length t) with markerPos by lia.
    apply rfind_intro; [unfold markerPos; lia| |].
    - rewrite D0. apply startsWith_app.
    - intros j Hj. replace j with (s + (j - s)) by lia.
      rewrite <- drop_drop, D0.
      apply markup_opening_free; [done|unfold markerPos in Hj; lia]. }
  pose proof (indexOf_char _ _ _ _ _ D2 Hgap) as Hjson. fold jsonStart in Hjson.
  pose proof (findJsonEnd_payload _ _ _ _ D3 Hbal) as Hend.
  pose proof (indexOf_char _ _ _ _ _ D4 Hrest) as Hgt.
  assert (length before + length element
          = jsonStart + length body + 2 + length rest + 1) as Hlen.
  { unfold element. rewrite render_markup_length.
    unfold jsonStart, markerPos, s. rewrite imgTagMarker_length. lia. }
  assert (substring t s (jsonStart + length body + 2 + length rest + 1) = element)
    as Hfull.
  { rewrite <- Hlen. apply (substring_drop _ _ _ after).
    rewrite Ht. unfold s. by rewrite drop_app_length. }
  assert (substring t jsonStart (jsonStart + length body + 2) = payload body)
    as Hpayload.
  { replace (jsonStart + length body + 2) with (jsonStart + length (payload body))
      by (unfold payload; simpl; rewrite length_app; simpl; lia).
    apply (substring_drop _ _ _ (rest ++ gt_sign :: after)). rewrite D3.
    unfold payload. simpl. by rewrite <- app_assoc. }
  unfold markup_iter. rewrite Hidx, Hopen.
  replace (500 <? markerPos - s) with false
    by (symmetry; apply Nat.ltb_ge; unfold markerPos; lia).
  rewrite Hjson.
  replace (markerPos + length imgTagMarker + 10 <? jsonStart) with false
    by (symmetry; apply Nat.ltb_ge; unfold jsonStart; lia).
  rewrite Hend, Hgt, Hfull, Hpayload.
  fold srcValue. rewrite (needsGeneration_selected net opts _ _ Hsel).
  simpl negb. cbv iota zeta. f_equal. lia.
Qed.

End MarkupSite.

Section Completeness.
Variable net : nat → list N → fetch_result.
Variable opts : options.

Lemma indexOf_None_intro pat t pos :
  (∀ j, pos ≤ j → startsWith pat (drop j t) = false) → indexOf pat t pos = None.
Proof.
  intros Hno. destruct (indexOf pat t pos) as [k|] eqn:E; [|done].
  apply indexOf_Some in E as (Hk & Hs & _). by rewrite Hno in Hs.
Qed.

Lemma startsWith_local pat x tail j :
  startsWith pat (drop j (x ++ tail)) = true → j + length pat ≤ length x →
  startsWith pat (drop j x) = true.
Proof.
  rewrite !startsWith_lookup. intros H Hlen k c Hk.
  pose proof (lookup_lt_Some _ _ _ Hk).
  specialize (H k c Hk). rewrite lookup_drop in *.
  by rewrite lookup_app_l in H by lia.
Qed.

Lemma marker_inner_chars k c :
  1 ≤ k → marker !! k = Some c → c ≠ 91%N ∧ c ≠ 60%N.
Proof.
  intros Hk. do 10 (destruct k as [|k]; [try lia; by intros [= <-]|]).
  done.
Qed.

Lemma imgTagMarker_chars k c :
  imgTagMarker !! k = Some c →
  c ≠ 91%N ∧ c ≠ 60%N ∧ c ≠ rbracket.
Proof.
  do 22 (destruct k as [|k]; [by intros [= <-]|]). done.
Qed.

Lemma marker_no_gt k : marker !! k ≠ Some gt_sign.
Proof. do 10 (destruct k as [|k]; [done|]). done. Qed.

Lemma render_items_head_piece it items final :
  head (render (piece it) ++ render_items items final) = Some 91%N
  ∨ head (render (piece it) ++ render_items items final) = Some 60%N.
Proof. destruct (piece it); [by left | by right]. Qed.

Lemma sites_cons_other markup offset it items :
  is_markup (piece it) ≠ markup →
  sites markup offset (it :: items)
  = sites markup (offset + length (prose it) + length (render (piece it))) items.
Proof.
  intros H. simpl sites.
  destruct (is_markup (piece it)), markup; done.
Qed.

Lemma sites_cons_same markup offset it items :
  is_markup (piece it) = markup →
  sites markup offset (it :: items)
  = (offset + length (prose it), render (piece it))
    :: sites markup (offset + length (prose it) + length (render (piece it))) items.
Proof.
  intros H. simpl sites.
  destruct (is_markup (piece it)), markup; done.
Qed.

Lemma try_push_object normalizedJson members fm idx isNew src :
  JSON_parse normalizedJson = Some (JObj members) →
  ∃ tg, try_push normalizedJson fm idx isNew src = Some tg
        ∧ site tg = (idx, fm).
Proof. intros H. unfold try_push. rewrite H. by eexists. Qed.

(** No marker attribute starts in the prose before a piece. *)
Lemma prose_free_markup before s rest t j :
  t = before ++ s ++ rest →
  well_formed_prose s →
  (head rest = Some 91%N ∨ head rest = Some 60%N) →
  length before ≤ j < length before + length s →
  startsWith imgTagMarker (drop j t) = false.
Proof.
  intros -> [Hfree _] Hhead Hj.
  replace j with (length before + (j - length before)) by lia.
  rewrite drop_app_add. apply no_occurrence_in_prose; [done| |lia].
  intros k c _ Hc Hh. apply imgTagMarker_chars in Hc as (? & ? & _).
  destruct Hhead as [Hhead|Hhead]; rewrite Hhead in Hh; by injection Hh as <-.
Qed.

Lemma prose_free_legacy before s rest t j :
  t = before ++ s ++ rest →
  well_formed_prose s →
  (head rest = Some 91%N ∨ head rest = Some 60%N) →
  length before ≤ j < length before + length s →
  startsWith marker (drop j t) = false.
Proof.
  intros -> [_ Hfree] Hhead Hj.
  replace j with (length before + (j - length before)) by lia.
  rewrite drop_app_add. apply no_occurrence_in_prose; [done| |lia].
  intros k c Hk Hc Hh. apply marker_inner_chars in Hc as (? & ?); [|done].
  destruct Hhead as [Hhead|Hhead]; rewrite Hhead in Hh; by injection Hh as <-.
Qed.

End Completeness.

Section LoopsComplete.
Variable net : nat → list N → fetch_result.
Variable opts : options.
Variable final : list N.
Hypothesis final_prose : well_formed_prose final.

Lemma render_legacy_split body :
  render (LegacyMarker body)
  = (marker ++ lbrace :: body ++ [rbrace]) ++ [rbracket].
Proof.
  unfold render. rewrite <- app_assoc. f_equal.
  rewrite <- app_comm_cons. f_equal. by rewrite <- app_assoc.
Qed.

Lemma render_markup_split attrs gap body rest :
  render (MarkupElement attrs gap body rest)
  = (str "<img" ++ attrs ++ imgTagMarker ++ gap ++ lbrace :: body ++ rbrace :: rest)
    ++ [gt_sign].
Proof.
  unfold render. rewrite <- !app_assoc. do 4 f_equal.
  rewrite <- app_comm_cons. f_equal. rewrite <- app_assoc. f_equal.
Qed.

(** What the markup loop does on a text of well-formed items: from a
    position at or before the items with no marker attribute in between,
    it pushes one tag for each element, in order, and nothing else. *)
Lemma markup_loop_complete items :
  ∀ fuel before pos acc r t,
    t = before ++ render_items items final →
    Forall (well_formed_item opts) items →
    pos ≤ length before →
    (∀ j, pos ≤ j < length before → startsWith imgTagMarker (drop j t) = false) →
    markup_loop fuel net t opts pos acc = Some r →
    ∃ new, tags r = tags acc ++ new
           ∧ map site new = sites true (length before) items
           ∧ probes r = probes acc ∧ warnings r = warnings acc.
Proof.
  induction items as [|it items IH]; intros fuel before pos acc r t Ht Hwf Hpos Hno Hrun.
  - simpl in Ht. destruct fuel as [|fuel]; [done|]. simpl in Hrun.
    unfold markup_iter in Hrun. rewrite indexOf_None_intro in Hrun.
    + injection Hrun as <-. exists []. by rewrite app_nil_r.
    + intros j Hj. destruct (decide (j < length before)) as [Hlt|Hge].
      * apply Hno. lia.
      * rewrite Ht, drop_app_ge by lia. apply includes_false, final_prose.
  - apply Forall_cons in Hwf as [[Hprose Hpiece] Hwf].
    set (rest := render_items items final) in *.
    set (before1 := before ++ prose it).
    set (before2 := before1 ++ render (piece it)).
    assert (t = before ++ prose it ++ render (piece it) ++ rest) as Ht0 by done.
    assert (t = before1 ++ render (piece it) ++ rest) as Ht1.
    { unfold before1. by rewrite <- app_assoc. }
    assert (t = before2 ++ rest) as Ht2.
    { unfold before2. by rewrite <- app_assoc. }
    assert (length before1 = length before + length (prose it)) as Hl1.
    { unfold before1. by rewrite length_app. }
    assert (length before2 = length before1 + length (render (piece it))) as Hl2.
    { unfold before2. by rewrite length_app. }
    assert (∀ j, pos ≤ j < length before1 →
                 startsWith imgTagMarker (drop j t) = false) as Hno1.
    { intros j Hj. destruct (decide (j < length before)) as [Hlt|Hge].
      - apply Hno. lia.
      - apply (prose_free_markup before (prose it) (render (piece it) ++ rest));
          [done|done| |lia].
        apply render_items_head_piece. }
    destruct (piece it) as [body|attrs gap body rest0] eqn:Hp.
    + (* a legacy marker: the loop passes over it *)
      destruct Hpiece as (_ & Hfree & _).
      destruct (IH fuel before2 pos acc r t Ht2 Hwf) as (new & H1 & H2 & H3 & H4);
        [lia| |done|].
      * intros j Hj. destruct (decide (j < length before1)) as [Hlt|Hge].
        -- apply Hno1. lia.
        -- rewrite Ht1, render_legacy_split.
           replace j with (length before1 + (j - length before1)) by lia.
           rewrite drop_app_add. apply no_occurrence_in_piece.
           ++ by rewrite <- render_legacy_split.
           ++ intros k Hk. by apply imgTagMarker_chars in Hk as (_ & _ & ?).
           ++ assert (length (render (LegacyMarker body))
                      = length (marker ++ lbrace :: body ++ [rbrace]) + 1) as Hlen
                by (by rewrite render_legacy_split, length_app).
              lia.
      * exists new. split; [done|]. split; [|done].
        rewrite H2, sites_cons_other by (by rewrite Hp).
        rewrite Hp. f_equal. lia.
    + (* an element: one iteration pushes its tag *)
      destruct Hpiece as (Hbal & Hattrs & Hattrs_len & Hfirst & Hgap & Hgap_len
                          & Hrest & _ & Hsel & (members & Hparse)).
      destruct fuel as [|fuel]; [done|]. simpl in Hrun.
      rewrite (markup_iter_at net opts _ t pos before1 attrs gap body rest0 rest)
        in Hrun; try done.
      * cbv zeta in Hrun.
        destruct (try_push_object _ members
                    (render (MarkupElement attrs gap body rest0)) (length before1) true
                    (if hasPath (default [] (srcMatch (render (MarkupElement attrs gap body rest0))))
                     then Some (default [] (srcMatch (render (MarkupElement attrs gap body rest0))))
                     else None) Hparse) as (tg & Hpush & Hsite).
        rewrite Hpush in Hrun.
        destruct (IH fuel before2
                    (length before1 + length (render (MarkupElement attrs gap body rest0)))
                    (record acc (Some tg) [] false) r t Ht2 Hwf)
          as (new & H1 & H2 & H3 & H4); [lia|intros j Hj; lia|exact Hrun|].
        exists (tg :: new). simpl in H1, H3, H4.
        split; [by rewrite H1, <- app_assoc|].
        split; [|split; [by rewrite H3, app_nil_r | by rewrite H4, Nat.add_0_r]].
        rewrite sites_cons_same by (by rewrite Hp).
        rewrite Hp. cbn [map]. rewrite Hsite, H2, Hl1. do 2 f_equal. lia.
      * lia.
      * intros j Hj. destruct (decide (j < length before1)) as [Hlt|Hge].
        -- apply Hno1. lia.
        -- destruct (startsWith imgTagMarker (drop j t)) eqn:E; [|done]. exfalso.
           rewrite Ht1 in E.
           replace j with (length before1 + (j - length before1)) in E by lia.
           rewrite drop_app_add, render_markup_app in E.
           rewrite !app_assoc in E. rewrite <- (app_assoc (str "<img")) in E.
           rewrite <- !app_assoc in E.
           rewrite (app_assoc (str "<img")), (app_assoc _ imgTagMarker) in E.
           rewrite <- (app_assoc (str "<img")) in E.
           apply startsWith_local in E.
           ++ apply find_sub_Some in Hfirst as [_ Hmin].
              rewrite Hmin in E; [done|lia].
           ++ rewrite !length_app, imgTagMarker_length. simpl. lia.
Qed.

(** What the legacy loop does on such a text: one tag for each bracket
    marker, in order, and nothing else. *)
Lemma legacy_loop_complete items :
  ∀ fuel before pos acc r t,
    t = before ++ render_items items final →
    Forall (well_formed_item opts) items →
    pos ≤ length before →
    (∀ j, pos ≤ j < length before → startsWith marker (drop j t) = false) →
    legacy_loop fuel t pos acc = Some r →
    ∃ new, tags r = tags acc ++ new
           ∧ map site new = sites false (length before) items
           ∧ probes r = probes acc ∧ warnings r = warnings acc.
Proof.
  induction items as [|it items IH]; intros fuel before pos acc r t Ht Hwf Hpos Hno Hrun.
  - simpl in Ht. destruct fuel as [|fuel]; [done|]. simpl in Hrun.
    unfold legacy_iter in Hrun. rewrite indexOf_None_intro in Hrun.
    + injection Hrun as <-. exists []. by rewrite app_nil_r.
    + intros j Hj. destruct (decide (j < length before)) as [Hlt|Hge].
      * apply Hno. lia.
      * rewrite Ht, drop_app_ge by lia. apply includes_false, final_prose.
  - apply Forall_cons in Hwf as [[Hprose Hpiece] Hwf].
    set (rest := render_items items final) in *.
    set (before1 := before ++ prose it).
    set (before2 := before1 ++ render (piece it)).
    assert (t = before ++ prose it ++ render (piece it) ++ rest) as Ht0 by done.
    assert (t = before1 ++ render (piece it) ++ rest) as Ht1.
    { unfold before1. by rewrite <- app_assoc. }
    assert (t = before2 ++ rest) as Ht2.
    { unfold before2. by rewrite <- app_assoc. }
    assert (length before1 = length before + length (prose it)) as Hl1.
    { unfold before1. by rewrite length_app. }
    assert (length before2 = length before1 + length (render (piece it))) as Hl2.
    { unfold before2. by rewrite length_app. }
    assert (∀ j, pos ≤ j < length before1 →
                 startsWith marker (drop j t) = false) as Hno1.
    { intros j Hj. destruct (decide (j < length before)) as [Hlt|Hge].
      - apply Hno. lia.
      - apply (prose_free_legacy before (prose it) (render (piece it) ++ rest));
          [done|done| |lia].
        apply render_items_head_piece. }
    destruct (piece it) as [body|attrs gap body rest0] eqn:Hp.
    + (* a bracket marker: one iteration pushes its tag *)
      destruct Hpiece as (Hbal & _ & (members & Hparse)).
      destruct fuel as [|fuel]; [done|]. simpl in Hrun.
      rewrite (legacy_iter_at t pos before1 body rest Ht1 ltac:(lia) Hno1 Hbal)
        in Hrun.
      cbv zeta in Hrun.
      destruct (try_push_object _ members (render (LegacyMarker body))
                  (length before1) false None Hparse) as (tg & Hpush & Hsite).
      rewrite Hpush in Hrun.
      destruct (IH fuel before2
                  (length before1 + length (render (LegacyMarker body)))
                  (record acc (Some tg) [] false) r t Ht2 Hwf)
        as (new & H1 & H2 & H3 & H4); [lia|intros j Hj; lia|exact Hrun|].
      exists (tg :: new). simpl in H1, H3, H4.
      split; [by rewrite H1, <- app_assoc|].
      split; [|split; [by rewrite H3, app_nil_r | by rewrite H4, Nat.add_0_r]].
      rewrite sites_cons_same by (by rewrite Hp).
      rewrite Hp. cbn [map]. rewrite Hsite, H2, Hl1. do 2 f_equal. lia.
    + (* an element: the loop passes over it *)
      destruct Hpiece as (_ & _ & _ & _ & _ & _ & _ & Hfree & _).
      destruct (IH fuel before2 pos acc r t Ht2 Hwf) as (new & H1 & H2 & H3 & H4);
        [lia| |done|].
      * intros j Hj. destruct (decide (j < length before1)) as [Hlt|Hge].
        -- apply Hno1. lia.
        -- rewrite Ht1, render_markup_split.
           replace j with (length before1 + (j - length before1)) by lia.
           rewrite drop_app_add. apply no_occurrence_in_piece.
           ++ by rewrite <- render_markup_split.
           ++ apply marker_no_gt.
           ++ assert (length (render (MarkupElement attrs gap body rest0))
                      = length (str "<img" ++ attrs ++ imgTagMarker ++ gap
                                ++ lbrace :: body ++ rbrace :: rest0) + 1) as Hlen
                by (by rewrite render_markup_split, length_app).
              lia.
      * exists new. split; [done|]. split; [|done].
        rewrite H2, sites_cons_other by (by rewrite Hp).
        rewrite Hp. f_equal. lia.
Qed.

End LoopsComplete.

Lemma sites_length offset items :
  length (sites true offset items ++ sites false offset items) = length items.
Proof.
  rewrite length_app. revert offset.
  induction items as [|it items IH]; intros offset; [done|].
  simpl. rewrite !length_app. specialize (IH (offset + length (prose it)
                                              + length (render (piece it)))).
  destruct (is_markup (piece it)); simpl; lia.
Qed.

Lemma scan_tags_are_slices (net : nat → list N → fetch_result) (t : list N)
      (opts : options) (r : scan) :
  parseImageTags net t opts = Some r → Forall (tag_slice t) (tags r).
Proof.
  intros Hr. destruct (parseImageTags_split _ _ _ _ Hr) as (acc & Hm & Hl).
  apply markup_loop_ranges in Hm as [HmF _].
  apply legacy_loop_ranges in Hl as (legacy & -> & _ & HlF & _).
  apply Forall_app. split.
  - eapply Forall_impl; [exact HmF|]. simpl. by intros tg [_ ?].
  - eapply Forall_impl; [exact HlF|]. simpl. by intros tg [_ ?].
Qed.

(** C1, as the code has it. On a text made of markers of both families
    separated by prose, each marker well formed, the scan returns exactly
    one tag for each marker, the elements first and then the bracket
    markers, each family in the order of the text; the [fullMatch] of a
    tag is its marker character for character and its [index] the offset
    of the marker; no request is sent and no warning logged.  And on any
    text at all, the [fullMatch] of every tag returned is the slice of the
    text at its [index]. *)
Theorem scan_well_formed_text (net : nat → list N → fetch_result)
        (opts : options) (items : list item) (final : list N) :
  well_formed opts items final →
  (∃ r, parseImageTags net (render_items items final) opts = Some r
        ∧ length (tags r) = length items
        ∧ map site (tags r) = sites true 0 items ++ sites false 0 items
        ∧ probes r = [] ∧ warnings r = 0)
  ∧ (∀ t r, parseImageTags net t opts = Some r → Forall (tag_slice t) (tags r)).
Proof.
  intros [Hitems Hfinal]. split; [|intros t r; apply scan_tags_are_slices].
  destruct (parseImageTags_total net (render_items items final) opts) as [r Hr].
  exists r. split; [done|].
  destruct (parseImageTags_split _ _ _ _ Hr) as (acc & Hm & Hl).
  destruct (markup_loop_complete net opts final Hfinal items _ [] 0 _ acc
              (render_items items final) eq_refl Hitems (Nat.le_refl _)
              ltac:(simpl; intros; lia) Hm)
    as (mtags & Hm1 & Hm2 & Hm3 & Hm4).
  destruct (legacy_loop_complete opts final Hfinal items _ [] 0 _ r
              (render_items items final) eq_refl Hitems (Nat.le_refl _)
              ltac:(simpl; intros; lia) Hl)
    as (ltags & Hl1 & Hl2 & Hl3 & Hl4).
  simpl in *.
  assert (map site (tags r) = sites true 0 items ++ sites false 0 items) as Hsites.
  { by rewrite Hl1, Hm1, map_app, Hm2, Hl2. }
  split; [|split; [done|split; congruence]].
  rewrite <- (sites_length 0 items), <- Hsites. by rewrite length_map.
Qed.

Lemma scan_well_formed_text_witness :
  (∃ r, parseImageTags (λ _ _, NetworkError)
          (render_items example_items (str " world")) default_options = Some r
        ∧ length (tags r) = 2
        ∧ map site (tags r)
          = sites true 0 example_items ++ sites false 0 example_items
        ∧ probes r = [] ∧ warnings r = 0)
  ∧ (∀ t r, parseImageTags (λ _ _, NetworkError) t default_options = Some r →
            Forall (tag_slice t) (tags r)).
Proof.
  apply (scan_well_formed_text (λ _ _, NetworkError) default_options
           example_items (str " world")).
  assert (∀ s, Forall (λ c, c ≠ dquote ∧ c ≠ backslash) s → string_body s) as Hsb.
  { induction 1 as [|c s [??] _ IH]; [apply sb_nil | by apply sb_plain]. }
  assert (∀ s, Forall (λ c, c ≠ dquote ∧ c ≠ backslash) s → balanced [] →
               balanced (dquote :: s ++ [dquote])) as Hq.
  { intros s Hs Hnil. apply (bal_string s []); [by apply Hsb | done]. }
  split; [|split; by vm_compute].
  repeat apply Forall_cons_2; [| |apply Forall_nil_2].
  - split; [split; by vm_compute|]. unfold well_formed_piece, piece.
    split.
    { apply (bal_string (lit "prompt") (lit ":`a {red} fox`")).
      { apply Hsb. by repeat constructor. }
      apply bal_plain; [done..|].
      apply (bal_string (lit "a {red} fox") []); [|apply bal_nil].
      apply Hsb. by repeat constructor. }
    split; [by vm_compute|]. split; [vm_compute; lia|].
    split; [by vm_compute|]. split; [by vm_compute|].
    split; [vm_compute; lia|]. split; [by vm_compute|].
    split; [by vm_compute|].
    split; [right; split; [by vm_compute|left; by vm_compute]|].
    eexists. by vm_compute.
  - split; [split; by vm_compute|]. unfold well_formed_piece, piece.
    split.
    { apply (bal_string (lit "prompt") (lit ":`a red fox`,`style`:`watercolor`")).
      { apply Hsb. by repeat constructor. }
      apply bal_plain; [done..|].
      apply (bal_string (lit "a red fox") (lit ",`style`:`watercolor`")).
      { apply Hsb. by repeat constructor. }
      apply bal_plain; [done..|].
      apply (bal_string (lit "style") (lit ":`watercolor`")).
      { apply Hsb. by repeat constructor. }
      apply bal_plain; [done..|].
      apply (bal_string (lit "watercolor") []); [|apply bal_nil].
      apply Hsb. by repeat constructor. }
    split; [by vm_compute|]. eexists. by vm_compute.
Defined.

(** Markers that are well formed and yet not returned.  A bracket marker
    whose payload is valid JSON with an apostrophe inside a string: the
    normalisation turns the apostrophe into a double quote, the payload no
    longer parses, and the marker is dropped, in every mode.  And an
    element whose source is a resolved path is not returned by a scan
    without options. *)
Lemma scan_drops_well_formed_markers :
  (∃ members, JSON_parse (lit "{`prompt`:`it's`}") = Some (JObj members))
  ∧ parseImageTags (λ _ _, Response true) (lit "[IMG:GEN:{`prompt`:`it's`}]")
      default_options
    = Some {| tags := []; probes := []; warnings := 1 |}
  ∧ parseImageTags (λ _ _, Response true) (lit "[IMG:GEN:{`prompt`:`it's`}]")
      {| checkExistence := true; forceAll := true |}
    = Some {| tags := []; probes := []; warnings := 1 |}
  ∧ parseImageTags (λ _ _, Response true)
      (lit "<img data-iig-instruction='{`prompt`:`x`}' src=`/user/images/fox.png`>")
      default_options
    = Some {| tags := []; probes := []; warnings := 0 |}.
Proof.
  split; [eexists; by vm_compute|]. repeat split; by vm_compute.
Qed.

(* ===================================================================== *)
(** * The rest of the extension *)
(* ===================================================================== *)

(** ** The log buffer *)

Section LogFacts.
Import Log.

Lemma iigLog_step logBuffer c :
  length logBuffer ≤ MAX_LOG_ENTRIES →
  (iigLog logBuffer c).1
  = drop (length logBuffer + 1 - MAX_LOG_ENTRIES) (logBuffer ++ [entry c])
  ∧ length (iigLog logBuffer c).1 ≤ MAX_LOG_ENTRIES.
Proof.
  unfold iigLog, MAX_LOG_ENTRIES. intros Hlen. cbn [fst].
  rewrite length_app. cbn [length].
  destruct (Nat.ltb_spec 200 (length logBuffer + 1)) as [Hfull|Hroom].
  - replace (length logBuffer + 1 - 200) with 1 by lia.
    split; [done|]. rewrite length_drop, length_app. simpl. lia.
  - replace (length logBuffer + 1 - 200) with 0 by lia.
    split; [done|]. rewrite length_app. simpl. lia.
Qed.

Lemma log_all_window calls :
  ∀ logBuffer,
    length logBuffer ≤ MAX_LOG_ENTRIES →
    log_all logBuffer calls
    = drop (length (logBuffer ++ map entry calls) - MAX_LOG_ENTRIES)
        (logBuffer ++ map entry calls).
Proof.
  unfold log_all.
  induction calls as [|c calls IH]; intros logBuffer Hlen.
  - simpl. rewrite app_nil_r.
    by replace (length logBuffer - MAX_LOG_ENTRIES) with 0 by lia.
  - cbn [foldl map].
    destruct (iigLog_step logBuffer c Hlen) as [Hstep Hbound].
    rewrite IH by done. rewrite Hstep.
    set (k := length logBuffer + 1 - MAX_LOG_ENTRIES).
    assert (k ≤ length logBuffer + 1) as Hk by (unfold k; lia).
    assert (length (drop k (logBuffer ++ [entry c])) = length logBuffer + 1 - k)
      as Hd by (rewrite length_drop, length_app; simpl; lia).
    replace (logBuffer ++ entry c :: map entry calls)
      with ((logBuffer ++ [entry c]) ++ map entry calls)
      by (by rewrite <- app_assoc).
    rewrite <- (take_drop k (logBuffer ++ [entry c])) at 3 4.
    rewrite <- app_assoc.
    rewrite !length_app, Hd.
    assert (length (take k (logBuffer ++ [entry c])) = k) as Ht
      by (rewrite length_take, length_app; simpl; lia).
    rewrite Ht.
    rewrite (drop_app_ge (take k _)) by (rewrite Ht; unfold k in *; lia).
    rewrite Ht.
    f_equal. unfold k, MAX_LOG_ENTRIES in *. lia.
Qed.

End LogFacts.

(** The log holds the most recent lines and never more than
    [MAX_LOG_ENTRIES] of them: after any run of calls from the empty
    buffer the program starts with, the buffer is the lines of the last
    two hundred calls, in order. *)
Theorem iigLog_keeps_latest (calls : list Log.call) :
  Log.log_all [] calls
  = drop (length calls - Log.MAX_LOG_ENTRIES) (map Log.entry calls)
  ∧ length (Log.log_all [] calls) = length calls `min` Log.MAX_LOG_ENTRIES.
Proof.
  assert (Log.log_all [] calls
          = drop (length calls - Log.MAX_LOG_ENTRIES) (map Log.entry calls)) as H.
  { rewrite log_all_window by (simpl; lia). simpl. by rewrite length_map. }
  split; [done|]. rewrite H, length_drop, length_map. lia.
Qed.

(** ** The settings object *)

Section SettingsFacts.
Import Settings.

Lemma ensure_keys_lookup defaults :
  ∀ (own : gmap string json) k,
    foldl ensure_key own defaults !! k
    = match own !! k with
      | Some v => Some v
      | None => (list_to_map defaults : gmap string json) !! k
      end.
Proof.
  induction defaults as [|[key v] defaults IH]; intros own k; simpl.
  - rewrite lookup_empty. by destruct (own !! k).
  - rewrite IH. unfold ensure_key. simpl.
    destruct (decide (key = k)) as [->|Hne].
    + rewrite lookup_insert_eq. destruct (own !! k) eqn:Hk; [by rewrite Hk|].
      by rewrite lookup_insert_eq.
    + rewrite lookup_insert_ne by done.
      destruct (own !! key) eqn:Hkey; [done|].
      by rewrite lookup_insert_ne by done.
Qed.

Lemma getSettings_lookup c ext k :
  (getSettings c ext).2 !! k
  = match ext !! MODULE_NAME ≫= (.!! k) with
    | Some v => Some v
    | None => clone_defaults c !! k
    end.
Proof.
  unfold getSettings, clone_defaults. cbn [snd]. rewrite ensure_keys_lookup.
  destruct (ext !! MODULE_NAME) as [own|]; cbn [mbind option_bind]; [done|].
  by destruct (list_to_map (defaultSettings c) !! k).
Qed.

Lemma getSettings_store c ext :
  (getSettings c ext).1 = <[MODULE_NAME := (getSettings c ext).2]> ext.
Proof. unfold getSettings. cbn [fst snd]. reflexivity. Qed.

End SettingsFacts.

(** [getSettings] completes the stored object and overrides nothing: a
    property the stored object has keeps its value, whatever it is, an
    empty string or [false] included; a property it lacks gets its
    default; the object returned is the one left in the store, and the
    settings of the other extensions are as they were. *)
Theorem getSettings_completes (c : copy)
        (extensionSettings : gmap string (gmap string json)) (key : string) :
  let result := Settings.getSettings c extensionSettings in
  result.2 !! key
  = match extensionSettings !! Settings.MODULE_NAME ≫= (.!! key) with
    | Some v => Some v
    | None => Settings.clone_defaults c !! key
    end
  ∧ (key ∈ (Settings.defaultSettings c).*1 → is_Some (result.2 !! key))
  ∧ result.1 !! Settings.MODULE_NAME = Some result.2
  ∧ (∀ other, other ≠ Settings.MODULE_NAME →
              result.1 !! other = extensionSettings !! other).
Proof.
  intros result.
  pose proof (getSettings_lookup c extensionSettings key) as Hlook.
  fold result in Hlook. split; [done|]. split; [|split].
  - intros Hkey. rewrite Hlook.
    destruct (_ ≫= _) as [v|]; [by eexists|].
    unfold Settings.clone_defaults.
    destruct (list_to_map (Settings.defaultSettings c) !! key) eqn:E; [by eexists|].
    by apply not_elem_of_list_to_map_2 in E.
  - unfold result, Settings.getSettings. cbn [fst snd].
    by rewrite lookup_insert_eq.
  - intros other Hne. unfold result, Settings.getSettings. cbn [fst].
    by rewrite lookup_insert_ne.
Qed.

(** Calling [getSettings] again changes nothing: the second call returns
    the same object and leaves the same store. *)
Theorem getSettings_idempotent (c : copy)
        (extensionSettings : gmap string (gmap string json)) :
  Settings.getSettings c (Settings.getSettings c extensionSettings).1
  = Settings.getSettings c extensionSettings.
Proof.
  assert ((Settings.getSettings c (Settings.getSettings c extensionSettings).1).2
          = (Settings.getSettings c extensionSettings).2) as Hsame.
  { apply map_eq. intros k. rewrite !getSettings_lookup.
    rewrite getSettings_store, lookup_insert_eq. cbn [mbind option_bind].
    rewrite getSettings_lookup.
    destruct (extensionSettings !! Settings.MODULE_NAME ≫= (.!! k)); [done|].
    by destruct (Settings.clone_defaults c !! k). }
  apply injective_projections; [|exact Hsame].
  rewrite (getSettings_store c (Settings.getSettings c extensionSettings).1).
  rewrite Hsame, (getSettings_store c extensionSettings).
  apply insert_insert_eq.
Qed.

(** ** The number fields of the settings panel *)

Section InputsFacts.
Import Inputs.
Variable to_number : Z → number.

Lemma parseInt_or_nonzero fallback value :
  fallback ≠ 0%Z → parseInt_or to_number fallback value ≠ Finite 0.
Proof.
  unfold parseInt_or. intros Hf.
  destruct (parseInt to_number value) as [[z|negative]|]; [|done|congruence].
  destruct (Z.eqb_spec z 0); congruence.
Qed.

Lemma pretty_N_char_digit d :
  (d < 10)%N →
  digit_in 10 (N_of_ascii (pretty_N_char d)) = Some d
  ∧ is_space (N_of_ascii (pretty_N_char d)) = false
  ∧ N_of_ascii (pretty_N_char d) ≠ 45%N ∧ N_of_ascii (pretty_N_char d) ≠ 43%N
  ∧ (0 < d → N_of_ascii (pretty_N_char d) ≠ 48)%N.
Proof.
  intros Hd.
  assert (d = 0 ∨ d = 1 ∨ d = 2 ∨ d = 3 ∨ d = 4 ∨ d = 5 ∨ d = 6 ∨ d = 7
          ∨ d = 8 ∨ d = 9)%N as Hcases by lia.
  repeat (destruct Hcases as [->|Hcases]); try subst d;
    (split; [by vm_compute|]); (split; [by vm_compute|]);
    (split; [by vm_compute|]); (split; [by vm_compute|]);
    first [by vm_compute | lia].
Qed.

(** The digits that [pretty] writes before [s] are read back. *)
Lemma digits_pretty x :
  ∀ s acc n,
    ∃ k, digits 10 (str (pretty_N_go x s)) acc n
         = digits 10 (str s) (acc * 10 ^ N.of_nat k + x)%N (n + k)
         ∧ ((0 < x)%N → 0 < k).
Proof.
  induction (N.lt_wf_0 x) as [x _ IH]; intros s acc n.
  destruct (decide (0 < x)%N) as [Hpos|Hzero].
  - rewrite pretty_N_go_step by done.
    destruct (IH (x `div` 10)%N ltac:(by apply N.div_lt)
                (String (pretty_N_char (x `mod` 10)) s) acc n) as (k & -> & _).
    exists (S k). split; [|lia].
    cbn [str digits].
    destruct (pretty_N_char_digit (x `mod` 10)%N) as (-> & _);
      [by apply N.mod_lt|].
    replace (n + S k) with (S (n + k)) by lia.
    f_equal. rewrite Nat2N.inj_succ, N.pow_succ_r'.
    pose proof (N.div_mod x 10 ltac:(done)). lia.
  - assert (x = 0%N) as -> by lia. rewrite pretty_N_go_0.
    exists 0. split; [|lia]. simpl. f_equal; lia.
Qed.

(** The first character that [pretty] writes for a positive number. *)
Lemma pretty_N_go_head x :
  ∀ s, (0 < x)%N →
       ∃ d rest, (0 < d < 10)%N
                 ∧ pretty_N_go x s = String (pretty_N_char d) rest.
Proof.
  induction (N.lt_wf_0 x) as [x _ IH]; intros s Hpos.
  rewrite pretty_N_go_step by done.
  destruct (decide (0 < x `div` 10)%N) as [Hbig|Hsmall].
  - apply IH; [by apply N.div_lt|done].
  - pose proof (N.div_mod x 10 ltac:(done)) as Hdm.
    pose proof (N.mod_lt x 10 ltac:(done)) as Hlt.
    destruct (x `div` 10)%N as [|q] eqn:Hq; [|lia].
    rewrite pretty_N_go_0.
    exists (x `mod` 10)%N, s. split; [lia|done].
Qed.

Lemma parseInt_pretty (n : nat) :
  parseInt to_number (str (pretty n)) = Some (to_number (Z.of_nat n)).
Proof.
  unfold pretty, pretty_nat, pretty, pretty_N.
  destruct (decide (N.of_nat n = 0%N)) as [Hz|Hnz].
  - assert (n = 0) as -> by lia. reflexivity.
  - destruct (pretty_N_go_head (N.of_nat n) "" ltac:(lia)) as (d & rest & Hd & Hshape).
    destruct (digits_pretty (N.of_nat n) "" 0%N 0) as (k & Hdigits & Hk).
    specialize (Hk ltac:(lia)).
    destruct (pretty_N_char_digit d ltac:(lia)) as (_ & Hsp & Hminus & Hplus & Hzero).
    specialize (Hzero ltac:(lia)).
    unfold parseInt. rewrite Hshape in *. cbn [str skip_space]. rewrite Hsp.
    apply N.eqb_neq in Hminus, Hplus, Hzero. rewrite Hminus, Hplus.
    assert (match str rest with
            | b :: r =>
                if (N_of_ascii (pretty_N_char d) =? 48)%N
                   && ((b =? 120)%N || (b =? 88)%N)
                then (16%N, r)
                else (10%N, N_of_ascii (pretty_N_char d) :: str rest)
            | [] => (10%N, N_of_ascii (pretty_N_char d) :: str rest)
            end = (10%N, N_of_ascii (pretty_N_char d) :: str rest)) as ->.
    { destruct (str rest); [done|]. by rewrite Hzero. }
    cbn [str] in Hdigits. rewrite Hdigits. cbn [str digits].
    destruct k as [|k]; [lia|]. rewrite Nat.add_0_l. do 2 f_equal. lia.
Qed.

End InputsFacts.

(** The nearest double of an integer up to 2^53 is the integer. *)
Lemma nearest_double_exact z :
  (- 2 ^ 53 ≤ z ≤ 2 ^ 53)%Z → nearest_double z = Inputs.Finite z.
Proof.
  intros Hz. unfold nearest_double.
  destruct (Z.ltb_spec (Z.abs z) (2 ^ 53)) as [|Hbig]; [done|].
  assert (z = 2 ^ 53 ∨ z = - 2 ^ 53)%Z as [->| ->] by lia; by vm_compute.
Qed.

(** Beyond 2^53 what is stored is a double near the number in the field,
    and an infinity for a number of 400 digits. *)
Example retry_field_rounds :
  Inputs.maxRetries_input nearest_double (str "9007199254740993")
  = Inputs.Finite 9007199254740992
  ∧ Inputs.maxRetries_input nearest_double (str "9007199254740995")
    = Inputs.Finite 9007199254740996
  ∧ Inputs.maxRetries_input nearest_double (str (String.concat "" (repeat "9" 400)))
    = Inputs.Infinite false.
Proof. repeat split; by vm_compute. Qed.

(** The retry fields of the panel cannot hold zero.  The panel shows a
    setting as its decimal digits and the handler reads the field back
    with [parseInt(...) || 3]: a positive number up to 2^53, which the
    host holds as it is, is read back as it is, but zero, the default
    that stands for no retry, is read back as 3 (and as 1000 for the
    delay); whatever the field holds, and whatever the host makes of
    larger numbers, what is stored is not zero. *)
Theorem retry_fields_read_back (to_number : Z → Inputs.number) (n : nat) :
  (∀ z, (- 2 ^ 53 ≤ z ≤ 2 ^ 53)%Z → to_number z = Inputs.Finite z) →
  (Z.of_nat n ≤ 2 ^ 53)%Z →
  Inputs.maxRetries_input to_number (str (pretty n))
  = Inputs.Finite (if decide (n = 0) then 3%Z else Z.of_nat n)
  ∧ Inputs.retryDelay_input to_number (str (pretty n))
    = Inputs.Finite (if decide (n = 0) then 1000%Z else Z.of_nat n)
  ∧ (∀ value, Inputs.maxRetries_input to_number value ≠ Inputs.Finite 0
              ∧ Inputs.retryDelay_input to_number value ≠ Inputs.Finite 0).
Proof.
  intros Hexact Hn.
  unfold Inputs.maxRetries_input, Inputs.retryDelay_input.
  split; [|split].
  - unfold Inputs.parseInt_or. rewrite parseInt_pretty, Hexact by lia.
    destruct (decide (n = 0)) as [->|Hnz]; [done|].
    destruct (Z.eqb_spec (Z.of_nat n) 0); [lia|done].
  - unfold Inputs.parseInt_or. rewrite parseInt_pretty, Hexact by lia.
    destruct (decide (n = 0)) as [->|Hnz]; [done|].
    destruct (Z.eqb_spec (Z.of_nat n) 0); [lia|done].
  - intros value. split; by apply parseInt_or_nonzero.
Qed.

(** A field that shows 0 stores 3, on a host that rounds to the nearest
    double. *)
Lemma retry_fields_read_back_witness :
  Inputs.maxRetries_input nearest_double (str "0") = Inputs.Finite 3.
Proof.
  refine (proj1 (retry_fields_read_back nearest_double 0 _ _)).
  - apply nearest_double_exact.
  - by vm_compute.
Defined.

(** ** Bounds on the retry loop *)

Section RetryBounds.
Import Retry.
Variable c : copy.
Variable call : nat → outcome.
Variable maxR base : Z.

Lemma backend_calls_app e1 e2 :
  backend_calls (e1 ++ e2) = backend_calls e1 + backend_calls e2.
Proof.
  induction e1 as [|e e1 IH]; [done|]. simpl. rewrite IH. by destruct e.
Qed.

Lemma waits_app e1 e2 : waits (e1 ++ e2) = waits e1 ++ waits e2.
Proof.
  induction e1 as [|e e1 IH]; [done|]. simpl. rewrite IH. by destruct e.
Qed.

Lemma retry_loop_bounded remaining :
  ∀ attempt lastError,
    remaining = Z.to_nat (maxR + 1 - Z.of_nat attempt) →
    let events := (retry_loop c call maxR base remaining attempt lastError).1 in
    backend_calls events ≤ remaining
    ∧ (0 < remaining → 0 < backend_calls events)
    ∧ waits events
      = map (λ k, (base * 2 ^ Z.of_nat k)%Z) (seq attempt (backend_calls events - 1)).
Proof.
  induction remaining as [|remaining IH]; intros attempt lastError Hrem;
    [simpl; split; [lia|split; [lia|done]]|].
  simpl. destruct (call attempt) as [dataUrl|message];
    [simpl; split; [lia|split; [lia|done]]|].
  destruct (Z.eqb_spec (Z.of_nat attempt) maxR) as [Heq|Hne];
    [rewrite orb_true_r; simpl; split; [lia|split; [lia|done]]|].
  destruct (negb _); [simpl; split; [lia|split; [lia|done]]|].
  cbn [orb].
  specialize (IH (S attempt) (Some (Failure message)) ltac:(lia)). simpl in IH.
  destruct (retry_loop _ _ _ _ _ _ _) as [events res]. simpl in *.
  destruct IH as (Hcalls & Hsome & Hwaits).
  split; [lia|]. split; [lia|].
  rewrite Nat.sub_0_r, Hwaits.
  destruct (backend_calls events) as [|n]; [lia|].
  simpl. by rewrite Nat.sub_0_r.
Qed.

Lemma geometric_sum n attempt :
  foldr Z.add 0%Z (map (λ k, (base * 2 ^ Z.of_nat k)%Z) (seq attempt n))
  = (base * 2 ^ Z.of_nat attempt * (2 ^ Z.of_nat n - 1))%Z.
Proof.
  revert attempt. induction n as [|n IH]; intros attempt; simpl; [lia|].
  rewrite IH. rewrite !Nat2Z.inj_succ, !Z.pow_succ_r by lia. lia.
Qed.

End RetryBounds.

(** However the backend answers, [generateImageWithRetry] calls it at
    most [maxRetries + 1] times and waits only between two calls, for the
    base delay times two to the number of the attempt that failed: after
    [n] calls it has waited for the base delay times [2^(n-1) - 1] in
    all. *)
Theorem generateImageWithRetry_bounded (c : copy) (s : Retry.settings)
        (call : nat → Retry.outcome) :
  let events := (Retry.generateImageWithRetry c s call).1 in
  backend_calls events ≤ Z.to_nat (Retry.maxRetries s + 1)
  ∧ waits events
    = map (λ k, (Retry.retryDelay s * 2 ^ Z.of_nat k)%Z)
        (seq 0 (backend_calls events - 1))
  ∧ total_wait events
    = (Retry.retryDelay s * (2 ^ Z.of_nat (backend_calls events - 1) - 1))%Z.
Proof.
  unfold Retry.generateImageWithRetry, total_wait.
  destruct (Retry.validateSettings s) as [|field fields];
    [|simpl; split; [lia|split; [done|lia]]].
  pose proof (retry_loop_bounded c call (Retry.maxRetries s) (Retry.retryDelay s)
                (Z.to_nat (Retry.maxRetries s + 1)) 0 None ltac:(lia))
    as (Hcalls & _ & Hwaits).
  simpl in Hcalls, Hwaits.
  destruct (Retry.retry_loop _ _ _ _ _ _ _) as [events res]. simpl in *.
  split; [done|]. split; [done|].
  rewrite Hwaits, geometric_sum. simpl. lia.
Qed.



(** ** Model names *)

Section ModelsFacts.
Import Models.

Lemma includes_any_elem keywords mid kw :
  kw ∈ keywords → includes kw mid = true → includes_any keywords mid = true.
Proof.
  intros Hin Hkw. induction keywords as [|kw' keywords IH];
    [by apply elem_of_nil in Hin|].
  simpl. apply elem_of_cons in Hin as [<-|Hin]; [by rewrite Hkw|].
  rewrite (IH Hin). by destruct (includes kw' mid).
Qed.

End ModelsFacts.

(** A name that carries a video keyword is not an image model, whatever
    else it carries, and neither is one that carries both vision and
    preview.  In index.js a name that [isGeminiModel] accepts is an image
    model unless one of these two exclusions applies. *)
Theorem isImageModel_exclusions (toLowerCase : list N → list N) (c : copy)
        (modelId : list N) :
  let mid := toLowerCase modelId in
  ((∃ kw, kw ∈ Models.VIDEO_MODEL_KEYWORDS ∧ includes kw mid = true) →
   Models.isImageModel toLowerCase c modelId = false)
  ∧ (includes (str "vision") mid = true → includes (str "preview") mid = true →
     Models.isImageModel toLowerCase c modelId = false)
  ∧ (Models.isGeminiModel toLowerCase IndexJs modelId = true →
     Models.includes_any Models.VIDEO_MODEL_KEYWORDS mid = false →
     includes (str "vision") mid && includes (str "preview") mid = false →
     Models.isImageModel toLowerCase IndexJs modelId = true).
Proof.
  intros mid. split; [|split].
  - intros (kw & Hin & Hkw). unfold Models.isImageModel. fold mid.
    rewrite (includes_any_elem _ _ kw Hin Hkw). by destruct c, modelId.
  - intros Hv Hp. unfold Models.isImageModel. fold mid. rewrite Hv, Hp.
    destruct c, modelId; try done; by destruct (Models.includes_any _ _).
  - unfold Models.isGeminiModel, Models.isImageModel. fold mid.
    destruct modelId as [|m modelId]; [done|].
    intros Hnano -> ->.
    apply (includes_any_elem _ _ (str "nano-banana")); [|done].
    unfold Models.IMAGE_MODEL_KEYWORDS. apply list_elem_of_fmap_2'
      with (x := "nano-banana"%string); [|done].
    set_solver.
Qed.

(** ** The requests to the backends *)

Section BackendFacts.
Import Backend.

Lemma text_eqb_eq a : ∀ b, text_eqb a b = true ↔ a = b.
Proof.
  induction a as [|x a IH]; intros [|y b]; simpl; try by split.
  rewrite andb_true_iff, N.eqb_eq, IH.
  split; [by intros [-> ->]|by intros [= -> ->]].
Qed.

Lemma validated_valid valid fallback option_value setting :
  existsb (text_eqb fallback) valid = true →
  list_includes valid (validated valid fallback option_value setting) = true.
Proof.
  intros Hfallback. unfold validated.
  destruct (list_includes valid (if truthy option_value then _ else _)) eqn:E1;
    [done|].
  by destruct (list_includes valid (JStr setting)) eqn:E2.
Qed.

Lemma validated_option valid fallback option_value setting :
  list_includes valid (JStr []) = false →
  list_includes valid option_value = true →
  validated valid fallback option_value setting = option_value.
Proof.
  unfold validated. intros Hempty Hin.
  assert (truthy option_value = true) as ->.
  { destruct option_value as [| | | s | |]; try done.
    destruct s; [congruence|done]. }
  by rewrite Hin.
Qed.

Lemma strip_slash_app s c :
  strip_slash (s ++ [c]) = if (c =? slash)%N then s else s ++ [c].
Proof.
  induction s as [|x s IH]; [done|].
  destruct s as [|y s].
  - simpl. by destruct (c =? slash)%N.
  - change (strip_slash ((x :: y :: s) ++ [c]))
      with (x :: strip_slash ((y :: s) ++ [c])).
    rewrite IH. by destruct (c =? slash)%N.
Qed.

Lemma strip_slash_unchanged s :
  last s ≠ Some slash → strip_slash s = s.
Proof.
  destruct (decide (s = [])) as [->|Hne]; [done|].
  destruct (exists_last Hne) as (s' & c & ->).
  rewrite last_snoc, strip_slash_app. intros Hc.
  destruct (N.eqb_spec c slash); congruence.
Qed.


End BackendFacts.

(** Whatever the tag and the settings hold, a request to a Gemini-style
    backend carries an aspect ratio and an image size of the lists the
    code allows; a value of the tag that is in the list is the one sent. *)
Theorem generateImageGemini_valid_config (c : copy) (s : Backend.settings)
        (prompt style : list N) (referenceImages : list (list N))
        (o : Backend.tag_options) :
  let r := Backend.generateImageGemini c s prompt style referenceImages o in
  Backend.list_includes Backend.VALID_ASPECT_RATIOS (Backend.g_aspectRatio r) = true
  ∧ Backend.list_includes Backend.VALID_IMAGE_SIZES (Backend.g_imageSize r) = true
  ∧ (Backend.list_includes Backend.VALID_ASPECT_RATIOS (Backend.opt_aspectRatio o)
     = true → Backend.g_aspectRatio r = Backend.opt_aspectRatio o)
  ∧ (Backend.list_includes Backend.VALID_IMAGE_SIZES (Backend.opt_imageSize o)
     = true → Backend.g_imageSize r = Backend.opt_imageSize o).
Proof.
  intros r. unfold r, Backend.generateImageGemini. cbn [Backend.g_aspectRatio Backend.g_imageSize].
  split; [by apply validated_valid|]. split; [by apply validated_valid|].
  split; by apply validated_option.
Qed.


(** The avatar of the character, collected while the settings name the
    Gemini-style backend, goes to the OpenAI-style backend when the
    panel has selected that one by the time of the attempt. *)
Example references_reach_openai :
  let gemini :=
    {| Backend.apiType := str "gemini";
       Backend.endpoint := str "https://api.example.com";
       Backend.apiKey := str "key"; Backend.model := str "gpt-image-1";
       Backend.size := str "1024x1024"; Backend.quality := str "standard";
       Backend.sendCharAvatar := true; Backend.sendUserAvatar := false;
       Backend.userAvatarFile := []; Backend.aspectRatio := str "1:1";
       Backend.imageSize := str "1K" |} in
  let openai :=
    {| Backend.apiType := str "openai";
       Backend.endpoint := str "https://api.example.com";
       Backend.apiKey := str "key"; Backend.model := str "gpt-image-1";
       Backend.size := str "1024x1024"; Backend.quality := str "standard";
       Backend.sendCharAvatar := true; Backend.sendUserAvatar := false;
       Backend.userAvatarFile := []; Backend.aspectRatio := str "1:1";
       Backend.imageSize := str "1K" |} in
  let references :=
    Backend.collect_references Models.toLowerCase_ascii IndexJs gemini openai
      (Some (str "QUJD")) None in
  ∃ r, Backend.attempt_request Models.toLowerCase_ascii IndexJs openai references
         (str "a red fox") [] {| Backend.opt_aspectRatio := JNull;
                                 Backend.opt_imageSize := JNull;
                                 Backend.opt_quality := JNull |}
       = Backend.ToOpenAI r
       ∧ Backend.o_image r = Some (str "data:image/png;base64,QUJD").
Proof. eexists. split; by vm_compute. Qed.

(** An endpoint is used with or without a slash at its end: with one
    more slash the requests go to the same address, which is the endpoint
    followed by the path of the backend.  part_000 uses as it is an
    endpoint that names the path of the OpenAI-style backend. *)
Theorem endpoint_trailing_slash (c : copy) (endpoint model apiKey : list N) :
  last endpoint ≠ Some slash →
  Backend.gemini_url c (endpoint ++ [slash]) model apiKey
  = Backend.gemini_url c endpoint model apiKey
  ∧ Backend.openai_url IndexJs (endpoint ++ [slash])
    = endpoint ++ str "/v1/images/generations"
  ∧ Backend.openai_url IndexJs endpoint
    = endpoint ++ str "/v1/images/generations"
  ∧ (includes (str "/images/generations") endpoint = true →
     Backend.openai_url Part000 endpoint = endpoint)
  ∧ (includes (str "/images/generations") endpoint = false →
     Backend.openai_url Part000 endpoint
     = endpoint ++ str "/v1/images/generations").
Proof.
  intros Hlast. unfold Backend.gemini_url, Backend.openai_url.
  rewrite strip_slash_app, N.eqb_refl, (strip_slash_unchanged _ Hlast).
  split; [done|]. split; [done|]. split; [done|].
  split; by intros ->.
Qed.

Lemma endpoint_trailing_slash_witness :
  Backend.openai_url IndexJs (str "https://api.example.com/")
  = str "https://api.example.com/v1/images/generations".
Proof.
  refine (proj1 (proj2 (endpoint_trailing_slash IndexJs
                          (str "https://api.example.com") (str "gpt-image-1")
                          (str "key") _))).
  by vm_compute.
Defined.

(** ** Saving and reading images *)

Section UploadFacts.
Import Upload.

Lemma take_while_forallb f (s : list N) : forallb f (take_while f s) = true.
Proof.
  induction s as [|c s IH]; [done|]. simpl.
  destruct (f c) eqn:E; [|done]. simpl. by rewrite E, IH.
Qed.

Lemma take_while_prefix f (s : list N) :
  s = take_while f s ++ drop (length (take_while f s)) s.
Proof.
  induction s as [|c s IH]; [done|]. simpl.
  destruct (f c); [|done]. simpl. by rewrite <- IH.
Qed.

Lemma take_while_stop f (run rest : list N) :
  forallb f run = true →
  match rest with [] => True | c :: _ => f c = false end →
  take_while f (run ++ rest) = run.
Proof.
  intros Hrun Hrest. induction run as [|c run IH]; simpl.
  - destruct rest as [|c rest]; [done|]. simpl. by rewrite Hrest.
  - simpl in Hrun. apply andb_true_iff in Hrun as [-> Hrun]. by rewrite IH.
Qed.

(** The pattern reads back a data URL built from a format and data. *)
Lemma parse_data_url_build format base64Data :
  format ≠ [] → forallb is_word format = true →
  base64Data ≠ [] →
  forallb (λ c, negb (Gemini.is_line_terminator c)) base64Data = true →
  parse_data_url (str "data:image/" ++ format ++ str ";base64," ++ base64Data)
  = Some (format, base64Data).
Proof.
  intros Hf Hword Hd Hline. unfold parse_data_url.
  rewrite startsWith_app.
  replace 11 with (length (str "data:image/")) by done.
  rewrite drop_app_length.
  rewrite (take_while_stop is_word format) by done.
  rewrite drop_app_length.
  destruct format as [|f format]; [done|].
  rewrite startsWith_app.
  replace 8 with (length (str ";base64,")) by done.
  rewrite drop_app_length.
  destruct base64Data as [|b base64Data]; [done|]. by rewrite Hline.
Qed.

(** What the pattern accepts is built from the parts it gives. *)
Lemma parse_data_url_Some dataUrl format base64Data :
  parse_data_url dataUrl = Some (format, base64Data) →
  dataUrl = str "data:image/" ++ format ++ str ";base64," ++ base64Data
  ∧ format ≠ [] ∧ forallb is_word format = true
  ∧ base64Data ≠ []
  ∧ forallb (λ c, negb (Gemini.is_line_terminator c)) base64Data = true.
Proof.
  unfold parse_data_url.
  destruct (startsWith (str "data:image/") dataUrl) eqn:Hprefix; [|done].
  apply startsWith_inv in Hprefix as [rest ->].
  replace 11 with (length (str "data:image/")) by done.
  rewrite drop_app_length.
  pose proof (take_while_prefix is_word rest) as Hrest.
  pose proof (take_while_forallb is_word rest) as Hword.
  destruct (take_while is_word rest) as [|f fmt] eqn:Hfmt; [done|].
  destruct (startsWith (str ";base64,") _) eqn:Hmark; [|done].
  apply startsWith_inv in Hmark as [payload Hpayload].
  rewrite Hpayload in *.
  replace 8 with (length (str ";base64,")) by done.
  rewrite drop_app_length.
  destruct payload as [|b payload]; [done|].
  destruct (forallb _ (b :: payload)) eqn:Hline; [|done].
  intros [= <- <-]. by rewrite Hrest at 1.
Qed.

Lemma http_is_no_data_url dataUrl :
  startsWith (str "http") dataUrl = true → parse_data_url dataUrl = None.
Proof.
  intros [rest ->]%startsWith_inv. done.
Qed.

Lemma file_stamp_length timestamp :
  length (file_stamp timestamp) = length timestamp.
Proof. unfold file_stamp. by rewrite length_map. Qed.

Lemma file_stamp_clean timestamp :
  Forall (λ c, c ≠ 58%N ∧ c ≠ 46%N) (file_stamp timestamp).
Proof.
  unfold file_stamp. apply Forall_fmap, Forall_forall. intros c _. simpl.
  destruct (N.eqb_spec c 58) as [->|H58]; [done|].
  destruct (N.eqb_spec c 46) as [->|H46]; done.
Qed.

(** A text without the separator is one stretch. *)
Lemma split_none sep (s : list N) :
  Forall (λ c, c ≠ sep) s → JsArray.split sep s = [s].
Proof.
  induction 1 as [|c s Hc _ IH]; [done|]. simpl.
  destruct (N.eqb_spec c sep); [done|]. by rewrite IH.
Qed.

Lemma split_at sep (a b : list N) :
  Forall (λ c, c ≠ sep) a →
  JsArray.split sep (a ++ sep :: b) = a :: JsArray.split sep b.
Proof.
  induction 1 as [|c a Hc _ IH]; simpl.
  - by rewrite N.eqb_refl.
  - destruct (N.eqb_spec c sep); [done|]. by rewrite IH.
Qed.

End UploadFacts.

(** What the backends return is what is uploaded.  A data URL that
    [generateImageGemini] builds from an inline part of type image/F, or
    that the handling of an OpenAI-style answer builds from [b64_json], is
    split by [saveImageToFile] into the same data and the format F, or
    png, and sent in one request, in both copies; the data must be
    non-empty and hold no line terminator, and F must be a non-empty run
    of word characters. *)
Theorem saveImageToFile_uploads_backend_data (c : copy) (ctx : Upload.context)
        (timestamp : list N)
        (server : Upload.upload_request → Upload.upload_response)
        (format base64Data : list N) (others : list Gemini.part)
        (items : list Backend.image_item) (item_url top_url : option (list N)) :
  format ≠ [] → forallb Upload.is_word format = true →
  base64Data ≠ [] →
  forallb (λ c, negb (Gemini.is_line_terminator c)) base64Data = true →
  let upload fmt :=
    [{| Upload.image := base64Data; Upload.format := fmt;
        Upload.ch_name := Upload.charName ctx;
        Upload.filename := str "iig_" ++ Upload.file_stamp timestamp |}] in
  (∃ dataUrl,
      Gemini.first_inline
        ({| Gemini.inlineData :=
              Some {| Gemini.mimeType := str "image/" ++ format;
                      Gemini.data := base64Data |};
            Gemini.inline_data := None; Gemini.part_text := None |} :: others)
      = Some dataUrl
      ∧ (Upload.saveImageToFile c ctx timestamp server dataUrl).1 = upload format)
  ∧ (∃ dataUrl,
        Backend.openai_result_of
          {| Backend.ok := true; Backend.status := 200; Backend.body_text := [];
             Backend.data :=
               Some ({| Backend.b64_json := Some base64Data;
                        Backend.item_url := item_url |} :: items);
             Backend.url := top_url |}
        = Backend.Return (Some dataUrl)
        ∧ (Upload.saveImageToFile c ctx timestamp server dataUrl).1
          = upload (str "png")).
Proof.
  intros Hf Hword Hd Hline upload.
  assert (∀ fmt, fmt ≠ [] → forallb Upload.is_word fmt = true →
                 (Upload.saveImageToFile c ctx timestamp server
                    (str "data:image/" ++ fmt ++ str ";base64," ++ base64Data)).1
                 = upload fmt) as Hsave.
  { intros fmt Hfmt Hfmt_word. unfold Upload.saveImageToFile.
    assert ((match c with
             | IndexJs => str "data:image/" ++ fmt ++ str ";base64," ++ base64Data
             | Part000 =>
                 if startsWith (str "data:image")
                      (str "data:image/" ++ fmt ++ str ";base64," ++ base64Data)
                 then str "data:image/" ++ fmt ++ str ";base64," ++ base64Data
                 else str "data:image/jpeg;base64,"
                      ++ str "data:image/" ++ fmt ++ str ";base64," ++ base64Data
             end) = str "data:image/" ++ fmt ++ str ";base64," ++ base64Data) as ->.
    { destruct c; [done|].
      change (str "data:image/") with (str "data:image" ++ str "/").
      by rewrite <- app_assoc, startsWith_app. }
    by rewrite parse_data_url_build. }
  split.
  - eexists. split; [reflexivity|].
    unfold Gemini.data_url. cbn [Gemini.mimeType Gemini.data].
    rewrite <- (Hsave format Hf Hword). by f_equal.
  - destruct base64Data as [|b base64Data]; [done|].
    eexists. split; [reflexivity|].
    rewrite <- (Hsave (str "png")) by done. done.
Qed.

Lemma saveImageToFile_uploads_backend_data_witness :
  (Upload.saveImageToFile IndexJs
     {| Upload.characterId := Some 0; Upload.characters := [str "Mira"] |}
     (str "2025-01-02T03:04:05.678Z")
     (λ _, {| Upload.ok := true; Upload.status := 200;
              Upload.json_body := Some (JObj [(str "path", JStr (str "/user/images/Mira/a.webp"))]) |})
     (str "data:image/webp;base64,QUJD")).1
  = [{| Upload.image := str "QUJD"; Upload.format := str "webp";
        Upload.ch_name := str "Mira";
        Upload.filename := str "iig_2025-01-02T03-04-05-678Z" |}].
Proof.
  destruct (saveImageToFile_uploads_backend_data IndexJs
              {| Upload.characterId := Some 0; Upload.characters := [str "Mira"] |}
              (str "2025-01-02T03:04:05.678Z")
              (λ _, {| Upload.ok := true; Upload.status := 200;
                       Upload.json_body :=
                         Some (JObj [(str "path", JStr (str "/user/images/Mira/a.webp"))]) |})
              (str "webp") (str "QUJD") [] [] None None
              ltac:(done) ltac:(by vm_compute) ltac:(done) ltac:(by vm_compute))
    as [(dataUrl & Hurl & Hsave) _].
  injection Hurl as <-. exact Hsave.
Defined.

(** Every upload is well formed.  [saveImageToFile] sends at most one
    request; its format is a non-empty run of word characters, so it
    holds no dot and no slash; its image is not empty and holds no line
    terminator; its file name is the time stamp with a dash for every
    colon and dot, after [iig_]; and, in index.js, the data URL given is
    the prefix, the format, the base64 mark and the image, nothing else. *)
Theorem saveImageToFile_request_shape (c : copy) (ctx : Upload.context)
        (timestamp : list N)
        (server : Upload.upload_request → Upload.upload_response)
        (dataUrl : list N) :
  let requests := (Upload.saveImageToFile c ctx timestamp server dataUrl).1 in
  length requests ≤ 1
  ∧ ∀ request, request ∈ requests →
      Upload.format request ≠ []
      ∧ forallb Upload.is_word (Upload.format request) = true
      ∧ Upload.image request ≠ []
      ∧ forallb (λ c, negb (Gemini.is_line_terminator c)) (Upload.image request)
        = true
      ∧ (∃ stamp, Upload.filename request = str "iig_" ++ stamp
                  ∧ length stamp = length timestamp
                  ∧ Forall (λ c, c ≠ 58%N ∧ c ≠ 46%N) stamp)
      ∧ (c = IndexJs →
         dataUrl = str "data:image/" ++ Upload.format request
                   ++ str ";base64," ++ Upload.image request).
Proof.
  intros requests. unfold requests, Upload.saveImageToFile.
  destruct (Upload.parse_data_url _) as [[format base64Data]|] eqn:Hparse;
    cbn [fst length]; [|split; [lia|by intros request ?%elem_of_nil]].
  split; [lia|]. intros request ->%list_elem_of_singleton.
  cbn [Upload.format Upload.image Upload.filename].
  apply parse_data_url_Some in Hparse as (Hurl & Hf & Hword & Hd & Hline).
  repeat (split; [done|]). split; [|by intros ->].
  exists (Upload.file_stamp timestamp). split; [done|].
  split; [by rewrite file_stamp_length|apply file_stamp_clean].
Qed.

(** index.js cannot save an image that the backend gives as a link.  When
    an OpenAI-style answer carries the image as a URL, not as base64,
    [saveImageToFile] of index.js, which every result goes through,
    rejects it before any request; part_000 does not call it for such a
    result. *)
Theorem index_js_rejects_image_links (ctx : Upload.context) (timestamp : list N)
        (server : Upload.upload_request → Upload.upload_response)
        (r : Backend.openai_response) (link : list N) :
  Backend.openai_result_of r = Backend.Return (Some link) →
  startsWith (str "http") link = true →
  Upload.saveImageToFile IndexJs ctx timestamp server link
  = ([], Upload.SaveThrew Upload.InvalidDataUrl)
  ∧ Reconcile.saves IndexJs link = true
  ∧ Reconcile.saves Part000 link = false.
Proof.
  intros _ Hhttp. unfold Upload.saveImageToFile, Reconcile.saves.
  by rewrite (http_is_no_data_url _ Hhttp), Hhttp.
Qed.

Lemma index_js_rejects_image_links_witness :
  Upload.saveImageToFile IndexJs
    {| Upload.characterId := None; Upload.characters := [] |}
    (str "2025-01-02T03:04:05.678Z")
    (λ _, {| Upload.ok := true; Upload.status := 200; Upload.json_body := None |})
    (str "https://cdn.example.com/a.png")
  = ([], Upload.SaveThrew Upload.InvalidDataUrl).
Proof.
  refine (proj1 (index_js_rejects_image_links _ _ _
    {| Backend.ok := true; Backend.status := 200; Backend.body_text := [];
       Backend.data :=
         Some [{| Backend.b64_json := None;
                  Backend.item_url := Some (str "https://cdn.example.com/a.png") |}];
       Backend.url := None |}
    (str "https://cdn.example.com/a.png") _ _)).
  - reflexivity.
  - reflexivity.
Defined.

(** [imageUrlToBase64] gives back the base64 text of a data URL: from
    [data:], a media type, the base64 mark and the text, with no comma in
    the type nor in the text, both copies extract the text.  From a string
    without a comma, index.js extracts nothing and part_000 the whole
    string. *)
Theorem imageUrlToBase64_data_url (c : copy) (mediaType base64 : list N) :
  Forall (λ c, c ≠ 44%N) mediaType → Forall (λ c, c ≠ 44%N) base64 →
  Upload.imageUrlToBase64 c (Some (str "data:" ++ mediaType ++ str ";base64," ++ base64))
  = Some base64
  ∧ Upload.imageUrlToBase64 IndexJs (Some base64) = None
  ∧ Upload.imageUrlToBase64 Part000 (Some base64) = Some base64.
Proof.
  intros Hm Hb. unfold Upload.imageUrlToBase64. cbn [mbind option_bind].
  assert (JsArray.split 44 (str "data:" ++ mediaType ++ str ";base64," ++ base64)
          = (str "data:" ++ mediaType ++ str ";base64") :: [base64]) as Hsplit.
  { replace (str "data:" ++ mediaType ++ str ";base64," ++ base64)
      with ((str "data:" ++ mediaType ++ str ";base64") ++ 44%N :: base64)
      by (by rewrite <- !app_assoc).
    rewrite split_at, split_none; [done|done|].
    apply Forall_app. split; [by repeat constructor|].
    apply Forall_app. split; [done|by repeat constructor]. }
  assert (includes [44%N] base64 = false) as Hnone.
  { unfold includes. destruct (find_sub [44%N] base64) as [k|] eqn:Hk; [|done].
    apply find_sub_Some in Hk as [Hk _].
    apply startsWith_inv in Hk as [rest Hrest].
    assert (44%N ∈ base64) as Hin.
    { rewrite <- (take_drop k base64), Hrest. set_solver. }
    rewrite Forall_forall in Hb. by destruct (Hb _ Hin). }
  split; [|split].
  - unfold Upload.base64_of. rewrite Hsplit.
    destruct c; [done|].
    replace (str "data:" ++ mediaType ++ str ";base64," ++ base64)
      with ((str "data:" ++ mediaType ++ str ";base64") ++ [44%N] ++ base64)
      by (by rewrite <- !app_assoc).
    by rewrite includes_intro.
  - unfold Upload.base64_of. by rewrite split_none.
  - unfold Upload.base64_of. by rewrite Hnone.
Qed.

Lemma imageUrlToBase64_data_url_witness :
  Upload.imageUrlToBase64 IndexJs (Some (str "data:image/png;base64,QUJD"))
  = Some (str "QUJD").
Proof.
  refine (proj1 (imageUrlToBase64_data_url IndexJs (str "image/png") (str "QUJD") _ _)).
  - repeat constructor; by vm_compute.
  - repeat constructor; by vm_compute.
Defined.

(** ** The gate of the receive path *)

(** The gate stays shut when the page does not show the message.
    [processMessageTags] enters the message in [processingMessages] once
    the scan has found a tag; if the element of the message, or its text
    element, is then not in the page, it returns without taking the
    message out.  Nothing has changed in the page or the text and
    nothing is saved.  [processMessageTags] itself never takes the
    message out again: every call for this message made while it is in
    the set, whatever else the set holds and whatever the page and the
    network have become, returns at the gate, does nothing and leaves
    the set as it is. *)
Theorem processMessageTags_gate_leak (c : copy) (w : Reconcile.world)
        (h : Reconcile.host) (messageId : nat) (m : Reconcile.message)
        (sc : scan) :
  Reconcile.enabled h = true →
  messageId ∉ Reconcile.processingMessages h →
  Reconcile.chat h !! messageId = Some m →
  Reconcile.is_user m = false →
  parseImageTags (Reconcile.net w) (Reconcile.mes m) Reconcile.normal_mode
  = Some sc →
  tags sc ≠ [] →
  Reconcile.rendered h messageId ≠ Reconcile.Rendered →
  ∃ gate effects,
    Reconcile.processMessageTags c w h messageId = Some (gate, effects)
    ∧ messageId ∈ gate
    ∧ Forall (λ e, Reconcile.is_mutation e = false ∧ Reconcile.is_save e = false)
             effects
    ∧ ∀ c' w' h',
        messageId ∈ Reconcile.processingMessages h' →
        Reconcile.processMessageTags c' w' h' messageId
        = Some (Reconcile.processingMessages h', []).
Proof.
  intros Hon Hgate Hm Huser Hsc Htags Hpage.
  unfold Reconcile.processMessageTags at 1, Reconcile.processMessageTags_enter.
  rewrite Hon, Hm, Huser. cbn [negb].
  destruct (decide (messageId ∈ Reconcile.processingMessages h)); [done|].
  rewrite Hsc. unfold Reconcile.processMessageTags_resume.
  destruct (tags sc) as [|tg others]; [done|].
  assert (∀ others : list Reconcile.effect,
             Forall (λ e, Reconcile.is_mutation e = false
                          ∧ Reconcile.is_save e = false) others →
             Forall (λ e, Reconcile.is_mutation e = false
                          ∧ Reconcile.is_save e = false)
                    (map Reconcile.Head (probes sc) ++ others)) as Hquiet.
  { intros effects Heffects. apply Forall_app. split; [|done].
    apply Forall_fmap, Forall_true. done. }
  assert (∀ c' w' h',
             messageId ∈ Reconcile.processingMessages h' →
             Reconcile.processMessageTags c' w' h' messageId
             = Some (Reconcile.processingMessages h', [])) as Hshut.
  { intros c' w' h'. apply processMessageTags_gated. }
  destruct (Reconcile.rendered h messageId); [| |done].
  - eexists _, _. split; [done|]. split; [set_solver|]. split; [|done].
    apply Hquiet. destruct c; repeat constructor.
  - eexists _, _. split; [done|]. split; [set_solver|]. split; [|done].
    apply Hquiet. repeat constructor.
Qed.

Lemma processMessageTags_gate_leak_witness :
  ∃ gate effects,
    Reconcile.processMessageTags IndexJs (kind_world (Response true))
      unrendered_host 0 = Some (gate, effects)
    ∧ 0 ∈ gate
    ∧ Forall (λ e, Reconcile.is_mutation e = false ∧ Reconcile.is_save e = false)
             effects
    ∧ ∀ c' w' h',
        0 ∈ Reconcile.processingMessages h' →
        Reconcile.processMessageTags c' w' h' 0
        = Some (Reconcile.processingMessages h', []).
Proof.
  eapply (processMessageTags_gate_leak IndexJs (kind_world (Response true))
            unrendered_host 0 pending_message).
  - reflexivity.
  - simpl. set_solver.
  - reflexivity.
  - reflexivity.
  - vm_compute. reflexivity.
  - discriminate.
  - discriminate.
Defined.

(** ** What stands behind the tags of a scan *)

Section Backing.
Variable net : nat → list N → fetch_result.
Variable t : list N.
Variable opts : options.

Lemma or_else_truthy_or a fallback : truthy_or fallback (or_else a fallback).
Proof.
  unfold truthy_or, or_else. destruct a as [v|]; [|by right].
  destruct (truthy v) eqn:E; [by left|by right].
Qed.

Lemma or_else_truthy_or_nested a b fallback :
  truthy_or fallback (or_else a (or_else b fallback)).
Proof.
  unfold truthy_or, or_else. destruct a as [v|].
  - destruct (truthy v) eqn:E; [by left|].
    destruct b as [v'|]; [|by right].
    destruct (truthy v') eqn:E'; [by left|by right].
  - destruct b as [v'|]; [|by right].
    destruct (truthy v') eqn:E'; [by left|by right].
Qed.

(** What a tag that the [try] block pushed says of the payload. *)
Lemma try_push_fields normalizedJson fm idx isNew src tg :
  try_push normalizedJson fm idx isNew src = Some tg →
  ∃ data, JSON_parse normalizedJson = Some data ∧ data ≠ JNull
          ∧ fields_of data tg
          ∧ truthy_or (JStr []) (prompt tg) ∧ truthy_or (JStr []) (style tg)
          ∧ truthy_or JNull (aspectRatio tg) ∧ truthy_or JNull (imageSize tg)
          ∧ truthy_or JNull (quality tg).
Proof.
  unfold try_push, make_tag.
  destruct (JSON_parse normalizedJson) as [data|]; [|done].
  intros Hmake. exists data. split; [done|].
  assert (data ≠ JNull) as Hdata by (by destruct data).
  split; [done|].
  assert (tg = {| fullMatch := fm; index := idx;
                  style := or_else (member data "style") (JStr []);
                  prompt := or_else (member data "prompt") (JStr []);
                  aspectRatio := or_else (member data "aspect_ratio")
                                   (or_else (member data "aspectRatio") JNull);
                  imageSize := or_else (member data "image_size")
                                 (or_else (member data "imageSize") JNull);
                  quality := or_else (member data "quality") JNull;
                  isNewFormat := isNew; existingSrc := src |}) as ->.
  { destruct data; first [done | by injection Hmake as <-]. }
  cbn [style prompt aspectRatio imageSize quality]. unfold fields_of.
  cbn [style prompt aspectRatio imageSize quality].
  split; [done|].
  split; [apply or_else_truthy_or|]. split; [apply or_else_truthy_or|].
  split; [apply or_else_truthy_or_nested|].
  split; [apply or_else_truthy_or_nested|apply or_else_truthy_or].
Qed.

Lemma startsWith_char c s j :
  startsWith [c] (drop j s) = true → s !! j = Some c.
Proof.
  intros H. apply startsWith_inv in H as [rest Hrest].
  rewrite <- (take_drop j s), Hrest.
  assert (j ≤ length s) as Hj.
  { destruct (decide (j ≤ length s)); [done|].
    rewrite drop_ge in Hrest by lia. done. }
  rewrite lookup_app_r by (rewrite length_take; lia).
  rewrite length_take. by replace (j - j `min` length s) with 0 by lia.
Qed.

Lemma markup_iter_backed nprobes searchPos searchPos' tg probed warned :
  markup_iter net nprobes t opts searchPos
  = Continue searchPos' (Some tg) probed warned →
  isNewFormat tg = true ∧ backed t tg ∧ chosen net opts tg.
Proof.
  intros H. pose proof (markup_iter_pushed _ _ _ _ _ _ _ _ _ H) as (Hnew & Hslice & Hend & _).
  revert H. unfold markup_iter, skip_to.
  destruct (indexOf imgTagMarker t searchPos) as [markerPos|] eqn:Hm; [|done].
  destruct (lastIndexOf _ t markerPos) as [imgStart|] eqn:Hi; [|done].
  destruct (Nat.ltb_spec 500 (markerPos - imgStart)) as [|Hback]; [done|].
  destruct (indexOf [lbrace] t _) as [jsonStart|] eqn:Hj; [|done].
  destruct (Nat.ltb_spec (markerPos + length imgTagMarker + 10) jsonStart)
    as [|Hgap]; [done|].
  destruct (findJsonEnd t jsonStart) as [jsonEnd|] eqn:He; [|done].
  destruct (indexOf [gt_sign] t jsonEnd) as [gtPos|] eqn:Hg; [|done].
  destruct (needsGeneration _ _ _ _) as [needs probed'] eqn:Hneeds.
  destruct needs; [|done]. cbn [negb].
  intros [= <- Hpush _ _].
  pose proof (try_push_Some _ _ _ _ _ _ Hpush) as (Hfm & Hidx & _ & Hsrc).
  apply try_push_fields in Hpush
    as (data & Hparse & Hdata & Hfields & Hp & Hs & Ha & Hz & Hq).
  rewrite imgTagMarker_length in *.
  pose proof (lastIndexOf_Some _ _ _ _ Hi) as [Hi1 Hi2].
  pose proof (indexOf_Some _ _ _ _ Hm) as (Hm1 & Hm2 & _).
  pose proof (indexOf_Some _ _ _ _ Hj) as (Hj1 & Hj2 & _).
  pose proof (findJsonEnd_bounds _ _ _ He) as He'.
  pose proof (indexOf_bound [gt_sign] _ _ _ ltac:(discriminate) Hg) as Hgb.
  simpl in Hgb.
  pose proof (indexOf_Some _ _ _ _ Hg) as (Hg1 & _).
  assert (tag_end tg = gtPos + 1) as Hend' by lia.
  split; [done|]. split.
  - unfold backed. rewrite Hnew. repeat (split; [done|]).
    exists markerPos, jsonStart, jsonEnd, data. rewrite Hidx, Hend'.
    replace (gtPos + 1 - 1) with gtPos by lia.
    split; [done|]. split; [lia|]. split; [done|]. split; [lia|].
    split; [by apply startsWith_char|]. split; [done|]. split; [done|].
    split; [lia|]. done.
  - unfold chosen, source_of. rewrite Hfm, Hsrc. split; [|done].
    revert Hneeds. unfold needsGeneration.
    set (srcValue := default [] (srcMatch (substring t imgStart (gtPos + 1)))).
    destruct (hasErrorImage srcValue) eqn:Herr; cbn [andb].
    + destruct (forceAll opts); [by left|done].
    + destruct (forceAll opts); [by left|].
      intros Hn. right. split; [done|]. revert Hn.
      destruct (hasMarker srcValue) eqn:Hmark; [by left|]. cbn [orb].
      destruct srcValue as [|s0 srcValue'] eqn:Hsv; [by right; left|].
      destruct (hasPath (s0 :: srcValue')) eqn:Hpath; [|done].
      destruct (checkExistence opts); [|done]. cbn [andb].
      intros [= Hprobe _]. right. right. split; [done|]. split; [done|].
      exists nprobes. by apply negb_true_iff.
Qed.

Lemma legacy_iter_backed searchStart searchStart' tg probed warned :
  legacy_iter t searchStart = Continue searchStart' (Some tg) probed warned →
  isNewFormat tg = false ∧ backed t tg.
Proof.
  intros H. pose proof (legacy_iter_pushed _ _ _ _ _ _ H) as (Hnew & Hslice & Hend & _).
  revert H. unfold legacy_iter, skip_to.
  destruct (indexOf marker t searchStart) as [markerIndex|] eqn:Hm; [|done].
  destruct (findJsonEnd t _) as [jsonEnd|] eqn:He; [|done].
  destruct (startsWith [rbracket] (substring_from t jsonEnd)) eqn:Hb; [|done].
  cbn [negb]. intros [= <- Hpush _ _].
  pose proof (try_push_Some _ _ _ _ _ _ Hpush) as (Hfm & Hidx & _ & Hsrc).
  apply try_push_fields in Hpush
    as (data & Hparse & Hdata & Hfields & Hp & Hs & Ha & Hz & Hq).
  rewrite marker_length in *.
  pose proof (indexOf_Some _ _ _ _ Hm) as (Hm1 & Hm2 & _).
  split; [done|]. unfold backed. rewrite Hnew. repeat (split; [done|]).
  exists jsonEnd, data. rewrite Hidx.
  split; [done|]. split; [done|].
  split; [by apply startsWith_char|]. done.
Qed.

Lemma record_tags acc pushed probed warned :
  tags (record acc pushed probed warned) = tags acc ++ option_list pushed.
Proof. done. Qed.

Lemma scan_tags_backed r :
  parseImageTags net t opts = Some r →
  Forall (λ tg, backed t tg ∧ (isNewFormat tg = true → chosen net opts tg))
         (tags r).
Proof.
  intros Hr. destruct (parseImageTags_split _ _ _ _ Hr) as (acc & Hmarkup & Hlegacy).
  set (Q := λ tg, backed t tg ∧ (isNewFormat tg = true → chosen net opts tg)).
  assert (Forall Q (tags acc)) as Hacc.
  { destruct (markup_loop_inv net t opts (λ _ acc, Forall Q (tags acc)))
      with (fuel := S (length t)) (pos := 0)
           (acc := {| tags := []; probes := []; warnings := 0 |}) (r := acc)
      as [_ Hdone]; [|by constructor|done|done].
    intros pos acc' pos' pushed probed warned HQ Hit.
    rewrite record_tags. apply Forall_app. split; [done|].
    destruct pushed as [tg|]; [|by constructor].
    apply markup_iter_backed in Hit as (_ & Hb & Hc).
    apply Forall_singleton. by split. }
  destruct (legacy_loop_inv t (λ _ acc, Forall Q (tags acc)))
    with (fuel := S (length t)) (pos := 0) (acc := acc) (r := r)
    as [_ Hdone]; [|done|done|done].
  intros pos acc' pos' pushed probed warned HQ Hit.
  rewrite record_tags. apply Forall_app. split; [done|].
  destruct pushed as [tg|]; [|by constructor].
  apply legacy_iter_backed in Hit as (Hnew & Hb).
  apply Forall_singleton. split; [done|]. by rewrite Hnew.
Qed.

End Backing.

(** The scanner invents nothing.  On any text, with any options and
    network, every tag returned is the slice of the text at its index and
    is backed by a marker there: for the markup family an element with
    the marker attribute within the look-back, for the legacy family a
    bracket marker closed by a bracket; its payload, as the brace scan
    delimits it and normalised as its family is, parses to a value that
    is not [null]; its fields are read from that value, a missing or
    falsy prompt or style being the empty string and a missing or falsy
    aspect ratio, image size or quality being [null]. *)
Theorem scan_tags_are_backed (net : nat → list N → fetch_result) (t : list N)
        (opts : options) (r : scan) :
  parseImageTags net t opts = Some r → Forall (backed t) (tags r).
Proof.
  intros Hr. eapply Forall_impl; [by apply scan_tags_backed|].
  by intros tg [Hb _].
Qed.

Lemma scan_tags_are_backed_witness :
  Forall (backed (Reconcile.mes pending_message))
    [{| fullMatch :=
          lit "<img data-iig-instruction='{`prompt`:`a red fox`}' src=`[IMG:GEN]`>";
        index := 6; style := JStr []; prompt := JStr (str "a red fox");
        aspectRatio := JNull; imageSize := JNull; quality := JNull;
        isNewFormat := true; existingSrc := None |}].
Proof.
  apply (scan_tags_are_backed (λ _ _, Response true)
           (Reconcile.mes pending_message) default_options
           {| tags := [{| fullMatch :=
                            lit "<img data-iig-instruction='{`prompt`:`a red fox`}' src=`[IMG:GEN]`>";
                          index := 6; style := JStr [];
                          prompt := JStr (str "a red fox");
                          aspectRatio := JNull; imageSize := JNull;
                          quality := JNull;
                          isNewFormat := true; existingSrc := None |}];
              probes := []; warnings := 0 |}).
  by vm_compute.
Defined.

(** Every element returned was chosen by the policy.  A tag of the
    markup family is returned only if every tag is forced, or if the
    source of its element is not the error image and is empty, or still
    carries a marker token, or is a path for which existence checking was
    asked and a probe did not report success.  So a scan that is not
    forced never returns an element that shows the error image, and a
    scan without options never returns a resolved one.  The tag records
    the source exactly when it is a path. *)
Theorem scan_selection_sound (net : nat → list N → fetch_result) (t : list N)
        (opts : options) (r : scan) (tg : tag) :
  parseImageTags net t opts = Some r →
  tg ∈ tags r →
  (isNewFormat tg = true → chosen net opts tg)
  ∧ (isNewFormat tg = false → existingSrc tg = None).
Proof.
  intros Hr Hin. pose proof (scan_tags_backed net t opts r Hr) as Hall.
  rewrite Forall_forall in Hall. destruct (Hall tg Hin) as [Hb Hc].
  split; [done|]. intros Hnew. destruct Hb as (_ & _ & _ & _ & _ & _ & Hb).
  rewrite Hnew in Hb. by destruct Hb as (? & ? & _ & _ & _ & _ & _ & _ & _ & ?).
Qed.

Lemma scan_selection_sound_witness :
  chosen (λ _ _, Response false) Reconcile.normal_mode
    {| fullMatch :=
         lit "<img data-iig-instruction='{`prompt`:`a red fox`}' src=`/user/images/fox.png`>";
       index := 6; style := JStr []; prompt := JStr (str "a red fox");
       aspectRatio := JNull; imageSize := JNull; quality := JNull;
       isNewFormat := true; existingSrc := Some (str "/user/images/fox.png") |}.
Proof.
  refine (proj1 (scan_selection_sound (λ _ _, Response false)
                   (Reconcile.mes resolved_message) Reconcile.normal_mode
                   {| tags := [_]; probes := [str "/user/images/fox.png"];
                      warnings := 0 |} _ _ _) _).
  - by vm_compute.
  - apply list_elem_of_here.
  - reflexivity.
Defined.

(** ** The scan of a text of markers, whatever the policy chooses *)

Section MarkupSiteAny.
Variable net : nat → list N → fetch_result.
Variable opts : options.

(** One iteration at an element, chosen or not. *)
Lemma markup_iter_site nprobes t pos before attrs gap body rest after :
  let element := render (MarkupElement attrs gap body rest) in
  let srcValue := default [] (srcMatch element) in
  t = before ++ element ++ after →
  pos ≤ length before + 4 + length attrs →
  (∀ j, pos ≤ j < length before + 4 + length attrs →
        startsWith imgTagMarker (drop j t) = false) →
  includes (str "<img") attrs = false → length attrs ≤ 496 →
  includes [lbrace] gap = false → length gap ≤ 10 →
  balanced body →
  includes [gt_sign] rest = false →
  markup_iter net nprobes t opts pos
  = let '(needs, probed) := needsGeneration net nprobes opts srcValue in
    let pushed :=
      if needs
      then try_push (normalize_markup (payload body)) element (length before) true
             (if hasPath srcValue then Some srcValue else None)
      else None in
    Continue (length before + length element) pushed probed
      (if needs then match pushed with Some _ => false | None => true end
       else false).
Proof.
  intros element srcValue Ht Hpos Hno Hattrs Hattrs_len Hgap Hgap_len Hbal Hrest.
  set (s := length before) in *.
  set (markerPos := s + 4 + length attrs) in *.
  set (jsonStart := markerPos + length imgTagMarker + length gap).
  set (tail := rest ++ gt_sign :: after).
  assert (drop s t = str "<img" ++ attrs ++ imgTagMarker ++ gap
                     ++ lbrace :: body ++ rbrace :: tail) as D0.
  { rewrite Ht. unfold s. rewrite drop_app_length. apply render_markup_app. }
  assert (drop markerPos t
          = imgTagMarker ++ gap ++ lbrace :: body ++ rbrace :: tail) as D1.
  { unfold markerPos. rewrite <- Nat.add_assoc, <- drop_drop, D0, app_assoc.
    rewrite (drop_app_length' (str "<img" ++ attrs)); [done|].
    by rewrite length_app. }
  assert (drop (markerPos + length imgTagMarker) t
          = gap ++ lbrace :: body ++ rbrace :: tail) as D2.
  { by rewrite <- drop_drop, D1, drop_app_length. }
  assert (drop jsonStart t = lbrace :: body ++ rbrace :: tail) as D3.
  { unfold jsonStart. by rewrite <- drop_drop, D2, drop_app_length. }
  assert (drop (jsonStart + length body + 2) t = tail) as D4.
  { replace (jsonStart + length body + 2)
      with (jsonStart + length (payload body))
      by (unfold payload; simpl; rewrite length_app; simpl; lia).
    rewrite <- drop_drop, D3.
    replace (lbrace :: body ++ rbrace :: tail) with (payload body ++ tail)
      by (unfold payload; simpl; by rewrite <- app_assoc).
    by rewrite drop_app_length. }
  assert (markerPos + length imgTagMarker ≤ length t) as Hbound.
  { apply (f_equal length) in D1.
    rewrite length_drop, length_app, imgTagMarker_length in D1.
    rewrite imgTagMarker_length. lia. }
  assert (indexOf imgTagMarker t pos = Some markerPos) as Hidx.
  { apply indexOf_intro; [done| |done]. rewrite D1. apply startsWith_app. }
  assert (lastIndexOf (str "<img") t markerPos = Some s) as Hopen.
  { unfold lastIndexOf. replace (markerPos `min` length t) with markerPos by lia.
    apply rfind_intro; [unfold markerPos; lia| |].
    - rewrite D0. apply startsWith_app.
    - intros j Hj. replace j with (s + (j - s)) by lia.
      rewrite <- drop_drop, D0.
      apply markup_opening_free; [done|unfold markerPos in Hj; lia]. }
  pose proof (indexOf_char _ _ _ _ _ D2 Hgap) as Hjson. fold jsonStart in Hjson.
  pose proof (findJsonEnd_payload _ _ _ _ D3 Hbal) as Hend.
  pose proof (indexOf_char _ _ _ _ _ D4 Hrest) as Hgt.
  assert (length before + length element
          = jsonStart + length body + 2 + length rest + 1) as Hlen.
  { unfold element. rewrite render_markup_length.
    unfold jsonStart, markerPos, s. rewrite imgTagMarker_length. lia. }
  assert (substring t s (jsonStart + length body + 2 + length rest + 1) = element)
    as Hfull.
  { rewrite <- Hlen. apply (substring_drop _ _ _ after).
    rewrite Ht. unfold s. by rewrite drop_app_length. }
  assert (substring t jsonStart (jsonStart + length body + 2) = payload body)
    as Hpayload.
  { replace (jsonStart + length body + 2) with (jsonStart + length (payload body))
      by (unfold payload; simpl; rewrite length_app; simpl; lia).
    apply (substring_drop _ _ _ tail). rewrite D3.
    unfold payload. simpl. by rewrite <- app_assoc. }
  unfold markup_iter. rewrite Hidx, Hopen.
  replace (500 <? markerPos - s) with false
    by (symmetry; apply Nat.ltb_ge; unfold markerPos; lia).
  rewrite Hjson.
  replace (markerPos + length imgTagMarker + 10 <? jsonStart) with false
    by (symmetry; apply Nat.ltb_ge; unfold jsonStart; lia).
  rewrite Hend, Hgt, Hfull, Hpayload. fold srcValue.
  destruct (needsGeneration net nprobes opts srcValue) as [[|] probed];
    cbn [negb]; cbv iota zeta; f_equal; lia.
Qed.

End MarkupSiteAny.

Section LoopsExact.
Variable net : nat → list N → fetch_result.
Variable opts : options.
Variable final : list N.
Hypothesis final_prose : well_formed_prose final.

Lemma markup_loop_exact items :
  ∀ fuel before pos acc r t,
    t = before ++ render_items items final →
    Forall shaped_item items →
    pos ≤ length before →
    (∀ j, pos ≤ j < length before → startsWith imgTagMarker (drop j t) = false) →
    markup_loop fuel net t opts pos acc = Some r →
    ∃ new,
      tags r = tags acc ++ new
      ∧ map site new
        = (markup_outcome net opts (length (probes acc)) (length before) items).1
      ∧ probes r
        = probes acc
          ++ (markup_outcome net opts (length (probes acc)) (length before) items).2
      ∧ warnings r = warnings acc.
Proof.
  induction items as [|it items IH]; intros fuel before pos acc r t Ht Hwf Hpos Hno Hrun.
  - simpl in Ht. destruct fuel as [|fuel]; [done|]. simpl in Hrun.
    unfold markup_iter in Hrun. rewrite indexOf_None_intro in Hrun.
    + injection Hrun as <-. exists []. by rewrite !app_nil_r.
    + intros j Hj. destruct (decide (j < length before)) as [Hlt|Hge].
      * apply Hno. lia.
      * rewrite Ht, drop_app_ge by lia. apply includes_false, final_prose.
  - apply Forall_cons in Hwf as [[Hprose Hpiece] Hwf].
    set (rest := render_items items final) in *.
    set (before1 := before ++ prose it).
    set (before2 := before1 ++ render (piece it)).
    assert (t = before ++ prose it ++ render (piece it) ++ rest) as Ht0 by done.
    assert (t = before1 ++ render (piece it) ++ rest) as Ht1.
    { unfold before1. by rewrite <- app_assoc. }
    assert (t = before2 ++ rest) as Ht2.
    { unfold before2. by rewrite <- app_assoc. }
    assert (length before1 = length before + length (prose it)) as Hl1.
    { unfold before1. by rewrite length_app. }
    assert (length before2 = length before1 + length (render (piece it))) as Hl2.
    { unfold before2. by rewrite length_app. }
    assert (∀ j, pos ≤ j < length before1 →
                 startsWith imgTagMarker (drop j t) = false) as Hno1.
    { intros j Hj. destruct (decide (j < length before)) as [Hlt|Hge].
      - apply Hno. lia.
      - apply (prose_free_markup before (prose it) (render (piece it) ++ rest));
          [done|done| |lia].
        apply render_items_head_piece. }
    cbn [markup_outcome]. rewrite <- Hl1, <- Hl2.
    destruct (piece it) as [body|attrs gap body rest0] eqn:Hp.
    + (* a bracket marker: the loop passes over it *)
      destruct Hpiece as (_ & Hfree & _). cbn [is_markup].
      apply (IH fuel before2 pos acc r t Ht2 Hwf); [lia| |done].
      intros j Hj. destruct (decide (j < length before1)) as [Hlt|Hge].
      * apply Hno1. lia.
      * rewrite Ht1, render_legacy_split.
        replace j with (length before1 + (j - length before1)) by lia.
        rewrite drop_app_add. apply no_occurrence_in_piece.
        -- by rewrite <- render_legacy_split.
        -- intros k Hk. by apply imgTagMarker_chars in Hk as (_ & _ & ?).
        -- assert (length (render (LegacyMarker body))
                    = length (marker ++ lbrace :: body ++ [rbrace]) + 1) as Hlen
             by (by rewrite render_legacy_split, length_app).
           lia.
    + (* an element: one iteration, which pushes its tag if it is chosen *)
      destruct Hpiece as (Hbal & Hattrs & Hattrs_len & Hfirst & Hgap & Hgap_len
                          & Hrest & _ & _ & (members & Hparse)).
      cbn [is_markup].
      destruct fuel as [|fuel]; [done|]. simpl in Hrun.
      rewrite (markup_iter_site net opts _ t pos before1 attrs gap body rest0 rest)
        in Hrun; try done.
      * cbv zeta in Hrun.
        set (element := render (MarkupElement attrs gap body rest0)) in *.
        destruct (needsGeneration net (length (probes acc)) opts
                    (default [] (srcMatch element))) as [needs probed] eqn:Hneeds.
        destruct (markup_outcome net opts (length (probes acc) + length probed)
                    (length before2) items) as [found requested] eqn:Hout.
        cbn [fst snd].
        destruct needs.
        -- destruct (try_push_object _ members element (length before1) true
                       (if hasPath (default [] (srcMatch element))
                        then Some (default [] (srcMatch element)) else None) Hparse)
             as (tg & Hpush & Hsite).
           rewrite Hpush in Hrun.
           destruct (IH fuel before2 (length before1 + length element)
                       (record acc (Some tg) probed false) r t Ht2 Hwf)
             as (new & H1 & H2 & H3 & H4); [lia|intros j Hj; lia|exact Hrun|].
           exists (tg :: new). cbn [record tags probes warnings] in H1, H2, H3, H4.
           rewrite length_app, Hout in H2, H3. cbn [fst snd] in H2, H3.
           split; [by rewrite H1, <- app_assoc|].
           split; [cbn [map app]; by rewrite Hsite, H2|].
           split; [by rewrite H3, <- app_assoc|]. by rewrite H4, Nat.add_0_r.
        -- destruct (IH fuel before2 (length before1 + length element)
                       (record acc None probed false) r t Ht2 Hwf)
             as (new & H1 & H2 & H3 & H4); [lia|intros j Hj; lia|exact Hrun|].
           exists new. cbn [record tags probes warnings option_list] in H1, H2, H3, H4.
           rewrite length_app, Hout in H2, H3. cbn [fst snd] in H2, H3.
           rewrite app_nil_r in H1.
           split; [done|]. split; [done|].
           split; [by rewrite H3, <- app_assoc|]. by rewrite H4, Nat.add_0_r.
      * lia.
      * intros j Hj. destruct (decide (j < length before1)) as [Hlt|Hge].
        -- apply Hno1. lia.
        -- destruct (startsWith imgTagMarker (drop j t)) eqn:E; [|done]. exfalso.
           rewrite Ht1 in E.
           replace j with (length before1 + (j - length before1)) in E by lia.
           rewrite drop_app_add, render_markup_app in E.
           rewrite !app_assoc in E. rewrite <- (app_assoc (str "<img")) in E.
           rewrite <- !app_assoc in E.
           rewrite (app_assoc (str "<img")), (app_assoc _ imgTagMarker) in E.
           rewrite <- (app_assoc (str "<img")) in E.
           apply startsWith_local in E.
           ++ apply find_sub_Some in Hfirst as [_ Hmin].
              rewrite Hmin in E; [done|lia].
           ++ rewrite !length_app, imgTagMarker_length. simpl. lia.
Qed.

End LoopsExact.

(** The outcome of a scan of a text of markers, by the policy, after a
    text in which no marker begins. *)
Lemma scan_outcome_after (net : nat → list N → fetch_result)
      (opts : options) (before : list N) (items : list item) (final : list N) :
  Forall shaped_item items → well_formed_prose final →
  (∀ j, j < length before →
        startsWith imgTagMarker (drop j (before ++ render_items items final))
        = false) →
  (∀ j, j < length before →
        startsWith marker (drop j (before ++ render_items items final)) = false) →
  ∃ r, parseImageTags net (before ++ render_items items final) opts = Some r
       ∧ map site (tags r)
         = (markup_outcome net opts 0 (length before) items).1
           ++ sites false (length before) items
       ∧ probes r = (markup_outcome net opts 0 (length before) items).2
       ∧ warnings r = 0.
Proof.
  intros Hitems Hfinal Hmarkup Hlegacy.
  destruct (parseImageTags_total net (before ++ render_items items final) opts)
    as [r Hr].
  exists r. split; [done|].
  destruct (parseImageTags_split _ _ _ _ Hr) as (acc & Hm & Hl).
  destruct (markup_loop_exact net opts final Hfinal items _ before 0 _ acc
              (before ++ render_items items final) eq_refl Hitems
              (Nat.le_0_l _) ltac:(intros; apply Hmarkup; lia) Hm)
    as (mtags & Hm1 & Hm2 & Hm3 & Hm4).
  destruct (legacy_loop_complete Reconcile.forced_mode final Hfinal items _
              before 0 _ r (before ++ render_items items final) eq_refl Hitems
              (Nat.le_0_l _) ltac:(intros; apply Hlegacy; lia) Hl)
    as (ltags & Hl1 & Hl2 & Hl3 & Hl4).
  cbn [tags probes warnings length app] in *.
  split; [by rewrite Hl1, Hm1, map_app, Hm2, Hl2|].
  split; congruence.
Qed.

(** The outcome of a scan of a text of markers, by the policy. *)
Lemma scan_outcome (net : nat → list N → fetch_result)
      (opts : options) (items : list item) (final : list N) :
  Forall shaped_item items → well_formed_prose final →
  ∃ r, parseImageTags net (render_items items final) opts = Some r
       ∧ map site (tags r)
         = (markup_outcome net opts 0 0 items).1 ++ sites false 0 items
       ∧ probes r = (markup_outcome net opts 0 0 items).2
       ∧ warnings r = 0.
Proof.
  intros Hitems Hfinal.
  apply (scan_outcome_after net opts [] items final Hitems Hfinal);
    intros j Hj; simpl in Hj; lia.
Qed.

(** The element of the pending message is well formed. *)
Lemma pending_item_shaped : shaped_item pending_item.
Proof.
  assert (∀ s, Forall (λ c, c ≠ dquote ∧ c ≠ backslash) s → string_body s) as Hsb.
  { induction 1 as [|c s [??] _ IH]; [apply sb_nil | by apply sb_plain]. }
  split; [split; by vm_compute|].
  unfold well_formed_piece, pending_item, sourced_item, piece.
  split.
  { apply (bal_string (lit "prompt") (lit ":`a red fox`")).
    { apply Hsb. by repeat constructor. }
    apply bal_plain; [done..|].
    apply (bal_string (lit "a red fox") []); [|apply bal_nil].
    apply Hsb. by repeat constructor. }
  split; [by vm_compute|]. split; [vm_compute; lia|].
  split; [by vm_compute|]. split; [by vm_compute|].
  split; [vm_compute; lia|]. split; [by vm_compute|].
  split; [by vm_compute|].
  split; [by left|].
  eexists. by vm_compute.
Qed.

(** The bracket marker of the example is well formed. *)
Lemma legacy_item_shaped : shaped_item legacy_item.
Proof.
  assert (∀ s, Forall (λ c, c ≠ dquote ∧ c ≠ backslash) s → string_body s) as Hsb.
  { induction 1 as [|c s [??] _ IH]; [apply sb_nil | by apply sb_plain]. }
  split; [split; by vm_compute|].
  unfold well_formed_piece, legacy_item, piece.
  split.
  { apply (bal_string (lit "prompt") (lit ":`a red fox`")).
    { apply Hsb. by repeat constructor. }
    apply bal_plain; [done..|].
    apply (bal_string (lit "a red fox") []); [|apply bal_nil].
    apply Hsb. by repeat constructor. }
  split; [by vm_compute|].
  eexists. by vm_compute.
Qed.

(** The scan returns the elements that the policy chooses, and no
    others.  On a text made of markers of both families separated by
    prose, each marker well formed but for the choice of the policy, and
    with any options and any network: the tags of the markup family are
    the elements for which the policy decides that generation is needed,
    in the order of the text; one request is sent for each element whose
    decision needs one, in that order; the tags of the legacy family are
    all the bracket markers; no warning is logged. *)
Theorem scan_follows_policy (net : nat → list N → fetch_result)
        (opts : options) (items : list item) (final : list N) :
  Forall shaped_item items → well_formed_prose final →
  ∃ r, parseImageTags net (render_items items final) opts = Some r
       ∧ map site (tags r)
         = (markup_outcome net opts 0 0 items).1 ++ sites false 0 items
       ∧ probes r = (markup_outcome net opts 0 0 items).2
       ∧ warnings r = 0.
Proof. apply scan_outcome. Qed.

Lemma scan_follows_policy_witness :
  ∃ r, parseImageTags (λ _ _, Response false)
         (render_items [pending_item] (str " done")) Reconcile.normal_mode
       = Some r
       ∧ map site (tags r)
         = (markup_outcome (λ _ _, Response false) Reconcile.normal_mode 0 0
              [pending_item]).1
           ++ sites false 0 [pending_item]
       ∧ probes r
         = (markup_outcome (λ _ _, Response false) Reconcile.normal_mode 0 0
              [pending_item]).2
       ∧ warnings r = 0.
Proof.
  apply (scan_follows_policy (λ _ _, Response false) Reconcile.normal_mode
           [pending_item] (str " done")).
  - apply Forall_singleton, pending_item_shaped.
  - split; by vm_compute.
Defined.

(** ** Occurrences in texts put together *)

Section Joins.
Implicit Types pat s x y : list N.

Lemma includes_true pat s :
  includes pat s = true ↔ ∃ j, startsWith pat (drop j s) = true.
Proof.
  split.
  - unfold includes. destruct (find_sub pat s) as [k|] eqn:E; [|done].
    intros _. exists k. by apply find_sub_Some in E as [? _].
  - intros [j Hj]. destruct (includes pat s) eqn:E; [done|].
    by rewrite (includes_false _ _ j E) in Hj.
Qed.

Lemma startsWith_more pat s y :
  startsWith pat s = true → startsWith pat (s ++ y) = true.
Proof.
  intros [r ->]%startsWith_inv. rewrite <- app_assoc. apply startsWith_app.
Qed.

Lemma startsWith_nil pat : startsWith pat [] = true → pat = [].
Proof. by destruct pat. Qed.

Lemma includes_app_l pat x y :
  includes pat (x ++ y) = false → includes pat x = false.
Proof.
  intros Hfree. destruct (includes pat x) eqn:E; [|done].
  apply includes_true in E as [j Hj].
  assert (includes pat (x ++ y) = true) as H; [|congruence].
  apply includes_true.
  destruct (decide (j ≤ length x)) as [Hle|Hgt].
  - exists j. rewrite drop_app_le by done. by apply startsWith_more.
  - rewrite drop_ge in Hj by lia. apply startsWith_nil in Hj as ->. by exists 0.
Qed.

Lemma includes_app_r pat x y :
  includes pat (x ++ y) = false → includes pat y = false.
Proof.
  intros Hfree. destruct (includes pat y) eqn:E; [|done].
  apply includes_true in E as [j Hj].
  assert (includes pat (x ++ y) = true) as H; [|congruence].
  apply includes_true. exists (length x + j). by rewrite drop_app_add.
Qed.

(** Two texts that a pattern does not occur in, joined by a character
    that the pattern does not have. *)
Lemma includes_join pat x d y :
  (∀ k, pat !! k ≠ Some d) →
  includes pat x = false → includes pat y = false →
  includes pat (x ++ d :: y) = false.
Proof.
  intros Hd Hx Hy. destruct (includes pat (x ++ d :: y)) eqn:E; [|done].
  exfalso. apply includes_true in E as [j Hj].
  destruct (decide (length x < j)) as [Hafter|Hnot].
  - replace j with (length x + S (j - length x - 1)) in Hj by lia.
    rewrite drop_app_add in Hj. cbn [drop] in Hj.
    by rewrite (includes_false _ _ _ Hy) in Hj.
  - destruct (decide (j + length pat ≤ length x)) as [Hin|Hover].
    + apply startsWith_local in Hj; [|done].
      by rewrite (includes_false _ _ _ Hx) in Hj.
    + rewrite startsWith_lookup in Hj.
      destruct (lookup_lt_is_Some_2 pat (length x - j) ltac:(lia)) as [c Hc].
      specialize (Hj _ c Hc). rewrite lookup_drop in Hj.
      replace (j + (length x - j)) with (length x + 0) in Hj by lia.
      rewrite lookup_app_r, Nat.add_0_r, Nat.sub_diag in Hj by lia.
      injection Hj as <-. by apply (Hd (length x - j)).
Qed.

Lemma includes_char c s : includes [c] s = false ↔ c ∉ s.
Proof.
  split.
  - intros Hfree Hin. apply list_elem_of_lookup in Hin as [j Hj].
    by apply (includes_char_false _ _ _ Hfree) in Hj.
  - intros Hout. destruct (includes [c] s) eqn:E; [|done].
    apply includes_true in E as [j Hj]. apply startsWith_inv in Hj as [r Hr].
    exfalso. apply Hout. rewrite <- (take_drop j s), Hr. set_solver.
Qed.

(** A pattern occurs where a longer one that begins with it does. *)
Lemma includes_longer pat more s :
  includes pat s = false → includes (pat ++ more) s = false.
Proof.
  intros Hfree. destruct (includes (pat ++ more) s) eqn:E; [|done].
  apply includes_true in E as [j Hj]. apply startsWith_inv in Hj as [r Hr].
  assert (includes pat s = true) as H; [|congruence].
  apply includes_true. exists j. rewrite Hr, <- app_assoc. apply startsWith_app.
Qed.

(** What stands inside a pattern that occurs. *)
Lemma startsWith_inner a b c s :
  startsWith (a ++ b ++ c) s = true → startsWith b (drop (length a) s) = true.
Proof.
  intros [r ->]%startsWith_inv. rewrite <- !app_assoc, drop_app_length.
  apply startsWith_app.
Qed.

End Joins.


(** ** Occurrences near the end of a text *)

(** No occurrence of a pattern begins in a text that has none, when the
    text is followed by a character that the pattern does not have. *)
Lemma closed_prefix pat x d tail j :
  (∀ k, pat !! k ≠ Some d) → includes pat x = false → j ≤ length x →
  startsWith pat (drop j (x ++ d :: tail)) = false.
Proof.
  intros Hd Hx Hj.
  destruct (startsWith pat (drop j (x ++ d :: tail))) eqn:E; [|done]. exfalso.
  destruct (decide (j + length pat ≤ length x)) as [Hin|Hover].
  - apply startsWith_local in E; [|done].
    by rewrite (includes_false _ _ _ Hx) in E.
  - rewrite startsWith_lookup in E.
    destruct (lookup_lt_is_Some_2 pat (length x - j) ltac:(lia)) as [c Hc].
    specialize (E _ c Hc). rewrite lookup_drop in E.
    replace (j + (length x - j)) with (length x + 0) in E by lia.
    rewrite lookup_app_r, Nat.add_0_r, Nat.sub_diag in E by lia.
    injection E as <-. by apply (Hd (length x - j)).
Qed.

(** A text that a pattern does not occur in, followed by a text shorter
    than the pattern that begins with no inner character of it. *)
Lemma includes_short_tail pat x y :
  includes pat x = false →
  (∀ k c, 1 ≤ k → pat !! k = Some c → head y ≠ Some c) →
  length y < length pat → includes pat (x ++ y) = false.
Proof.
  intros Hx Hhead Hlen. destruct (includes pat (x ++ y)) eqn:E; [|done].
  exfalso. apply includes_true in E as [j Hj].
  destruct (decide (j < length x)) as [Hlt|Hge].
  - by rewrite (no_occurrence_in_prose pat x y j) in Hj.
  - apply startsWith_length in Hj. rewrite length_drop, length_app in Hj. lia.
Qed.

(** A character that the pattern does not begin with, before a text that
    the pattern does not occur in. *)
Lemma includes_cons pat c s :
  head pat ≠ Some c → pat ≠ [] →
  includes pat s = false → includes pat (c :: s) = false.
Proof.
  intros Hhead Hne Hs. destruct (includes pat (c :: s)) eqn:E; [|done].
  exfalso. apply includes_true in E as [[|j] Hj].
  - destruct pat as [|p pat]; [done|]. simpl in Hj.
    apply andb_true_iff in Hj as [Hp _]. apply N.eqb_eq in Hp. by subst.
  - simpl in Hj. by rewrite (includes_false _ _ _ Hs) in Hj.
Qed.

Lemma marker_lacks c : c ∉ marker → ∀ k, marker !! k ≠ Some c.
Proof. intros Hc k Hk. by apply Hc, (list_elem_of_lookup_2 _ k). Qed.

Lemma imgTagMarker_lacks c : c ∉ imgTagMarker → ∀ k, imgTagMarker !! k ≠ Some c.
Proof. intros Hc k Hk. by apply Hc, (list_elem_of_lookup_2 _ k). Qed.

Lemma imgTagMarker_inner_chars k c :
  1 ≤ k → imgTagMarker !! k = Some c → c ≠ 91%N.
Proof. intros _ Hc. by apply imgTagMarker_chars in Hc as (? & _). Qed.

(** ** Recording the outcome in the message text *)

Section RewriteFacts.
Import Rewrite.

(** A template without a dollar sign stands for itself. *)
Lemma expand_plain captures matched before after template :
  dollar ∉ template →
  expand captures matched before after template = template.
Proof.
  induction template as [|c r IH]; [done|]. intros Hfree.
  apply not_elem_of_cons in Hfree as [Hc Hr]. cbn [expand].
  destruct (N.eqb_spec c dollar); [done|]. by rewrite IH.
Qed.

Lemma find_sub_split pat s pos :
  find_sub pat s = Some pos →
  s = take pos s ++ pat ++ drop (pos + length pat) s.
Proof.
  intros [Hstart _]%find_sub_Some.
  apply startsWith_inv in Hstart as [rest Hrest].
  rewrite <- (take_drop pos s) at 1. f_equal.
  rewrite <- drop_drop, Hrest. by rewrite drop_app_length.
Qed.

(** Replacing a text by itself changes nothing, dollar signs apart. *)
Lemma replace_first_self s pat : dollar ∉ pat → replace_first s pat pat = s.
Proof.
  intros Hfree. unfold replace_first.
  destruct (find_sub pat s) as [pos|] eqn:Hfind; [|done].
  rewrite expand_plain by done. symmetry. by apply find_sub_split.
Qed.

(** *** Where the letters of [src] first occur *)

Lemma src_match_here_src s : src_here s = false → src_match_here s = None.
Proof.
  destruct s as [|c1 [|c2 [|c3 s]]]; try done. simpl. by intros ->.
Qed.

Lemma quoted_src_here_src s : src_here s = false → quoted_src_here s = None.
Proof.
  destruct s as [|c1 [|c2 [|c3 s]]]; try done. cbn [src_here quoted_src_here].
  by intros ->.
Qed.

(** Before an attribute that begins with these letters, they do not
    begin where they do not occur. *)
Lemma src_here_before u rest :
  u ≠ [] → mentions_src u = false →
  src_here (u ++ 115%N :: 114%N :: rest) = false.
Proof.
  intros Hu Hfree.
  destruct u as [|a [|b [|c u]]]; [done|..].
  - cbn. by rewrite andb_false_r.
  - cbn. by rewrite andb_false_r.
  - cbn [mentions_src] in Hfree. apply orb_false_iff in Hfree as [Hhere _].
    exact Hhere.
Qed.

Lemma mentions_src_tail c u : mentions_src (c :: u) = false → mentions_src u = false.
Proof. cbn [mentions_src]. by intros [_ ?]%orb_false_iff. Qed.

Lemma srcMatch_skip P rest :
  mentions_src P = false →
  srcMatch (P ++ 115%N :: 114%N :: rest) = srcMatch (115%N :: 114%N :: rest).
Proof.
  induction P as [|c P IH]; [done|]. intros Hfree.
  change ((c :: P) ++ 115%N :: 114%N :: rest)
    with (c :: (P ++ 115%N :: 114%N :: rest)).
  cbn [srcMatch].
  change (c :: (P ++ 115%N :: 114%N :: rest))
    with ((c :: P) ++ 115%N :: 114%N :: rest).
  rewrite src_match_here_src by (by apply src_here_before).
  apply IH. by eapply mentions_src_tail.
Qed.

Lemma quoted_src_skip P rest len q :
  mentions_src P = false →
  quoted_src_here (115%N :: 114%N :: rest) = Some (len, q) →
  quoted_src (P ++ 115%N :: 114%N :: rest) = Some (length P, len, q).
Proof.
  intros Hfree Hhere. induction P as [|c P IH].
  - destruct rest; cbn [app quoted_src]; by rewrite Hhere.
  - change ((c :: P) ++ 115%N :: 114%N :: rest)
      with (c :: (P ++ 115%N :: 114%N :: rest)).
    cbn [quoted_src].
    change (c :: (P ++ 115%N :: 114%N :: rest))
      with ((c :: P) ++ 115%N :: 114%N :: rest).
    rewrite quoted_src_here_src by (by apply src_here_before).
    by rewrite IH by (by eapply mentions_src_tail).
Qed.

(** *** The attribute itself *)

Lemma is_quote_not_space q : is_quote q = true → is_space q = false.
Proof.
  unfold is_quote. intros [Hq|Hq]%orb_true_iff; apply N.eqb_eq in Hq as ->; done.
Qed.

Lemma forallb_Forall (f : N → bool) (l : list N) :
  Forall (λ c, f c = true) l → forallb f l = true.
Proof. induction 1 as [|c l Hc _ IH]; [done|]. simpl. by rewrite Hc, IH. Qed.

Lemma skip_space_head c s : is_space c = false → skip_space (c :: s) = c :: s.
Proof. intros H. cbn [skip_space]. by rewrite H. Qed.

Lemma quoted_src_here_attribute q value tail :
  is_quote q = true → Forall (λ c, is_quote c = false) value →
  quoted_src_here (str "src=" ++ q :: value ++ q :: tail)
  = Some (6 + length value, q).
Proof.
  intros Hq Hvalue.
  change (str "src=" ++ q :: value ++ q :: tail)
    with (115%N :: 114%N :: 99%N :: 61%N :: q :: value ++ q :: tail).
  unfold quoted_src_here.
  change (letter_ci 115 115 && letter_ci 114 114 && letter_ci 99 99) with true.
  cbv iota. rewrite (skip_space_head 61) by done.
  change (61 =? 61)%N with true. cbv iota.
  rewrite (skip_space_head q) by (by apply is_quote_not_space).
  rewrite Hq.
  rewrite (take_while_stop _ value (q :: tail)).
  - rewrite drop_app_length, N.eqb_refl. do 2 f_equal.
    cbn [length]. rewrite length_app. cbn [length]. lia.
  - apply forallb_Forall. eapply Forall_impl; [exact Hvalue|].
    intros c Hc. simpl. by rewrite Hc.
  - by rewrite Hq.
Qed.

Lemma src_match_here_attribute value tail :
  value ≠ [] → Forall (λ c, src_char c = true) value →
  src_match_here (str "src=" ++ dquote :: value ++ dquote :: tail) = Some value.
Proof.
  intros Hne Hvalue.
  change (str "src=" ++ dquote :: value ++ dquote :: tail)
    with (115%N :: 114%N :: 99%N :: 61%N :: dquote :: value ++ dquote :: tail).
  unfold src_match_here.
  change (letter_ci 115 115 && letter_ci 114 114 && letter_ci 99 99) with true.
  cbv iota. rewrite (skip_space_head 61) by done.
  change (61 =? 61)%N with true. cbv iota zeta.
  rewrite (skip_space_head dquote) by done.
  change ((dquote =? dquote)%N || (dquote =? squote)%N) with true. cbv iota.
  rewrite (take_while_stop src_char value (dquote :: tail)); [|..|done].
  - by destruct value.
  - by apply forallb_Forall.
Qed.

(** Rewriting the source attribute of a text in which it is the first
    place where the letters of [src] occur. *)
Lemma replace_src_attribute P q old value tail :
  mentions_src P = false →
  is_quote q = true → Forall (λ c, is_quote c = false) old →
  dollar ∉ value →
  replace_src (P ++ str "src=" ++ q :: old ++ q :: tail) (src_attribute value)
  = P ++ str "src=" ++ dquote :: value ++ dquote :: tail.
Proof.
  intros HP Hq Hold Hvalue. unfold replace_src.
  pose proof (quoted_src_here_attribute q old tail Hq Hold) as Hhere.
  change (str "src=" ++ q :: old ++ q :: tail)
    with (115%N :: 114%N :: (99%N :: 61%N :: q :: old ++ q :: tail)) in *.
  rewrite (quoted_src_skip P _ _ _ HP Hhere).
  assert (drop (length P + (6 + length old))
            (P ++ 115%N :: 114%N :: 99%N :: 61%N :: q :: old ++ q :: tail)
          = tail) as ->.
  { rewrite <- drop_drop, drop_app_length.
    change (115%N :: 114%N :: 99%N :: 61%N :: q :: old ++ q :: tail)
      with ([115%N; 114%N; 99%N; 61%N; q] ++ old ++ q :: tail).
    replace (old ++ q :: tail) with ((old ++ [q]) ++ tail)
      by (by rewrite <- app_assoc).
    rewrite app_assoc.
    replace (6 + length old) with (length ([115%N; 114%N; 99%N; 61%N; q] ++ old ++ [q]))
      by (rewrite !length_app; simpl; lia).
    by rewrite drop_app_length. }
  rewrite expand_plain.
  - rewrite take_app_length. f_equal. unfold src_attribute.
    rewrite <- !app_assoc. cbn [app]. do 2 f_equal. by rewrite <- app_assoc.
  - unfold src_attribute.
    change (str "src=" ++ dquote :: value ++ [dquote])
      with ([115%N; 114%N; 99%N; 61%N; dquote] ++ value ++ [dquote]).
    rewrite !not_elem_of_app. split; [|split; [done|]].
    + by apply (bool_decide_unpack _).
    + by apply (bool_decide_unpack _).
Qed.

End RewriteFacts.

Section RewriteElement.
Import Rewrite.
Variables pre attrs gap body mid post : list N.

Lemma render_sourced q value :
  render (piece (sourced_item pre attrs gap body mid q value post))
  = element_head attrs gap body mid
    ++ str "src=" ++ q :: value ++ q :: (post ++ [gt_sign]).
Proof.
  unfold sourced_item, piece, render, with_source, element_head.
  repeat first [rewrite <- app_assoc | rewrite <- app_comm_cons]. reflexivity.
Qed.

Lemma no_marker_before_element rest0 tail t :
  t = pre ++ render (MarkupElement attrs gap body rest0) ++ tail →
  well_formed_prose pre →
  find_sub imgTagMarker (str "<img" ++ attrs ++ imgTagMarker)
  = Some (4 + length attrs) →
  ∀ j, j < length pre + 4 + length attrs →
       startsWith imgTagMarker (drop j t) = false.
Proof.
  intros Ht Hprose Hfirst j Hj.
  destruct (decide (j < length pre)) as [Hlt|Hge].
  - apply (prose_free_markup [] pre
             (render (MarkupElement attrs gap body rest0) ++ tail));
      [done|done|by right|simpl; lia].
  - destruct (startsWith imgTagMarker (drop j t)) eqn:E; [|done]. exfalso.
    rewrite Ht in E.
    replace j with (length pre + (j - length pre)) in E by lia.
    rewrite drop_app_add, render_markup_app in E.
    rewrite !app_assoc in E. rewrite <- (app_assoc (str "<img")) in E.
    rewrite <- !app_assoc in E.
    rewrite (app_assoc (str "<img")), (app_assoc _ imgTagMarker) in E.
    rewrite <- (app_assoc (str "<img")) in E.
    apply startsWith_local in E.
    + apply find_sub_Some in Hfirst as [_ Hmin].
      rewrite Hmin in E; [done|lia].
    + rewrite !length_app, imgTagMarker_length. simpl. lia.
Qed.

(** The first element of a text occurs first where it stands. *)
Lemma find_first_element rest0 tail :
  well_formed_prose pre →
  find_sub imgTagMarker (str "<img" ++ attrs ++ imgTagMarker)
  = Some (4 + length attrs) →
  find_sub (render (MarkupElement attrs gap body rest0))
    (pre ++ render (MarkupElement attrs gap body rest0) ++ tail)
  = Some (length pre).
Proof.
  intros Hprose Hfirst. apply find_sub_intro.
  - rewrite drop_app_length. apply startsWith_app.
  - intros j Hj.
    destruct (startsWith _ (drop j _)) eqn:E; [|done]. exfalso.
    unfold render in E at 1.
    rewrite (app_assoc (str "<img") attrs) in E.
    apply startsWith_inner in E. rewrite drop_drop in E.
    rewrite (no_marker_before_element rest0 tail _ eq_refl Hprose Hfirst) in E;
      [done|].
    rewrite length_app. simpl. lia.
Qed.

Lemma marker_no_dquote k : marker !! k ≠ Some dquote.
Proof. do 10 (destruct k as [|k]; [done|]). done. Qed.

Lemma src_char_sound value c :
  Forall (λ c, src_char c = true) value → src_char c = false → c ∉ value.
Proof.
  intros Hvalue Hc Hin. rewrite Forall_forall in Hvalue.
  specialize (Hvalue c Hin). congruence.
Qed.

(** The element is well formed with its new source as it was with the
    old one. *)
Lemma shaped_with_source q old value :
  shaped_item (sourced_item pre attrs gap body mid q old post) →
  is_quote q = true →
  plain_value value → includes marker value = false →
  shaped_item (sourced_item pre attrs gap body mid dquote value post).
Proof.
  intros [Hprose Hpiece] Hq (Hne & Hvalue & _) Hfree. split; [done|].
  pose proof (render_sourced q old) as Hold.
  pose proof (render_sourced dquote value) as Hnew.
  unfold sourced_item, piece in *. unfold well_formed_piece in *.
  rewrite Hold in Hpiece. rewrite Hnew.
  destruct Hpiece as (Hbal & Hattrs & Hattrs_len & Hfirst & Hgap & Hgap_len
                      & Hrest & Hmarker & _ & Hparse).
  repeat (split; [done|]).
  split; [|split; [|split; [by left|done]]].
  - apply includes_char. apply includes_char in Hrest. unfold with_source in *.
    rewrite !not_elem_of_app, !not_elem_of_cons, !not_elem_of_app,
      !not_elem_of_cons in *.
    destruct Hrest as (Hmid & Hsrc & _ & _ & _ & Hpost).
    split; [done|]. split; [done|]. split; [done|].
    split; [by apply src_char_sound|]. by split.
  - assert (includes marker (element_head attrs gap body mid ++ str "src=") = false)
      as Hhead.
    { rewrite app_assoc in Hmarker. by apply includes_app_l in Hmarker. }
    assert (includes marker (post ++ [gt_sign]) = false) as Htail.
    { replace (element_head attrs gap body mid
               ++ str "src=" ++ q :: old ++ q :: (post ++ [gt_sign]))
        with ((element_head attrs gap body mid ++ str "src=" ++ q :: old ++ [q])
              ++ (post ++ [gt_sign])) in Hmarker
        by (repeat first [rewrite <- app_assoc | rewrite <- app_comm_cons];
            reflexivity).
      by apply includes_app_r in Hmarker. }
    rewrite app_assoc.
    apply includes_join; [apply marker_no_dquote|done|].
    by apply includes_join; [apply marker_no_dquote|..].
Qed.

(** The text after the source attribute of its first element has been
    rewritten. *)
Lemma rewrite_element_text q old value items final :
  shaped_item (sourced_item pre attrs gap body mid q old post) →
  sourced_element attrs gap body mid q old post →
  plain_value value →
  replace_first
    (render_items (sourced_item pre attrs gap body mid q old post :: items) final)
    (render (piece (sourced_item pre attrs gap body mid q old post)))
    (replace_src (render (piece (sourced_item pre attrs gap body mid q old post)))
       (src_attribute value))
  = render_items (sourced_item pre attrs gap body mid dquote value post :: items)
      final.
Proof.
  intros [Hprose Hpiece] (Hq & Hold & Hsrc & Hhead & Hpost) (Hne & Hvalue & Hdollar).
  assert (replace_src
            (render (piece (sourced_item pre attrs gap body mid q old post)))
            (src_attribute value)
          = render (piece (sourced_item pre attrs gap body mid dquote value post)))
    as ->.
  { rewrite !render_sourced. by apply replace_src_attribute. }
  assert (dollar ∉ render (piece (sourced_item pre attrs gap body mid dquote value post)))
    as Hplain.
  { rewrite render_sourced.
    change (str "src=") with [115%N; 114%N; 99%N; 61%N].
    rewrite !not_elem_of_app, !not_elem_of_cons, !not_elem_of_app,
      !not_elem_of_cons.
    split; [done|]. split; [repeat (split; [done|]); apply not_elem_of_nil|].
    split; [done|]. split; [done|]. split; [done|].
    rewrite not_elem_of_app. split; [done|]. by apply (bool_decide_unpack _). }
  cbn [render_items prose]. unfold replace_first.
  unfold sourced_item, piece in *. unfold well_formed_piece in Hpiece.
  destruct Hpiece as (_ & _ & _ & Hfirst & _).
  rewrite (find_first_element _ _ Hprose Hfirst).
  rewrite expand_plain by done.
  rewrite take_app_length. f_equal. f_equal.
  by rewrite <- drop_drop, drop_app_length, drop_app_length.
Qed.

End RewriteElement.

Section AfterRewrite.
Import Rewrite.

Lemma srcMatch_head s v : src_match_here s = Some v → srcMatch s = Some v.
Proof. intros H. destruct s; [done|]. cbn [srcMatch]. by rewrite H. Qed.

Lemma srcMatch_sourced pre attrs gap body mid post value :
  mentions_src (element_head attrs gap body mid) = false →
  value ≠ [] → Forall (λ c, src_char c = true) value →
  srcMatch (render (piece (sourced_item pre attrs gap body mid dquote value post)))
  = Some value.
Proof.
  intros Hsrc Hne Hvalue. rewrite render_sourced.
  change (str "src=" ++ dquote :: value ++ dquote :: (post ++ [gt_sign]))
    with (115%N :: 114%N
          :: (99%N :: 61%N :: dquote :: value ++ dquote :: (post ++ [gt_sign]))).
  rewrite srcMatch_skip by done.
  apply srcMatch_head. by apply src_match_here_attribute.
Qed.

(** The scan of a text whose first element has a quoted source that the
    scanner reads back. *)
Lemma scan_sourced net opts pre attrs gap body mid post value items final :
  Forall shaped_item
    (sourced_item pre attrs gap body mid dquote value post :: items) →
  well_formed_prose final →
  mentions_src (element_head attrs gap body mid) = false →
  value ≠ [] → Forall (λ c, src_char c = true) value →
  ∃ r, parseImageTags net
         (render_items
            (sourced_item pre attrs gap body mid dquote value post :: items) final)
         opts = Some r
       ∧ scan_after net opts
           (sourced_item pre attrs gap body mid dquote value post) value items r.
Proof.
  intros Hitems Hfinal Hsrc Hne Hvalue.
  destruct (scan_outcome net opts _ final Hitems Hfinal)
    as (r & Hr & Hsites & Hprobes & Hwarn).
  exists r. split; [done|]. unfold scan_after.
  cbn [markup_outcome] in Hsites, Hprobes.
  rewrite sites_cons_other in Hsites by done.
  change (is_markup (piece (sourced_item pre attrs gap body mid dquote value post)))
    with true in *. cbv iota in Hsites, Hprobes.
  rewrite (srcMatch_sourced pre attrs gap body mid post value Hsrc Hne Hvalue)
    in Hsites, Hprobes.
  cbn [default from_option] in Hsites, Hprobes. unfold id in Hsites, Hprobes.
  cbn [Nat.add] in *.
  destruct (needsGeneration net 0 opts value) as [needs probed].
  destruct (markup_outcome net opts (length probed) _ items) as [found requested].
  cbn [fst snd] in *. rewrite <- app_assoc in Hsites. done.
Qed.

End AfterRewrite.

(** Reconciliation converges on an element.  When the text of a message
    begins, after prose, with an element whose quoted source attribute is
    the first place where the letters of [src] occur in it, and the
    image of its tag has been saved under a path, the rewriting puts the
    path, in double quotes, in the place of the old source and changes
    nothing else.  A scan of the new text decides on the element by that
    path: without options it is not returned any more; with existence
    checking it is probed, once, and returned if the probe does not
    report success.  The other markers are scanned as before. *)
Theorem rewrite_success_resolves (pre attrs gap body mid post old path : list N)
        (q : N) (items : list item) (final : list N) (tg : tag) :
  let first := sourced_item pre attrs gap body mid q old post in
  let settled := sourced_item pre attrs gap body mid dquote path post in
  Forall shaped_item (first :: items) → well_formed_prose final →
  sourced_element attrs gap body mid q old post →
  plain_value path → hasMarker path = false → hasErrorImage path = false →
  tag_of first tg →
  Rewrite.rewrite_success (render_items (first :: items) final) tg path
  = render_items (settled :: items) final
  ∧ (∀ net opts, ∃ r,
        parseImageTags net (render_items (settled :: items) final) opts = Some r
        ∧ scan_after net opts settled path items r)
  ∧ (∀ net n opts, forceAll opts = false → checkExistence opts = false →
                   needsGeneration net n opts path = (false, []))
  ∧ (∀ net n, hasPath path = true →
              needsGeneration net n Reconcile.normal_mode path
              = (negb (checkFileExists (net n path)), [path])).
Proof.
  intros first settled Hitems Hfinal Hsourced Hpath Hmarker Herror [Hfull Hnew].
  apply Forall_cons in Hitems as [Hfirst Hitems].
  pose proof Hsourced as (Hq & _ & Hsrc & _).
  pose proof Hpath as (Hne & Hchars & _).
  assert (includes marker path = false) as Hfree.
  { unfold hasMarker in Hmarker. apply orb_false_iff in Hmarker as [_ Hmarker].
    by apply (includes_longer (str "[IMG:") (str "GEN:")). }
  split; [|split; [|split]].
  - unfold Rewrite.rewrite_success. rewrite Hnew, Hfull.
    by apply rewrite_element_text.
  - intros net opts. apply scan_sourced; try done.
    apply Forall_cons. split; [|done]. by eapply shaped_with_source.
  - intros net n opts Hforce Hcheck. unfold needsGeneration.
    rewrite Herror, Hforce, Hmarker, Hcheck. cbn [andb orb].
    destruct path; [done|]. by rewrite andb_false_r.
  - intros net n Hhas. unfold needsGeneration.
    rewrite Herror, Hmarker, Hhas. cbn [andb orb Reconcile.normal_mode forceAll
                                        checkExistence negb].
    by destruct path.
Qed.

Lemma rewrite_success_resolves_witness :
  Rewrite.rewrite_success (render_items [pending_item] []) pending_tag
    (str "/user/images/fox.png")
  = lit "Look: <img data-iig-instruction='{`prompt`:`a red fox`}' src=`/user/images/fox.png`>".
Proof.
  refine (proj1 (rewrite_success_resolves (str "Look: ") (str " ") (str "'")
                   (lit "`prompt`:`a red fox`") (str "' ") [] (str "[IMG:GEN]")
                   (str "/user/images/fox.png") dquote [] [] pending_tag
                   _ _ _ _ _ _ _)).
  - apply Forall_singleton, pending_item_shaped.
  - split; by vm_compute.
  - split; [done|]. split; [apply (bool_decide_unpack _); by vm_compute|].
    split; [by vm_compute|].
    split; apply (bool_decide_unpack _); by vm_compute.
  - split; [done|].
    split; apply (bool_decide_unpack _); by vm_compute.
  - by vm_compute.
  - by vm_compute.
  - split; reflexivity.
Defined.

(** A failed generation parks the element.  Under the same conditions,
    when the generation of the tag has failed, the rewriting puts the
    path of the error image in the place of the old source.  A scan of
    the new text that is not forced does not return the element and
    sends no request for it, with or without existence checking; a
    forced scan returns it. *)
Theorem rewrite_failure_parks (pre attrs gap body mid post old message : list N)
        (q : N) (items : list item) (final : list N) (tg : tag) :
  let first := sourced_item pre attrs gap body mid q old post in
  let parked :=
    sourced_item pre attrs gap body mid dquote Rewrite.ERROR_IMAGE_PATH post in
  Forall shaped_item (first :: items) → well_formed_prose final →
  sourced_element attrs gap body mid q old post →
  tag_of first tg →
  Rewrite.rewrite_failure (render_items (first :: items) final) tg message
  = render_items (parked :: items) final
  ∧ (∀ net opts, ∃ r,
        parseImageTags net (render_items (parked :: items) final) opts = Some r
        ∧ scan_after net opts parked Rewrite.ERROR_IMAGE_PATH items r)
  ∧ (∀ net n opts,
        needsGeneration net n opts Rewrite.ERROR_IMAGE_PATH = (forceAll opts, [])).
Proof.
  intros first parked Hitems Hfinal Hsourced [Hfull Hnew].
  apply Forall_cons in Hitems as [Hfirst Hitems].
  pose proof Hsourced as (Hq & _ & Hsrc & _).
  assert (plain_value Rewrite.ERROR_IMAGE_PATH) as Hpath.
  { split; [done|]. split; [|by apply (bool_decide_unpack _)].
    apply (bool_decide_unpack _). by vm_compute. }
  pose proof Hpath as (Hne & Hchars & _).
  split; [|split].
  - unfold Rewrite.rewrite_failure. rewrite Hnew, Hfull.
    by apply rewrite_element_text.
  - intros net opts. apply scan_sourced; try done.
    apply Forall_cons. split; [|done]. by eapply shaped_with_source.
  - intros net n opts. unfold needsGeneration.
    change (hasErrorImage Rewrite.ERROR_IMAGE_PATH) with true.
    by destruct (forceAll opts).
Qed.

Lemma rewrite_failure_parks_witness :
  Rewrite.rewrite_failure (render_items [pending_item] []) pending_tag
    (str "Internal Server Error")
  = lit "Look: <img data-iig-instruction='{`prompt`:`a red fox`}' src=`/scripts/extensions/third-party/sillyimages/error.svg`>".
Proof.
  refine (proj1 (rewrite_failure_parks (str "Look: ") (str " ") (str "'")
                   (lit "`prompt`:`a red fox`") (str "' ") [] (str "[IMG:GEN]")
                   (str "Internal Server Error") dquote [] [] pending_tag
                   _ _ _ _)).
  - apply Forall_singleton, pending_item_shaped.
  - split; by vm_compute.
  - split; [done|]. split; [apply (bool_decide_unpack _); by vm_compute|].
    split; [by vm_compute|].
    split; apply (bool_decide_unpack _); by vm_compute.
  - split; reflexivity.
Defined.

(** The element whose source is written without quotes is returned by the
    scan, as pending. *)
Lemma unquoted_tag_scanned :
  parseImageTags (λ _ _, NetworkError) unquoted_message default_options
  = Some {| tags := [unquoted_tag]; probes := []; warnings := 0 |}.
Proof. by vm_compute. Qed.

(** An element whose source is not in quotes is never resolved.  The
    scanner reads the source of an element with or without quotes, but
    the rewriting looks for a quoted source.  For a tag of the markup
    family whose text holds no quoted source attribute, and no dollar
    sign, the rewriting after a success, after a failure and after a
    regeneration each leave the text of the message as it was: the
    image is generated and saved, the message does not refer to it, and
    the next scan finds the element as before. *)
Theorem rewrite_without_quoted_source (mes path message : list N) (tg : tag) :
  isNewFormat tg = true →
  Rewrite.quoted_src (fullMatch tg) = None →
  Rewrite.dollar ∉ fullMatch tg →
  Rewrite.rewrite_success mes tg path = mes
  ∧ Rewrite.rewrite_failure mes tg message = mes
  ∧ Rewrite.rewrite_regenerated mes tg path = mes.
Proof.
  intros Hnew Hnone Hfree.
  unfold Rewrite.rewrite_success, Rewrite.rewrite_failure,
    Rewrite.rewrite_regenerated, Rewrite.replace_src.
  rewrite Hnew, Hnone.
  repeat split; by apply replace_first_self.
Qed.

Lemma rewrite_without_quoted_source_witness :
  Rewrite.rewrite_success unquoted_message unquoted_tag (str "/user/images/fox.png")
  = unquoted_message
  ∧ Rewrite.rewrite_failure unquoted_message unquoted_tag
      (str "Internal Server Error")
    = unquoted_message
  ∧ Rewrite.rewrite_regenerated unquoted_message unquoted_tag
      (str "/user/images/fox.png")
    = unquoted_message.
Proof.
  apply (rewrite_without_quoted_source unquoted_message
           (str "/user/images/fox.png") (str "Internal Server Error")
           unquoted_tag).
  - reflexivity.
  - by vm_compute.
  - apply (bool_decide_unpack _). by vm_compute.
Defined.


(** ** The rewriting of a bracket marker, and the scan that follows *)

Section LegacyRewrite.
Import Rewrite.
Variables pre body : list N.

(** The first bracket marker of a text occurs first where it stands. *)
Lemma find_first_marker tail :
  well_formed_prose pre →
  find_sub (render (LegacyMarker body))
    (pre ++ render (LegacyMarker body) ++ tail)
  = Some (length pre).
Proof.
  intros Hprose. apply find_sub_intro.
  - rewrite drop_app_length. apply startsWith_app.
  - intros j Hj.
    destruct (startsWith _ (drop j _)) eqn:E; [|done]. exfalso.
    unfold render in E at 1.
    apply (startsWith_inner [] marker (lbrace :: body ++ [rbrace; rbracket]))
      in E.
    cbn [length] in E. rewrite drop_0 in E.
    rewrite (prose_free_legacy [] pre (render (LegacyMarker body) ++ tail)
               (pre ++ render (LegacyMarker body) ++ tail) j)
      in E; [done|done|done|by left|simpl; lia].
Qed.

(** A text without dollar signs in the place of the first marker. *)
Lemma legacy_rewrite_text note tail :
  well_formed_prose pre → dollar ∉ note →
  replace_first (pre ++ render (LegacyMarker body) ++ tail)
    (render (LegacyMarker body)) note
  = pre ++ note ++ tail.
Proof.
  intros Hprose Hplain. unfold replace_first.
  rewrite (find_first_marker tail Hprose).
  rewrite expand_plain by done.
  rewrite take_app_length. f_equal. f_equal.
  by rewrite <- drop_drop, drop_app_length, drop_app_length.
Qed.

(** The scan after a note that ends with a closing bracket. *)
Lemma scan_after_note net opts note items final :
  includes imgTagMarker (pre ++ note) = false →
  includes marker (pre ++ note) = false →
  Forall shaped_item items → well_formed_prose final →
  ∃ r, parseImageTags net
         ((pre ++ note ++ [rbracket]) ++ render_items items final) opts = Some r
       ∧ map site (tags r)
         = (markup_outcome net opts 0 (length (pre ++ note ++ [rbracket])) items).1
           ++ sites false (length (pre ++ note ++ [rbracket])) items
       ∧ probes r
         = (markup_outcome net opts 0 (length (pre ++ note ++ [rbracket])) items).2
       ∧ warnings r = 0.
Proof.
  intros Hmarkup Hlegacy Hitems Hfinal.
  apply scan_outcome_after; [done|done|..]; intros j Hj;
    rewrite (app_assoc pre note), <- (app_assoc (pre ++ note)); cbn [app];
    rewrite (app_assoc pre note), length_app in Hj; simpl in Hj.
  - apply closed_prefix; [|done|lia].
    apply imgTagMarker_lacks, (bool_decide_unpack _). by vm_compute.
  - apply closed_prefix; [|done|lia].
    apply marker_lacks, (bool_decide_unpack _). by vm_compute.
Qed.

(** No marker of either family in the prose and the note of a success,
    its closing bracket apart. *)
Lemma completion_free pat path :
  includes pat pre = false → includes pat path = false →
  (∀ k c, 1 ≤ k → pat !! k = Some c → c ≠ 91%N) →
  (∀ k, pat !! k ≠ Some 10003%N) →
  head pat ≠ Some 58%N → 5 < length pat →
  includes pat (pre ++ str "[IMG:" ++ 10003%N :: str ":" ++ path) = false.
Proof.
  intros Hpre Hpath Hinner Hcheck Hhead Hlen.
  rewrite app_assoc. apply includes_join; [done| |].
  - apply includes_short_tail; [done| |simpl; lia].
    intros k c Hk Hc [= <-]. by apply (Hinner k 91%N).
  - apply includes_cons; [done| |done]. intros ->. simpl in Hlen. lia.
Qed.

(** No marker of either family in the prose and the note of a failure,
    its closing bracket apart. *)
Lemma error_free pat text :
  includes pat pre = false → includes pat text = false →
  (∀ k c, 1 ≤ k → pat !! k = Some c → c ≠ 91%N) →
  (∀ k, pat !! k ≠ Some 79%N) →
  head pat ≠ Some 82%N → head pat ≠ Some 58%N → 8 < length pat →
  includes pat (pre ++ str "[IMG:ERROR:" ++ text) = false.
Proof.
  intros Hpre Htext Hinner Ho Hr Hcolon Hlen.
  change (str "[IMG:ERROR:" ++ text)
    with (str "[IMG:ERR" ++ 79%N :: 82%N :: 58%N :: text).
  rewrite app_assoc. apply includes_join; [done| |].
  - apply includes_short_tail; [done| |simpl; lia].
    intros k c Hk Hc [= <-]. by apply (Hinner k 91%N).
  - assert (pat ≠ []) as Hne by (intros ->; simpl in Hlen; lia).
    apply includes_cons; [done|done|]. by apply includes_cons.
Qed.

End LegacyRewrite.

(** A bracket marker is consumed by a success.  When the text of a
    message begins, after prose, with a well formed bracket marker, and
    the image of its tag has been saved under a path that holds no
    marker of either family and no dollar sign, the rewriting puts the
    completion marker with the path in the place of the bracket marker
    and changes nothing else.  A scan of the new text, with any options
    and any network, returns nothing for that place: its tags and its
    requests are those of the markers that follow, at their new
    offsets. *)
Theorem legacy_success_consumes_marker (pre body path : list N)
        (items : list item) (final : list N) (tg : tag) :
  let first := {| prose := pre; piece := LegacyMarker body |} in
  let settled := pre ++ completion_marker path in
  Forall shaped_item (first :: items) → well_formed_prose final →
  well_formed_prose path → Rewrite.dollar ∉ path →
  tag_of first tg →
  Rewrite.rewrite_success (render_items (first :: items) final) tg path
  = settled ++ render_items items final
  ∧ (∀ net opts, ∃ r,
        parseImageTags net (settled ++ render_items items final) opts = Some r
        ∧ map site (tags r)
          = (markup_outcome net opts 0 (length settled) items).1
            ++ sites false (length settled) items
        ∧ probes r = (markup_outcome net opts 0 (length settled) items).2
        ∧ warnings r = 0).
Proof.
  intros first settled Hitems Hfinal [Hp1 Hp2] Hdollar [Hfull Hnew].
  apply Forall_cons in Hitems as [[[Hpre1 Hpre2] Hpiece] Hitems].
  cbn [prose piece first] in *.
  split.
  - unfold Rewrite.rewrite_success. rewrite Hnew, Hfull. cbn [is_markup piece].
    cbn [render_items prose piece]. unfold settled. rewrite <- app_assoc.
    apply legacy_rewrite_text; [done|].
    unfold completion_marker.
    rewrite !not_elem_of_app, !not_elem_of_cons, !not_elem_of_app.
    split; [by apply (bool_decide_unpack _)|]. split; [done|].
    split; [by apply (bool_decide_unpack _)|]. split; [done|].
    by apply (bool_decide_unpack _).
  - intros net opts. unfold settled, completion_marker.
    replace (str "[IMG:" ++ 10003%N :: str ":" ++ path ++ str "]")
      with ((str "[IMG:" ++ 10003%N :: str ":" ++ path) ++ [rbracket])
      by (repeat first [rewrite <- app_assoc | rewrite <- app_comm_cons];
          reflexivity).
    apply scan_after_note; [| |done|done].
    + apply completion_free; [done|done| | |done|simpl; lia].
      * apply imgTagMarker_inner_chars.
      * apply imgTagMarker_lacks, (bool_decide_unpack _). by vm_compute.
    + apply completion_free; [done|done| | |done|simpl; lia].
      * intros k c Hk Hc. by apply marker_inner_chars in Hc as (? & _).
      * apply marker_lacks, (bool_decide_unpack _). by vm_compute.
Qed.

Lemma legacy_success_consumes_marker_witness :
  Rewrite.rewrite_success (render_items [legacy_item] (str " world")) legacy_tag
    (str "/user/images/fox.png")
  = str "Hello " ++ completion_marker (str "/user/images/fox.png") ++ str " world".
Proof.
  refine (proj1 (legacy_success_consumes_marker (str "Hello ")
                   (lit "`prompt`:`a red fox`") (str "/user/images/fox.png")
                   [] (str " world") legacy_tag _ _ _ _ _)).
  - apply Forall_singleton, legacy_item_shaped.
  - split; by vm_compute.
  - split; by vm_compute.
  - apply (bool_decide_unpack _). by vm_compute.
  - split; reflexivity.
Defined.

(** A bracket marker is consumed by a failure, for good.  Under the same
    conditions on the text, when the generation of the tag has failed
    with a message whose first 50 code units hold no marker of either
    family and no dollar sign, the rewriting puts the error marker with
    those code units in the place of the bracket marker.  A scan of the
    new text, with any options, forced ones included, returns nothing
    for that place: the instruction is gone from the message, and the
    image cannot be requested again from it. *)
Theorem legacy_failure_consumes_marker (pre body message path : list N)
        (items : list item) (final : list N) (tg : tag) :
  let first := {| prose := pre; piece := LegacyMarker body |} in
  let failed := pre ++ error_marker message in
  Forall shaped_item (first :: items) → well_formed_prose final →
  well_formed_prose (substring message 0 50) →
  Rewrite.dollar ∉ substring message 0 50 →
  tag_of first tg →
  Rewrite.rewrite_failure (render_items (first :: items) final) tg message
  = failed ++ render_items items final
  ∧ (∀ net opts, ∃ r,
        parseImageTags net (failed ++ render_items items final) opts = Some r
        ∧ map site (tags r)
          = (markup_outcome net opts 0 (length failed) items).1
            ++ sites false (length failed) items
        ∧ probes r = (markup_outcome net opts 0 (length failed) items).2
        ∧ warnings r = 0).
Proof.
  intros first failed Hitems Hfinal [Hp1 Hp2] Hdollar [Hfull Hnew].
  apply Forall_cons in Hitems as [[[Hpre1 Hpre2] Hpiece] Hitems].
  cbn [prose piece first] in *.
  split.
  - unfold Rewrite.rewrite_failure. rewrite Hnew, Hfull. cbn [is_markup piece].
    cbn [render_items prose piece]. unfold failed. rewrite <- app_assoc.
    apply legacy_rewrite_text; [done|].
    unfold error_marker.
    rewrite !not_elem_of_app.
    split; [by apply (bool_decide_unpack _)|]. split; [done|].
    by apply (bool_decide_unpack _).
  - intros net opts. unfold failed, error_marker.
    rewrite (app_assoc (str "[IMG:ERROR:")).
    apply scan_after_note; [| |done|done].
    + apply error_free; [done|done| | |done|done|simpl; lia].
      * apply imgTagMarker_inner_chars.
      * apply imgTagMarker_lacks, (bool_decide_unpack _). by vm_compute.
    + apply error_free; [done|done| | |done|done|simpl; lia].
      * intros k c Hk Hc. by apply marker_inner_chars in Hc as (? & _).
      * apply marker_lacks, (bool_decide_unpack _). by vm_compute.
Qed.

Lemma legacy_failure_consumes_marker_witness :
  Rewrite.rewrite_failure (render_items [legacy_item] (str " world")) legacy_tag
    (str "Internal Server Error")
  = lit "Hello [IMG:ERROR:Internal Server Error] world".
Proof.
  refine (proj1 (legacy_failure_consumes_marker (str "Hello ")
                   (lit "`prompt`:`a red fox`") (str "Internal Server Error") []
                   [] (str " world") legacy_tag _ _ _ _ _)).
  - apply Forall_singleton, legacy_item_shaped.
  - split; by vm_compute.
  - split; by vm_compute.
  - apply (bool_decide_unpack _). by vm_compute.
  - split; reflexivity.
Defined.
